(** * A lock-coupled binary search tree (ch30/btree)

    Shallow embedding of [btree.h] and [btree.c] (with the demo [main]):
    an unbalanced binary search tree keyed by C strings, guarded by one
    tree-wide reader/writer lock and one mutex per node.

    The heap is tree shaped (every node is owned by exactly one link), so
    the linked structure is an inductive tree whose nodes carry the
    address of their [bt_node_t] block; a store through a link
    ([*link = n], [parent->left = child], [t->root = child]) rebuilds the
    spine above the link.  Everything that is not tree shaped is explicit
    machine state: the root pointer, the reader/writer lock, the set of
    node mutexes currently held, the allocator, and a log of the calls
    made to pthreads, to the allocator and to the value-release callback.

    One caller is modelled.  A blocking call on a lock that is held never
    returns ([Blocked]); unlocking a mutex that is not held leaves it
    unlocked. *)

From stdpp Require Import gmap sets list strings sorting.
From Stdlib Require Import ZArith Lia.
From Stdlib Require OrderedTypeEx.

Set Warnings "-clear-no-such-hyp".

Local Open Scope string_scope.
Local Open Scope list_scope.
Local Open Scope Z_scope.

(** ** Data model *)

Definition addr := nat.

(** A [void *]: the null pointer, a string literal, or another object. *)
Inductive pointer :=
| NULLptr
| Lit (s : string)
| Obj (a : addr).

(** A heap-allocated C string, as returned by [strdup]. *)
Record cstr := Cstr { caddr : addr; chars : string }.

(** [struct bt_node]; [NULL] is the null link.  The node's mutex is the
    entry of the node's address in [held]. *)
Inductive bt_node :=
| NULL
| Node (a : addr) (key : cstr) (value : pointer) (left right : bt_node).

(** [pthread_rwlock_t]: free, held by [S n] readers, or held by a writer. *)
Inductive rwstate :=
| Unlocked
| ReadLocked (n : nat)
| WriteLocked.

Global Instance rwstate_eq_dec : EqDecision rwstate.
Proof. solve_decision. Defined.

Inductive event :=
| EvRwInit | EvRdLock | EvWrLock | EvRwUnlock | EvRwDestroy
| EvMutexInit (a : addr) | EvMutexLock (a : addr)
| EvMutexUnlock (a : addr) | EvMutexDestroy (a : addr)
| EvAlloc (a : addr)
| EvFree (a : addr)
| EvCall (f : addr) (arg : pointer)
| EvPrint (s : string).

(** The [btree_t] object ([root], [rwlock]) and the rest of the process:
    [held] is the set of locked node mutexes, [brk] the next fresh heap
    address, [oracle] decides the calls that can fail ([calloc], [strdup],
    [pthread_mutex_init]; [false] is a failure, an exhausted oracle means
    success), [log] records the calls in program order. *)
Record machine := Machine {
  root : bt_node;
  rwlock : rwstate;
  held : gset addr;
  brk : addr;
  oracle : list bool;
  log : list event
}.

(** A pointer to the [btree_t] object, or [None] for [NULL]. *)
Inductive btree_ref : Set := the_tree.

Definition EINVAL : Z := 22.
Definition ENOMEM : Z := 12.

(** ** The monad of a call: it returns with a new state or blocks *)

Inductive outcome (A : Type) :=
| Done (x : A) (m : machine)
| Blocked (m : machine).
Arguments Done {A} x m.
Arguments Blocked {A} m.

Definition M (A : Type) := machine -> outcome A.

Definition ret {A} (x : A) : M A := fun m => Done x m.

Definition bind {A B} (c : M A) (k : A -> M B) : M B :=
  fun m => match c m with
           | Done x m' => k x m'
           | Blocked m' => Blocked m'
           end.

Declare Scope call_scope.
Notation "x ← y ; z" := (bind y (fun x => z))
  (at level 20, y at level 100, z at level 200, only parsing) : call_scope.
Notation "' x ← y ; z" := (bind y (fun x => z))
  (at level 20, x pattern, y at level 100, z at level 200, only parsing) : call_scope.
Notation "x ;; z" := (bind x (fun _ => z))
  (at level 100, z at level 200, only parsing, right associativity) : call_scope.
Local Open Scope call_scope.

(** The state in which a call has returned, or in which it is stuck. *)
Definition final {A} (o : outcome A) : machine :=
  match o with Done _ m => m | Blocked m => m end.

Definition emit (e : event) (m : machine) : machine :=
  Machine (root m) (rwlock m) (held m) (brk m) (oracle m) (log m ++ [e]).

Definition get_root : M bt_node := fun m => Done (root m) m.

Definition set_root (n : bt_node) : M unit := fun m =>
  Done tt (Machine n (rwlock m) (held m) (brk m) (oracle m) (log m)).

Definition set_rwlock (s : rwstate) (m : machine) : machine :=
  Machine (root m) s (held m) (brk m) (oracle m) (log m).

Definition set_held (h : gset addr) (m : machine) : machine :=
  Machine (root m) (rwlock m) h (brk m) (oracle m) (log m).

(** *** pthreads

    The locks are the default ones ([pthread_mutex_init] and
    [pthread_rwlock_init] with null attributes).  A lock call on a lock that
    cannot be granted blocks; since nothing else runs in the model, it
    blocks for ever.  Unlocking a mutex that is not locked is left
    undefined by POSIX; here it leaves the mutex unlocked. *)

Definition pthread_rwlock_init : M Z := fun m =>
  Done 0 (emit EvRwInit (set_rwlock Unlocked m)).

Definition pthread_rwlock_rdlock : M unit := fun m =>
  match rwlock m with
  | Unlocked => Done tt (emit EvRdLock (set_rwlock (ReadLocked 0) m))
  | ReadLocked n => Done tt (emit EvRdLock (set_rwlock (ReadLocked (S n)) m))
  | WriteLocked => Blocked m
  end.

Definition pthread_rwlock_wrlock : M unit := fun m =>
  match rwlock m with
  | Unlocked => Done tt (emit EvWrLock (set_rwlock WriteLocked m))
  | _ => Blocked m
  end.

Definition pthread_rwlock_unlock : M unit := fun m =>
  match rwlock m with
  | ReadLocked (S n) => Done tt (emit EvRwUnlock (set_rwlock (ReadLocked n) m))
  | _ => Done tt (emit EvRwUnlock (set_rwlock Unlocked m))
  end.

Definition pthread_rwlock_destroy : M unit := fun m =>
  Done tt (emit EvRwDestroy m).

Definition pthread_mutex_lock (a : addr) : M unit := fun m =>
  if decide (a ∈ held m) then Blocked m
  else Done tt (emit (EvMutexLock a) (set_held ({[a]} ∪ held m) m)).

Definition pthread_mutex_unlock (a : addr) : M unit := fun m =>
  Done tt (emit (EvMutexUnlock a) (set_held (held m ∖ {[a]}) m)).

Definition pthread_mutex_destroy (a : addr) : M unit := fun m =>
  Done tt (emit (EvMutexDestroy a) m).

(** [if (p) pthread_mutex_unlock(&p->mtx);] *)
Definition unlock_if (p : option addr) : M unit :=
  match p with
  | Some a => pthread_mutex_unlock a
  | None => ret tt
  end.

(** *** The allocator

    [consult] pops the next answer of the oracle, [fresh] hands out the
    block at [brk]; blocks are never handed out twice. *)

Definition consult : M bool := fun m =>
  match oracle m with
  | [] => Done true m
  | b :: o => Done b (Machine (root m) (rwlock m) (held m) (brk m) o (log m))
  end.

Definition fresh : M addr := fun m =>
  Done (brk m)
       (emit (EvAlloc (brk m))
             (Machine (root m) (rwlock m) (held m) (S (brk m)) (oracle m) (log m))).

Definition calloc : M (option addr) :=
  ok ← consult;
  if ok : bool then a ← fresh; ret (Some a) else ret None.

Definition strdup (s : string) : M (option cstr) :=
  ok ← consult;
  if ok : bool then a ← fresh; ret (Some (Cstr a s)) else ret None.

Definition free (a : addr) : M unit := fun m => Done tt (emit (EvFree a) m).

(** [pthread_mutex_init(&n->mtx, NULL) == 0] *)
Definition pthread_mutex_init (a : addr) : M bool :=
  ok ← consult;
  if ok : bool then (fun m => Done true (emit (EvMutexInit a) m)) else ret false.

(** *** libc *)

(** [strcmp]: negative, zero or positive, by the first differing byte
    taken as [unsigned char].  Keys are C strings (no NUL inside). *)
Definition strcmp (s1 s2 : string) : Z :=
  match String.compare s1 s2 with
  | Lt => -1
  | Eq => 0
  | Gt => 1
  end.

(** ** btree.c *)

(** [None] is the null result. *)
Definition node_new (key : string) (value : pointer) : M (option bt_node) :=
  n ← calloc;
  match n with
  | None => ret None
  | Some n =>
      k ← strdup key;
      match k with
      | None => free n ;; ret None
      | Some k =>
          ok ← pthread_mutex_init n;
          if ok : bool then ret (Some (Node n k value NULL NULL))
          else free (caddr k) ;; free n ;; ret None
      end
  end.

(** [free_value] is [None] for a null callback, else the callback's address;
    a call of the callback is the log entry [EvCall f value]. *)
Definition call_if (free_value : option addr) (v : pointer) : M unit :=
  match free_value with
  | Some f => fun m => Done tt (emit (EvCall f v) m)
  | None => ret tt
  end.

Definition node_free (n : bt_node) (free_value : option addr) : M unit :=
  match n with
  | NULL => ret tt
  | Node a k v _ _ =>
      call_if free_value v ;;
      pthread_mutex_destroy a ;;
      free (caddr k) ;;
      free a
  end.

Fixpoint node_free_recursive (n : bt_node) (free_value : option addr) : M unit :=
  match n with
  | NULL => ret tt
  | Node _ _ _ l r =>
      node_free_recursive l free_value ;;
      node_free_recursive r free_value ;;
      node_free n free_value
  end.

(** [pthread_rwlock_init] is taken to succeed. *)
Definition bt_init (t : option btree_ref) : M Z :=
  match t with
  | None => ret EINVAL
  | Some _ => set_root NULL ;; pthread_rwlock_init
  end.

Definition bt_destroy (t : option btree_ref) (free_value : option addr) : M unit :=
  match t with
  | None => ret tt
  | Some _ =>
      pthread_rwlock_wrlock ;;
      r ← get_root;
      node_free_recursive r free_value ;;
      set_root NULL ;;
      pthread_rwlock_unlock ;;
      pthread_rwlock_destroy
  end.

(** The [while (cur)] loop of [bt_lookup].  The result is [Some v] when the
    loop returns true having read [v = cur->value], [None] when it falls
    out with [cur == NULL]. *)
Fixpoint lookup_loop (key : string) (cur : bt_node) : M (option pointer) :=
  match cur with
  | NULL => ret None
  | Node a k v l r =>
      pthread_mutex_lock a ;;
      let cmp := strcmp key (chars k) in
      if cmp =? 0 then
        pthread_mutex_unlock a ;;
        ret (Some v)
      else
        let next := if cmp <? 0 then l else r in
        pthread_mutex_unlock a ;;
        lookup_loop key next
  end.

(** [value_out] is [None] for a null [void **], else the pointer stored in
    the caller's variable; the second component of the result is that
    variable after the call. *)
Definition bt_lookup (t : option btree_ref) (key : option string)
    (value_out : option pointer) : M (bool * option pointer) :=
  match t, key with
  | Some _, Some key =>
      pthread_rwlock_rdlock ;;
      cur ← get_root;
      found ← lookup_loop key cur;
      pthread_rwlock_unlock ;;
      match found with
      | Some v => ret (true, option_map (fun _ => v) value_out)
      | None => ret (false, value_out)
      end
  | _, _ => ret (false, value_out)
  end.

(** The [for (;;)] loop of [bt_add], entered with [cur] locked.  It yields
    [rc], the variable [parent] at the [break], and the subtree at [cur]
    after the stores made through [cur] and its descendants.  No store is
    made before the last lock has been taken, so a call that blocks leaves
    the tree as it found it. *)
Fixpoint add_loop (key : string) (value : pointer) (parent : option addr)
    (cur : bt_node) : M (Z * option addr * bt_node) :=
  match cur with
  | NULL => ret (0, parent, NULL)               (* [cur] is never null here *)
  | Node a k v l r =>
      let cmp := strcmp key (chars k) in
      if cmp =? 0 then
        (* cur->value = value; rc = 1 *)
        pthread_mutex_unlock a ;;
        ret (1, parent, Node a k value l r)
      else
        let link := if cmp <? 0 then l else r in
        let store n := if cmp <? 0 then Node a k v n r else Node a k v l n in
        match link with
        | NULL =>
            n ← node_new key value;
            match n with
            | None => pthread_mutex_unlock a ;; ret (ENOMEM, parent, cur)
            | Some n => pthread_mutex_unlock a ;; ret (0, parent, store n)
            end
        | Node a' _ _ _ _ =>
            pthread_mutex_lock a' ;;
            unlock_if parent ;;
            '(rc, parent', next) ← add_loop key value (Some a) link;
            ret (rc, parent', store next)
        end
  end.

Definition bt_add (t : option btree_ref) (key : option string)
    (value : pointer) : M Z :=
  match t, key with
  | Some _, Some key =>
      pthread_rwlock_wrlock ;;
      cur ← get_root;
      rc ← match cur with
           | NULL =>
               n ← node_new key value;
               match n with
               | None => ret ENOMEM
               | Some n => set_root n ;; ret 0
               end
           | Node a _ _ _ _ =>
               pthread_mutex_lock a ;;
               '(rc, parent, cur') ← add_loop key value None cur;
               set_root cur' ;;
               unlock_if parent ;;
               ret rc
           end;
      pthread_rwlock_unlock ;;
      ret rc
  | _, _ => ret EINVAL
  end.

(** The [while (cur->left)] loop of [find_min_locked]: [parent] and [cur]
    are its two variables, the result is [( *min_parent, *min_node )]. *)
Fixpoint find_min_loop (parent : addr) (cur : bt_node) : M (addr * bt_node) :=
  match cur with
  | NULL => ret (parent, NULL)                  (* [cur] is never null here *)
  | Node a _ _ l _ =>
      match l with
      | NULL => ret (parent, cur)
      | Node a' _ _ _ _ =>
          pthread_mutex_lock a' ;;
          pthread_mutex_unlock parent ;;
          find_min_loop a l
      end
  end.

(** [start] has a right child at the only call site. *)
Definition find_min_locked (start : bt_node) : M (addr * bt_node) :=
  match start with
  | Node a _ _ _ (Node a' _ _ _ _ as cur) =>
      pthread_mutex_lock a' ;;
      find_min_loop a cur
  | _ => ret (0%nat, NULL)                      (* not reached *)
  end.

(** The store that splices the successor out of the right subtree [n] of
    the node being deleted: [cur->right = succ_child] when the successor
    is [n] itself, [succ_parent->left = succ_child] further down the left
    spine. *)
Fixpoint splice_min (n : bt_node) : bt_node :=
  match n with
  | NULL => NULL
  | Node a k v l r =>
      match l with
      | NULL => r
      | Node _ _ _ _ _ => Node a k v (splice_min l) r
      end
  end.

Definition is_null (n : bt_node) : bool :=
  match n with NULL => true | Node _ _ _ _ _ => false end.

(** [bt_delete] from "Save value for caller" on: [cur] is the node found
    (locked), [parent] its parent (locked) if any.  The result is the
    status, the caller's [*old_value], and what the link that pointed at
    [cur] points at afterwards. *)
Definition delete_found (old_value : option pointer) (parent : option addr)
    (cur : bt_node) : M (Z * option pointer * bt_node) :=
  match cur with
  | NULL => ret (-1, old_value, NULL)           (* [if (!cur)]: not reached *)
  | Node a k v l r =>
      (* if (old_value) *old_value = cur->value; *)
      let old_value := option_map (fun _ => v) old_value in
      if is_null l || is_null r then
        let child := if is_null l then r else l in
        pthread_mutex_unlock a ;;
        unlock_if parent ;;
        node_free cur None ;;
        ret (0, old_value, child)
      else
        '(succ_parent, succ) ← find_min_locked cur;
        match succ with
        | NULL => ret (-1, old_value, cur)      (* [succ] is never null *)
        | Node sa sk sv _ _ =>
            new_key ← strdup (chars sk);
            match new_key with
            | None =>
                pthread_mutex_unlock sa ;;
                pthread_mutex_unlock succ_parent ;;
                pthread_mutex_unlock a ;;
                unlock_if parent ;;
                ret (ENOMEM, old_value, cur)
            | Some new_key =>
                free (caddr k) ;;
                (* if (old_value) *old_value = succ->value;
                   else cur->value = succ->value; *)
                let '(old_value, v) :=
                  match old_value with
                  | Some _ => (Some sv, v)
                  | None => (None, sv)
                  end in
                pthread_mutex_unlock sa ;;
                pthread_mutex_unlock succ_parent ;;
                pthread_mutex_unlock a ;;
                unlock_if parent ;;
                node_free succ None ;;
                ret (0, old_value, Node a new_key v l (splice_min r))
            end
        end
  end.

(** The search loop of [bt_delete], entered with [cur] locked, followed by
    the rest of the function when the key is found.  [parent->left == cur]
    holds exactly when the search went left from [parent], so the store
    into the parent's link is [store] on the side taken. *)
Fixpoint delete_loop (key : string) (old_value : option pointer)
    (parent : option addr) (cur : bt_node) : M (Z * option pointer * bt_node) :=
  match cur with
  | NULL => ret (-1, old_value, NULL)           (* [cur] is never null here *)
  | Node a k v l r =>
      let cmp := strcmp key (chars k) in
      if negb (cmp =? 0) then
        let next := if cmp <? 0 then l else r in
        let store n := if cmp <? 0 then Node a k v n r else Node a k v l n in
        match next with
        | NULL =>
            (* if (!next): [cur] is unlocked, [parent] is not *)
            pthread_mutex_unlock a ;; ret (-1, old_value, cur)
        | Node a' _ _ _ _ =>
            pthread_mutex_lock a' ;;
            unlock_if parent ;;
            '(result, old_value, next) ← delete_loop key old_value (Some a) next;
            ret (result, old_value, store next)
        end
      else delete_found old_value parent cur
  end.

Definition bt_delete (t : option btree_ref) (key : option string)
    (old_value : option pointer) : M (Z * option pointer) :=
  match t, key with
  | Some _, Some key =>
      pthread_rwlock_wrlock ;;
      cur ← get_root;
      res ← match cur with
            | NULL => ret (-1, old_value)
            | Node a _ _ _ _ =>
                pthread_mutex_lock a ;;
                '(result, old_value, cur') ← delete_loop key old_value None cur;
                set_root cur' ;;
                ret (result, old_value)
            end;
      pthread_rwlock_unlock ;;
      ret res
  | _, _ => ret (EINVAL, old_value)
  end.

(** ** demo.c *)

Definition printf (s : string) : M unit := fun m => Done tt (emit (EvPrint s) m).

Definition newline : string := String (Ascii.ascii_of_nat 10) EmptyString.

(** [printf("%s", (char * )p)] for the pointers the demo prints. *)
Definition as_string (p : pointer) : string :=
  match p with Lit s => s | _ => "(null)" end.

(** [&t] in [main]. *)
Definition t : option btree_ref := Some the_tree.

Definition main : M Z :=
  bt_init t ;;
  bt_add t (Some "d") (Lit "delta") ;;
  bt_add t (Some "b") (Lit "bravo") ;;
  bt_add t (Some "a") (Lit "alpha") ;;
  bt_add t (Some "c") (Lit "charlie") ;;
  bt_add t (Some "e") (Lit "echo") ;;
  '(found, val) ← bt_lookup t (Some "c") (Some NULLptr);
  (if found : bool
   then printf ("c -> " ++ as_string (default NULLptr val) ++ newline)%string
   else ret tt) ;;
  '(rc, old) ← bt_delete t (Some "b") (Some NULLptr);
  (if rc =? 0
   then printf ("deleted b (old value: " ++ as_string (default NULLptr old) ++ ")"
                ++ newline)%string
   else ret tt) ;;
  bt_destroy t None ;;
  ret 0.

(** The process at the start of [main]: nothing allocated, nothing locked,
    an allocator that never fails. *)
Definition boot : machine := Machine NULL Unlocked ∅ 0%nat [] [].

(** ** In-order view and the search-tree invariant *)

Fixpoint keys (n : bt_node) : list string :=
  match n with
  | NULL => []
  | Node _ k _ l r => keys l ++ chars k :: keys r
  end.

Fixpoint addrs (n : bt_node) : list addr :=
  match n with
  | NULL => []
  | Node a _ _ l r => addrs l ++ a :: addrs r
  end.

(** Post-order list of the nodes, as (node block, key block, value). *)
Fixpoint postorder (n : bt_node) : list (addr * addr * pointer) :=
  match n with
  | NULL => []
  | Node a k v l r => postorder l ++ postorder r ++ [(a, caddr k, v)]
  end.

(** The order of the keys: [strcmp] is negative. *)
Definition klt (s1 s2 : string) : Prop := strcmp s1 s2 < 0.

(** For every node, the keys of its left subtree compare less than its
    key and the keys of its right subtree compare greater. *)
Fixpoint BST (n : bt_node) : Prop :=
  match n with
  | NULL => True
  | Node _ k _ l r =>
      Forall (fun x => klt x (chars k)) (keys l) /\
      Forall (fun x => klt (chars k) x) (keys r) /\
      BST l /\ BST r
  end.

(** ** What the loops compute on the tree

    The functions of this section take the comparisons of the loops of
    [btree.c] and nothing else: no lock, no allocation.  They are what the
    loops are proved to compute. *)

(** The node at which a search for [key] stops ([NULL] if it falls out). *)
Fixpoint seek (key : string) (cur : bt_node) : bt_node :=
  match cur with
  | NULL => NULL
  | Node _ k _ l r =>
      let cmp := strcmp key (chars k) in
      if cmp =? 0 then cur else seek key (if cmp <? 0 then l else r)
  end.

Definition value_of (n : bt_node) : option pointer :=
  match n with NULL => None | Node _ _ v _ _ => Some v end.

(** The tree after [bt_add] returns 0 or 1, [n] being the node made by
    [node_new]. *)
Fixpoint tree_add (n : bt_node) (key : string) (value : pointer)
    (cur : bt_node) : bt_node :=
  match cur with
  | NULL => n
  | Node a k v l r =>
      let cmp := strcmp key (chars k) in
      if cmp =? 0 then Node a k value l r
      else if cmp <? 0 then Node a k v (tree_add n key value l) r
      else Node a k v l (tree_add n key value r)
  end.

(** The leftmost node of a subtree: the in-order successor of the node
    whose right subtree it is. *)
Fixpoint leftmost (n : bt_node) : bt_node :=
  match n with
  | NULL => NULL
  | Node _ _ _ l _ =>
      match l with
      | NULL => n
      | Node _ _ _ _ _ => leftmost l
      end
  end.

(** What replaces the found node [cur] when [bt_delete] returns 0:
    [new_key] is the block of the duplicated key, [handed] tells whether
    the caller passed [old_value]. *)
Definition replacement (new_key : addr) (handed : bool) (cur : bt_node) : bt_node :=
  match cur with
  | NULL => NULL
  | Node a k v l r =>
      if is_null l || is_null r then (if is_null l then r else l)
      else
        match leftmost r with
        | NULL => cur
        | Node _ sk sv _ _ =>
            Node a (Cstr new_key (chars sk)) (if handed then v else sv) l (splice_min r)
        end
  end.

Fixpoint tree_delete (new_key : addr) (handed : bool) (key : string)
    (cur : bt_node) : bt_node :=
  match cur with
  | NULL => NULL
  | Node a k v l r =>
      let cmp := strcmp key (chars k) in
      if cmp =? 0 then replacement new_key handed cur
      else if cmp <? 0 then Node a k v (tree_delete new_key handed key l) r
      else Node a k v l (tree_delete new_key handed key r)
  end.

Global Instance klt_dec s1 s2 : Decision (klt s1 s2).
Proof. unfold klt. apply _. Defined.

(** ** Reasoning about calls *)

(** [post c m Q B]: from [m], the call [c] returns a result and a state
    that satisfy [Q], or blocks in a state that satisfies [B]. *)
Definition post {A} (c : M A) (m : machine)
    (Q : A -> machine -> Prop) (B : machine -> Prop) : Prop :=
  match c m with
  | Done x m' => Q x m'
  | Blocked m' => B m'
  end.

(** The mutex of a node and of an optional parent, as sets. *)
Definition mtx (n : bt_node) : gset addr :=
  match n with NULL => ∅ | Node a _ _ _ _ => {[a]} end.

Definition optset (p : option addr) : gset addr :=
  match p with None => ∅ | Some a => {[a]} end.

(** The node blocks strictly below a node. *)
Definition below (n : bt_node) : list addr :=
  match n with NULL => [] | Node _ _ _ l r => addrs l ++ addrs r end.

(** No lock stands in the way of a descent from [cur], which is itself
    already locked by the caller. *)
Definition clear_below (cur : bt_node) (m : machine) : Prop :=
  NoDup (addrs cur) /\ forall x, x ∈ below cur -> x ∉ held m.

(** No lock stands in the way of an operation. *)
Definition calm (m : machine) : Prop :=
  rwlock m = Unlocked /\ NoDup (addrs (root m)) /\
  forall x, x ∈ addrs (root m) -> x ∉ held m.

Global Instance calm_dec m : Decision (calm m).
Proof.
  refine (cast_if (decide (rwlock m = Unlocked /\ NoDup (addrs (root m)) /\
                           Forall (fun x => x ∉ held m) (addrs (root m)))));
    unfold calm; rewrite Forall_forall in *; naive_solver.
Defined.

(** The first three answers of the oracle are the three calls of
    [node_new]. *)
Definition node_new_ok (m : machine) : Prop :=
  Forall (fun b => b = true) (take 3 (oracle m)).

Definition new_node (m : machine) (key : string) (value : pointer) : bt_node :=
  Node (brk m) (Cstr (S (brk m)) key) value NULL NULL.

(** The calls to [free] in a log, in order. *)
Definition frees (l : list event) : list addr :=
  omap (fun e => match e with EvFree a => Some a | _ => None end) l.

(** The calls of the value-release callback in a log, in order. *)
Definition calls (l : list event) : list (addr * pointer) :=
  omap (fun e => match e with EvCall f v => Some (f, v) | _ => None end) l.

(** ** What the calls are proved to do

    One postcondition per loop and per operation, in terms of the
    functions above; the proofs are in the second part. *)

Definition add_post (key : string) (value : pointer) (parent : option addr)
    (cur : bt_node) (m : machine) (res : Z * option addr * bt_node)
    (m' : machine) : Prop :=
  let '(rc, parent', cur') := res in
  root m' = root m /\ rwlock m' = rwlock m /\
  held m' ∖ optset parent' = held m ∖ mtx cur ∖ optset parent /\
  ((rc = ENOMEM /\ cur' = cur /\ seek key cur = NULL /\ ~ node_new_ok m) \/
   (rc = 1 /\ seek key cur <> NULL /\
    cur' = tree_add (new_node m key value) key value cur) \/
   (rc = 0 /\ seek key cur = NULL /\ node_new_ok m /\
    cur' = tree_add (new_node m key value) key value cur)).

Definition bt_add_post (key : string) (value : pointer) (m : machine)
    (rc : Z) (m' : machine) : Prop :=
  rwlock m = Unlocked /\ rwlock m' = Unlocked /\ held m' = held m /\
  ((rc = ENOMEM /\ root m' = root m /\ seek key (root m) = NULL /\ ~ node_new_ok m) \/
   (rc = 1 /\ seek key (root m) <> NULL /\
    root m' = tree_add (new_node m key value) key value (root m)) \/
   (rc = 0 /\ seek key (root m) = NULL /\ node_new_ok m /\
    root m' = tree_add (new_node m key value) key value (root m))).

Definition two_children (n : bt_node) : bool :=
  match n with
  | NULL => false
  | Node _ _ _ l r => negb (is_null l || is_null r)
  end.

(** The next answer of the oracle is not a failure. *)
Definition strdup_ok (m : machine) : Prop := head (oracle m) <> Some false.

Definition value_or_null (n : bt_node) : pointer := default NULLptr (value_of n).

(** What a successful [bt_delete] stores in [*old_value], [n] being the
    node found. *)
Definition handed_out (n : bt_node) : pointer :=
  if two_children n
  then match n with
       | NULL => NULLptr
       | Node _ _ _ _ r => value_or_null (leftmost r)
       end
  else value_or_null n.

(** The blocks a successful [bt_delete] frees, in order, [n] being the
    node found. *)
Definition released_blocks (n : bt_node) : list addr :=
  match n with
  | NULL => []
  | Node a k _ _ r =>
      if two_children n
      then match leftmost r with
           | NULL => []
           | Node sa sk _ _ _ => [caddr k; caddr sk; sa]
           end
      else [caddr k; a]
  end.

Definition supplied (old_value : option pointer) : bool :=
  match old_value with Some _ => true | None => false end.

Definition found_post (old_value : option pointer) (parent : option addr)
    (cur : bt_node) (m : machine) (res : Z * option pointer * bt_node)
    (m' : machine) : Prop :=
  let '(result, out, cur') := res in
  root m' = root m /\ rwlock m' = rwlock m /\
  held m' = held m ∖ mtx cur ∖ optset parent /\
  ((result = ENOMEM /\ two_children cur = true /\ ~ strdup_ok m /\
    cur' = cur /\ out = option_map (fun _ => value_or_null cur) old_value) \/
   (result = 0 /\ (two_children cur = true -> strdup_ok m) /\
    cur' = replacement (brk m) (supplied old_value) cur /\
    out = option_map (fun _ => handed_out cur) old_value /\
    frees (log m') = frees (log m) ++ released_blocks cur)).

Definition delete_post (key : string) (old_value : option pointer)
    (parent : option addr) (cur : bt_node) (m : machine)
    (res : Z * option pointer * bt_node) (m' : machine) : Prop :=
  let '(result, out, cur') := res in
  let found := seek key cur in
  root m' = root m /\ rwlock m' = rwlock m /\
  ((result = -1 /\ found = NULL /\ cur' = cur /\ out = old_value /\
    frees (log m') = frees (log m)) \/
   (result = ENOMEM /\ two_children found = true /\ ~ strdup_ok m /\
    cur' = cur /\ out = option_map (fun _ => value_or_null found) old_value /\
    held m' = held m ∖ mtx cur ∖ optset parent) \/
   (result = 0 /\ found <> NULL /\ (two_children found = true -> strdup_ok m) /\
    cur' = tree_delete (brk m) (supplied old_value) key cur /\
    out = option_map (fun _ => handed_out found) old_value /\
    frees (log m') = frees (log m) ++ released_blocks found /\
    held m' = held m ∖ mtx cur ∖ optset parent)).

Definition bt_delete_post (key : string) (old_value : option pointer)
    (m : machine) (res : Z * option pointer) (m' : machine) : Prop :=
  let '(result, out) := res in
  let found := seek key (root m) in
  rwlock m = Unlocked /\ rwlock m' = Unlocked /\
  ((result = -1 /\ found = NULL /\ root m' = root m /\ out = old_value /\
    frees (log m') = frees (log m)) \/
   (result = ENOMEM /\ two_children found = true /\ ~ strdup_ok m /\
    root m' = root m /\ out = option_map (fun _ => value_or_null found) old_value /\
    held m' = held m) \/
   (result = 0 /\ found <> NULL /\ (two_children found = true -> strdup_ok m) /\
    root m' = tree_delete (brk m) (supplied old_value) key (root m) /\
    out = option_map (fun _ => handed_out found) old_value /\
    frees (log m') = frees (log m) ++ released_blocks found /\
    held m' = held m)).

Definition bt_lookup_post (key : string) (value_out : option pointer)
    (m : machine) (res : bool * option pointer) (m' : machine) : Prop :=
  root m' = root m /\ rwlock m' = rwlock m /\ held m' = held m /\
  brk m' = brk m /\ oracle m' = oracle m /\
  frees (log m') = frees (log m) /\ calls (log m') = calls (log m) /\
  res = match value_of (seek key (root m)) with
        | Some v => (true, option_map (fun _ => v) value_out)
        | None => (false, value_out)
        end.

(** What [node_free_recursive] appends to the log. *)
Fixpoint teardown (free_value : option addr) (n : bt_node) : list event :=
  match n with
  | NULL => []
  | Node a k v l r =>
      teardown free_value l ++ teardown free_value r ++
      match free_value with Some f => [EvCall f v] | None => [] end ++
      [EvMutexDestroy a; EvFree (caddr k); EvFree a]
  end.

(** The nodes in order, as (node block, key block, value). *)
Fixpoint nodes (n : bt_node) : list (addr * addr * pointer) :=
  match n with
  | NULL => []
  | Node a k v l r => nodes l ++ (a, caddr k, v) :: nodes r
  end.

(** ** Scenarios *)

(** The operation sequence of the round-trip property, run on the tree of
    the demo. *)
Definition round_trip : M ((bool * option pointer) * (Z * option pointer) *
                           (bool * option pointer)) :=
  bt_init t ;;
  bt_add t (Some "d") (Lit "delta") ;;
  bt_add t (Some "b") (Lit "bravo") ;;
  bt_add t (Some "a") (Lit "alpha") ;;
  bt_add t (Some "c") (Lit "charlie") ;;
  bt_add t (Some "e") (Lit "echo") ;;
  c ← bt_lookup t (Some "c") (Some NULLptr);
  d ← bt_delete t (Some "b") (Some NULLptr);
  b ← bt_lookup t (Some "b") (Some NULLptr);
  ret (c, d, b).

Definition prints (l : list event) : list string :=
  omap (fun e => match e with EvPrint s => Some s | _ => None end) l.

(** The operations that leave a node mutex behind: a delete of the absent
    key "d" walks b, c and returns at [if (!next)] with b still locked. *)
Definition failed_delete : M (Z * option pointer) :=
  bt_init t ;;
  bt_add t (Some "b") (Lit "bravo") ;;
  bt_add t (Some "c") (Lit "charlie") ;;
  bt_delete t (Some "d") None.

(** The tree of the demo after its five insertions. *)
Definition populated : machine :=
  final ((bt_init t ;;
          bt_add t (Some "d") (Lit "delta") ;;
          bt_add t (Some "b") (Lit "bravo") ;;
          bt_add t (Some "a") (Lit "alpha") ;;
          bt_add t (Some "c") (Lit "charlie") ;;
          bt_add t (Some "e") (Lit "echo")) boot).

(** ** Sequences of writes *)

Inductive op :=
| Add (key : option string) (value : pointer)
| Delete (key : option string) (old_value : option pointer).

Definition step (h : option btree_ref) (o : op) : M unit :=
  match o with
  | Add key value => bt_add h key value ;; ret tt
  | Delete key old_value => bt_delete h key old_value ;; ret tt
  end.

(** The calls of [ops] one after the other; the caller that blocks makes
    no further call. *)
Fixpoint run (h : option btree_ref) (ops : list op) : M unit :=
  match ops with
  | [] => ret tt
  | o :: ops => step h o ;; run h ops
  end.

(** A machine whose allocator fails at once, holding the tree of the demo. *)
Definition starved : machine :=
  Machine (root populated) Unlocked ∅ (brk populated) [false] [].

(** A still point of a well-formed heap: no lock is held, every node has
    a block of its own, and the blocks in use lie below [brk]. *)
Definition settled (m : machine) : Prop :=
  rwlock m = Unlocked /\ held m = ∅ /\ NoDup (addrs (root m)) /\
  Forall (fun a => (a < brk m)%nat) (addrs (root m)).

Global Instance settled_dec m : Decision (settled m).
Proof. unfold settled. apply _. Defined.

(** ** The tree as a finite map *)

(** The bindings in order. *)
Fixpoint bindings (n : bt_node) : list (string * pointer) :=
  match n with
  | NULL => []
  | Node _ k v l r => bindings l ++ (chars k, v) :: bindings r
  end.

(** The map a search tree stands for. *)
Definition as_map (n : bt_node) : gmap string pointer :=
  list_to_map (bindings n).

(** What a call returned, if it did. *)
Definition result {A} (o : outcome A) : option A :=
  match o with Done x _ => Some x | Blocked _ => None end.

(** What [bt_lookup] returns for a binding [found] of the map. *)
Definition lookup_result (found : option pointer) (value_out : option pointer)
    : bool * option pointer :=
  match found with
  | Some v => (true, option_map (fun _ => v) value_out)
  | None => (false, value_out)
  end.

(** The key of the in-order successor of a node: the least key of its
    right subtree. *)
Definition successor_key (n : bt_node) : string :=
  match n with
  | NULL => EmptyString
  | Node _ _ _ _ r =>
      match leftmost r with
      | NULL => EmptyString
      | Node _ sk _ _ _ => chars sk
      end
  end.

(** An optional rebinding of a key. *)
Definition rebind (b : option (string * pointer)) (M : gmap string pointer)
    : gmap string pointer :=
  match b with
  | Some (s, x) => <[s := x]> M
  | None => M
  end.

(** What the two-children path of [bt_delete] rebinds when the caller
    passed [old_value]: the successor's key, to the value of the node
    found. *)
Definition rebound (handed : bool) (found : bt_node) : option (string * pointer) :=
  if handed && two_children found
  then Some (successor_key found, value_or_null found)
  else None.

(** ** The heap *)

(** The blocks handed out by the allocator, in order. *)
Definition allocs (l : list event) : list addr :=
  omap (fun e => match e with EvAlloc a => Some a | _ => None end) l.

(** The blocks of a tree: each node and its key. *)
Fixpoint blocks (n : bt_node) : list addr :=
  match n with
  | NULL => []
  | Node a k _ l r => blocks l ++ a :: caddr k :: blocks r
  end.

(** Between [m] and [m'] nothing was allocated and nothing freed. *)
Definition heap_same (m m' : machine) : Prop :=
  allocs (log m') = allocs (log m) /\ frees (log m') = frees (log m) /\
  brk m' = brk m.

(** Between [m] and [m'] the allocator handed out the next [n] blocks and
    the blocks [F] were freed, while a tree went from [cur] to [cur']:
    what the tree gained was allocated, what it lost was freed, and
    nothing else was. *)
Definition heap_step (m m' : machine) (cur cur' : bt_node) : Prop :=
  exists n F,
    allocs (log m') = allocs (log m) ++ seq (brk m) n /\
    frees (log m') = frees (log m) ++ F /\
    brk m' = (brk m + n)%nat /\
    seq (brk m) n ++ blocks cur ≡ₚ F ++ blocks cur'.

(** Every block handed out is below [brk], none was handed out twice, and
    the blocks handed out are those freed together with those of the tree,
    each counted once: no block is freed twice, no block of the tree has
    been freed, no block is lost. *)
Definition heap_ok (m : machine) : Prop :=
  NoDup (allocs (log m)) /\
  Forall (fun a => (a < brk m)%nat) (allocs (log m)) /\
  allocs (log m) ≡ₚ frees (log m) ++ blocks (root m).

(** A state between calls in which the heap is in order, the tree lock is
    free and no node mutex is held. *)
Definition sound (m : machine) : Prop :=
  heap_ok m /\ rwlock m = Unlocked /\ held m = ∅.

Global Instance heap_ok_dec m : Decision (heap_ok m).
Proof. unfold heap_ok. apply _. Defined.

Global Instance sound_dec m : Decision (sound m).
Proof. unfold sound. apply _. Defined.

Global Instance BST_dec n : Decision (BST n).
Proof. induction n; simpl; apply _. Defined.

(** ** Calls, lookups included *)

Inductive call :=
| Insert (key : option string) (value : pointer)
| Remove (key : option string) (old_value : option pointer)
| Find (key : option string) (value_out : option pointer).

Definition serve (h : option btree_ref) (c : call) : M unit :=
  match c with
  | Insert key value => bt_add h key value ;; ret tt
  | Remove key old_value => bt_delete h key old_value ;; ret tt
  | Find key value_out => bt_lookup h key value_out ;; ret tt
  end.

Fixpoint serve_all (h : option btree_ref) (cs : list call) : M unit :=
  match cs with
  | [] => ret tt
  | c :: cs => serve h c ;; serve_all h cs
  end.

Definition is_remove (c : call) : bool :=
  match c with Remove _ _ => true | _ => false end.

(** ** The mutex a failed delete leaves behind *)

(** The nodes a search for [key] locks, in order. *)
Fixpoint visited (key : string) (cur : bt_node) : list addr :=
  match cur with
  | NULL => []
  | Node a k _ l r =>
      let cmp := strcmp key (chars k) in
      a :: (if cmp =? 0 then [] else visited key (if cmp <? 0 then l else r))
  end.

(** The variable [parent] of [bt_delete] at the exit [if (!next)] of its
    search loop, entered with [parent] and [cur]. *)
Fixpoint stuck_parent (key : string) (parent : option addr) (cur : bt_node)
    : option addr :=
  match cur with
  | NULL => parent
  | Node a k _ l r =>
      let cmp := strcmp key (chars k) in
      if cmp =? 0 then None
      else
        let next := if cmp <? 0 then l else r in
        match next with
        | NULL => parent
        | Node _ _ _ _ _ => stuck_parent key (Some a) next
        end
  end.

(** ** The successor's parent *)

(** The variable [parent] of [find_min_locked] after its loop, entered
    with [parent] and [cur]. *)
Fixpoint min_parent (parent : addr) (cur : bt_node) : addr :=
  match cur with
  | NULL => parent
  | Node a _ _ l _ =>
      match l with
      | NULL => parent
      | Node _ _ _ _ _ => min_parent a l
      end
  end.

Definition left_of (n : bt_node) : bt_node :=
  match n with NULL => NULL | Node _ _ _ l _ => l end.

(** ** The demo under allocation failures *)

(** The process at the start of [main] with an allocator that answers
    as [o] says. *)
Definition boot_with (o : list bool) : machine :=
  Machine NULL Unlocked ∅ 0%nat o [].

Global Instance clear_below_dec cur m : Decision (clear_below cur m).
Proof.
  refine (cast_if (decide (NoDup (addrs cur) /\
                           Forall (fun x => x ∉ held m) (below cur))));
    unfold clear_below; rewrite <- Forall_forall; done.
Defined.

(** A node whose in-order successor is not its right child, locked by
    the caller as [bt_delete] does before [find_min_locked]. *)
Definition deep_successor : machine :=
  let e := Node 4%nat (Cstr 5%nat "e") (Lit "echo") NULL NULL in
  let f := Node 2%nat (Cstr 3%nat "f") (Lit "fox") e NULL in
  Machine (Node 0%nat (Cstr 1%nat "d") (Lit "delta") NULL f)
          WriteLocked {[0%nat]} 6%nat [] [].

(** * Proofs *)

(** ** The order of the keys *)

Lemma strcmp_eq s1 s2 : strcmp s1 s2 = 0 <-> s1 = s2.
Proof.
  unfold strcmp. split.
  - destruct (String.compare s1 s2) eqn:E; try discriminate.
    intros _. by apply String.compare_eq_iff.
  - intros ->.
    pose proof (proj2 (OrderedTypeEx.String_as_OT.cmp_eq s2 s2) eq_refl) as E.
    unfold OrderedTypeEx.String_as_OT.cmp in E. by rewrite E.
Qed.

Lemma strcmp_lt s1 s2 : strcmp s1 s2 < 0 <-> String.compare s1 s2 = Lt.
Proof. unfold strcmp. destruct (String.compare s1 s2); split; (lia || done). Qed.

Lemma strcmp_antisym s1 s2 : strcmp s2 s1 = - strcmp s1 s2.
Proof.
  unfold strcmp. rewrite (String.compare_antisym s1 s2).
  by destruct (String.compare s2 s1).
Qed.

Lemma klt_irrefl s : ~ klt s s.
Proof. unfold klt. rewrite (proj2 (strcmp_eq s s) eq_refl). lia. Qed.

Lemma klt_trans s1 s2 s3 : klt s1 s2 -> klt s2 s3 -> klt s1 s3.
Proof.
  unfold klt. rewrite !strcmp_lt.
  change String.compare with OrderedTypeEx.String_as_OT.cmp.
  rewrite !OrderedTypeEx.String_as_OT.cmp_lt.
  apply OrderedTypeEx.String_as_OT.lt_trans.
Qed.

Lemma klt_asym s1 s2 : klt s1 s2 -> ~ klt s2 s1.
Proof. intros H1 H2. exact (klt_irrefl _ (klt_trans _ _ _ H1 H2)). Qed.

(** The three outcomes of a comparison, as the loops test them. *)
Lemma strcmp_cases key k :
  (strcmp key k = 0 /\ key = k) \/
  (strcmp key k < 0 /\ klt key k) \/
  (0 < strcmp key k /\ klt k key).
Proof.
  unfold klt. rewrite (strcmp_antisym key k).
  destruct (Z.lt_trichotomy (strcmp key k) 0) as [H|[H|H]].
  - right. left. lia.
  - left. split; [done|]. by apply strcmp_eq.
  - right. right. lia.
Qed.

Ltac cmp_cases key k :=
  let E := fresh "E" in
  let K := fresh "K" in
  let B1 := fresh "B" in
  let B2 := fresh "B" in
  destruct (strcmp_cases key k) as [[E K]|[[E K]|[E K]]];
  [ assert (B1 : (strcmp key k =? 0) = true) by lia
  | assert (B1 : (strcmp key k =? 0) = false) by lia;
    assert (B2 : (strcmp key k <? 0) = true) by lia
  | assert (B1 : (strcmp key k =? 0) = false) by lia;
    assert (B2 : (strcmp key k <? 0) = false) by lia ];
  rewrite ?B1, ?B2; cbn [negb].

Lemma klt_tests x y :
  klt x y -> (strcmp x y =? 0) = false /\ (strcmp x y <? 0) = true.
Proof. unfold klt. lia. Qed.

Lemma kgt_tests x y :
  klt y x -> (strcmp x y =? 0) = false /\ (strcmp x y <? 0) = false.
Proof. unfold klt. rewrite (strcmp_antisym x y). lia. Qed.

(** ** The search-tree invariant on the pure functions *)

Lemma BST_sorted n : BST n <-> StronglySorted klt (keys n).
Proof.
  induction n as [|a k v l IHl r IHr]; simpl.
  - split; [constructor|done].
  - rewrite StronglySorted_app, StronglySorted_cons, IHl, IHr, !Forall_forall.
    split.
    + intros (Hl & Hr & Sl & Sr). repeat split; try done.
      intros x1 x2 H1 H2. apply elem_of_cons in H2 as [->|H2]; [by apply Hl|].
      exact (klt_trans _ _ _ (Hl _ H1) (Hr _ H2)).
    + intros (H & Sl & Hr & Sr). repeat split; try done.
      intros x Hx. apply (H x (chars k)); [done|]. apply elem_of_cons. by left.
Qed.

Lemma StronglySorted_filter {A} (R : relation A) (P : A -> Prop)
    `{!forall x, Decision (P x)} (l : list A) :
  StronglySorted R l -> StronglySorted R (filter P l).
Proof.
  induction 1 as [|x l Hs IH Hx]; [constructor|].
  rewrite filter_cons. destruct (decide (P x)); [|done].
  constructor; [done|].
  rewrite Forall_forall in *. intros y [_ Hy]%list_elem_of_filter. auto.
Qed.

Lemma keys_tree_add (P : string -> Prop) a ka key value value' cur :
  P key -> Forall P (keys cur) ->
  Forall P (keys (tree_add (Node a (Cstr ka key) value' NULL NULL) key value cur)).
Proof.
  intros Hk. induction cur as [|a' k v l IHl r IHr]; simpl; intros H.
  - by repeat constructor.
  - apply Forall_app in H as [Hl Hr]. apply Forall_cons in Hr as [Hx Hr].
    destruct (strcmp key (chars k) =? 0); [|destruct (strcmp key (chars k) <? 0)];
      simpl; rewrite Forall_app, Forall_cons; auto.
Qed.

Lemma BST_tree_add a ka key value value' cur :
  BST cur -> BST (tree_add (Node a (Cstr ka key) value' NULL NULL) key value cur).
Proof.
  induction cur as [|a' k v l IHl r IHr]; simpl.
  - by repeat constructor.
  - intros (Hl & Hr & Bl & Br).
    destruct (strcmp_cases key (chars k)) as [[E _]|[[E L]|[E L]]].
    + rewrite E. simpl. done.
    + replace (strcmp key (chars k) =? 0) with false by lia.
      replace (strcmp key (chars k) <? 0) with true by lia.
      simpl. repeat split; auto. by apply keys_tree_add.
    + replace (strcmp key (chars k) =? 0) with false by lia.
      replace (strcmp key (chars k) <? 0) with false by lia.
      simpl. repeat split; auto. by apply keys_tree_add.
Qed.

(** The successor is the first node of the right subtree in order, and
    the splice removes exactly it. *)
Lemma leftmost_splice n :
  n <> NULL ->
  exists sa sk sv sr,
    leftmost n = Node sa sk sv NULL sr /\
    keys n = chars sk :: keys (splice_min n) /\
    addrs n = sa :: addrs (splice_min n).
Proof.
  induction n as [|a k v l IHl r _]; [done|]. intros _.
  destruct l as [|la lk lv ll lr].
  - by exists a, k, v, r.
  - destruct IHl as (sa & sk & sv & sr & E1 & E2 & E3); [done|].
    exists sa, sk, sv, sr. split; [exact E1|].
    change (keys (Node a k v (Node la lk lv ll lr) r))
      with (keys (Node la lk lv ll lr) ++ chars k :: keys r).
    change (addrs (Node a k v (Node la lk lv ll lr) r))
      with (addrs (Node la lk lv ll lr) ++ a :: addrs r).
    rewrite E2, E3. done.
Qed.

Lemma leftmost_key_in n sa sk sv sl sr :
  leftmost n = Node sa sk sv sl sr -> chars sk ∈ keys n.
Proof.
  intros E. destruct n as [|a k v l r]; [done|].
  destruct (leftmost_splice (Node a k v l r)) as (? & sk' & ? & ? & E' & -> & _); [done|].
  rewrite E in E'. injection E' as -> -> -> -> ->. set_solver.
Qed.

Lemma keys_replacement new_key handed a k v l r :
  keys (replacement new_key handed (Node a k v l r)) = (keys l ++ keys r).
Proof.
  unfold replacement. destruct l as [|la lk lv ll lr]; [done|].
  destruct r as [|ra rk rv rl rr]; [by rewrite app_nil_r|].
  destruct (leftmost_splice (Node ra rk rv rl rr)) as (sa & sk & sv & sr & E1 & E2 & _);
    [done|].
  simpl orb. cbv iota. rewrite E1, E2. done.
Qed.

Lemma filter_ne_all key (l : list string) :
  Forall (fun x => x <> key) l -> filter (fun x => x <> key) l = l.
Proof.
  induction 1 as [|x l Hx _ IH]; [done|].
  rewrite filter_cons, decide_True by done. by rewrite IH.
Qed.

Lemma keys_tree_delete new_key handed key cur :
  BST cur ->
  keys (tree_delete new_key handed key cur) = filter (fun x => x <> key) (keys cur).
Proof.
  induction cur as [|a k v l IHl r IHr]; [done|].
  intros (Hl & Hr & Bl & Br). cbn [tree_delete].
  change (keys (Node a k v l r)) with (keys l ++ chars k :: keys r).
  rewrite filter_app, filter_cons.
  destruct (strcmp_cases key (chars k)) as [[E K]|[[E L]|[E L]]].
  - rewrite E. simpl Z.eqb. cbv iota. rewrite keys_replacement.
    rewrite decide_False by (intros H; by apply H).
    rewrite !filter_ne_all; [done| |].
    + eapply Forall_impl; [exact Hr|]. intros x Hx. subst key.
      intros ->. exact (klt_irrefl _ Hx).
    + eapply Forall_impl; [exact Hl|]. intros x Hx. subst key.
      intros ->. exact (klt_irrefl _ Hx).
  - replace (strcmp key (chars k) =? 0) with false by lia.
    replace (strcmp key (chars k) <? 0) with true by lia.
    simpl. rewrite IHl by done.
    rewrite decide_True by (intros <-; exact (klt_irrefl _ L)).
    rewrite (filter_ne_all key (keys r)); [done|].
    eapply Forall_impl; [exact Hr|]. intros x Hx ->.
    exact (klt_asym _ _ L Hx).
  - replace (strcmp key (chars k) =? 0) with false by lia.
    replace (strcmp key (chars k) <? 0) with false by lia.
    simpl. rewrite IHr by done.
    rewrite decide_True by (intros <-; exact (klt_irrefl _ L)).
    rewrite (filter_ne_all key (keys l)); [done|].
    eapply Forall_impl; [exact Hl|]. intros x Hx ->.
    exact (klt_asym _ _ L Hx).
Qed.

Lemma BST_tree_delete new_key handed key cur :
  BST cur -> BST (tree_delete new_key handed key cur).
Proof.
  intros B. apply BST_sorted. rewrite keys_tree_delete by done.
  apply StronglySorted_filter. by apply BST_sorted.
Qed.

Lemma two_children_iff a k v l r :
  two_children (Node a k v l r) = true <-> l <> NULL /\ r <> NULL.
Proof. destruct l, r; simpl; naive_solver. Qed.

(** ** Searches *)

Lemma seek_absent key n : key ∉ keys n -> seek key n = NULL.
Proof.
  induction n as [|a k v l IHl r IHr]; [done|]. simpl. intros H.
  cmp_cases key (chars k).
  - exfalso. apply H. set_solver.
  - apply IHl. set_solver.
  - apply IHr. set_solver.
Qed.

Lemma seek_key key n a k v l r : seek key n = Node a k v l r -> chars k = key.
Proof.
  induction n as [|a0 k0 v0 l0 IHl r0 IHr]; cbn [seek]; [done|].
  cmp_cases key (chars k0); auto. by intros [= -> -> -> -> ->].
Qed.

Lemma seek_keys key n y : y ∈ keys (seek key n) -> y ∈ keys n.
Proof.
  induction n as [|a k v l IHl r IHr]; cbn [seek]; [done|].
  cmp_cases key (chars k); [done| |]; intros H; cbn [keys]; set_solver.
Qed.

Lemma seek_addrs key n y : y ∈ addrs (seek key n) -> y ∈ addrs n.
Proof.
  induction n as [|a k v l IHl r IHr]; cbn [seek]; [done|].
  cmp_cases key (chars k); [done| |]; intros H; cbn [addrs]; set_solver.
Qed.

Lemma BST_seek key n : BST n -> BST (seek key n).
Proof.
  induction n as [|a k v l IHl r IHr]; [done|].
  intros B. pose proof B as (_ & _ & Bl & Br).
  cbn [seek]. cmp_cases key (chars k); auto.
Qed.

Lemma seek_leftmost n sa sk sv sl sr :
  BST n -> leftmost n = Node sa sk sv sl sr ->
  seek (chars sk) n = Node sa sk sv sl sr.
Proof.
  induction n as [|a k v l IHl r _]; [done|].
  intros (Hl & _ & Bl & _). cbn [leftmost]. destruct l as [|la lk lv ll lr].
  - intros [= -> -> -> -> ->]. cbn [seek].
    by rewrite (proj2 (strcmp_eq (chars sk) (chars sk)) eq_refl).
  - intros E. cbn [seek]. pose proof (leftmost_key_in _ _ _ _ _ _ E) as Hin.
    rewrite Forall_forall in Hl. destruct (klt_tests _ _ (Hl _ Hin)) as [-> ->].
    by apply IHl.
Qed.

(** Inside the subtree that a search for [key] enters, every key compares
    with the ancestors as [key] does. *)
Lemma seek_same_path key y n :
  BST n -> y ∈ keys (seek key n) -> seek y n = seek y (seek key n).
Proof.
  induction n as [|a k v l IHl r IHr]; [done|].
  intros (Hl & Hr & Bl & Br). rewrite Forall_forall in Hl, Hr.
  cbn [seek]. cmp_cases key (chars k); [done| |]; intros Hy.
  - pose proof (seek_keys _ _ _ Hy) as Hy'.
    destruct (klt_tests _ _ (Hl _ Hy')) as [-> ->]. by apply IHl.
  - pose proof (seek_keys _ _ _ Hy) as Hy'.
    destruct (kgt_tests _ _ (Hr _ Hy')) as [-> ->]. by apply IHr.
Qed.

(** Before the delete, a search for the successor's key stops at the
    successor. *)
Lemma seek_successor key n a k v l r sa sk sv sl sr :
  BST n -> seek key n = Node a k v l r ->
  leftmost r = Node sa sk sv sl sr ->
  seek (chars sk) n = Node sa sk sv sl sr.
Proof.
  intros B S E.
  pose proof (leftmost_key_in _ _ _ _ _ _ E) as Hin.
  rewrite (seek_same_path key) by (try done; rewrite S; cbn [keys]; set_solver).
  rewrite S. pose proof (BST_seek key n B) as Bn. rewrite S in Bn.
  destruct Bn as (_ & Hr & _ & Br). rewrite Forall_forall in Hr.
  cbn [seek]. destruct (kgt_tests _ _ (Hr _ Hin)) as [-> ->].
  by apply seek_leftmost.
Qed.

(** After it, the search stops where [key] was found. *)
Lemma seek_tree_delete new_key handed key y n :
  BST n -> seek key n <> NULL -> y ∈ keys (seek key n) -> y <> key ->
  seek y (tree_delete new_key handed key n) =
  seek y (replacement new_key handed (seek key n)).
Proof.
  induction n as [|a k v l IHl r IHr]; [done|].
  intros (Hl & Hr & Bl & Br). rewrite Forall_forall in Hl, Hr.
  cbn [seek tree_delete]. cmp_cases key (chars k); [done| |]; intros S Hy Hne.
  - pose proof (seek_keys _ _ _ Hy) as Hy'. cbn [seek].
    destruct (klt_tests _ _ (Hl _ Hy')) as [-> ->]. by apply IHl.
  - pose proof (seek_keys _ _ _ Hy) as Hy'. cbn [seek].
    destruct (kgt_tests _ _ (Hr _ Hy')) as [-> ->]. by apply IHr.
Qed.

Lemma tree_add_absent a ka key value value' n :
  seek key n = NULL ->
  let n' := tree_add (Node a (Cstr ka key) value' NULL NULL) key value n in
  seek key n' = Node a (Cstr ka key) value' NULL NULL /\
  exists l1 l2 a1 a2,
    keys n = l1 ++ l2 /\ keys n' = l1 ++ key :: l2 /\
    addrs n = a1 ++ a2 /\ addrs n' = a1 ++ a :: a2.
Proof.
  induction n as [|a0 k v l IHl r IHr]; cbn [seek tree_add].
  - intros _. cbn. rewrite (proj2 (strcmp_eq key key) eq_refl). cbn.
    split; [done|]. by exists [], [], [], [].
  - cmp_cases key (chars k); [done| |]; intros S.
    + destruct (IHl S) as (S' & l1 & l2 & a1 & a2 & E1 & E2 & E3 & E4).
      cbn [seek keys addrs]. rewrite B, B0. split; [done|].
      exists l1, (l2 ++ chars k :: keys r), a1, (a2 ++ a0 :: addrs r).
      rewrite E1, E2, E3, E4, <- !app_assoc. done.
    + destruct (IHr S) as (S' & l1 & l2 & a1 & a2 & E1 & E2 & E3 & E4).
      cbn [seek keys addrs]. rewrite B, B0. split; [done|].
      exists (keys l ++ chars k :: l1), l2, (addrs l ++ a0 :: a1), a2.
      rewrite E1, E2, E3, E4, <- !app_assoc. done.
Qed.

Lemma tree_add_present n key value cur a k v l r :
  seek key cur = Node a k v l r ->
  let cur' := tree_add n key value cur in
  seek key cur' = Node a k value l r /\
  keys cur' = keys cur /\ addrs cur' = addrs cur.
Proof.
  induction cur as [|a0 k0 v0 l0 IHl r0 IHr]; cbn [seek tree_add]; [done|].
  cmp_cases key (chars k0).
  - intros [= -> -> -> -> ->]. cbn [seek keys addrs]. rewrite B. done.
  - intros S. destruct (IHl S) as (S' & E1 & E2).
    cbn [seek keys addrs]. rewrite B, B0, E1, E2. done.
  - intros S. destruct (IHr S) as (S' & E1 & E2).
    cbn [seek keys addrs]. rewrite B, B0, E1, E2. done.
Qed.

Lemma addrs_tree_delete new_key handed key n a k v l r sa sk sv sl sr :
  seek key n = Node a k v l r -> l <> NULL -> r <> NULL ->
  leftmost r = Node sa sk sv sl sr ->
  exists a1 a2,
    addrs n = a1 ++ sa :: a2 /\
    addrs (tree_delete new_key handed key n) = a1 ++ a2.
Proof.
  intros S Hl Hr E. revert S.
  induction n as [|a0 k0 v0 l0 IHl r0 IHr]; [done|].
  cbn [seek tree_delete]. cmp_cases key (chars k0).
  - intros [= -> -> -> -> ->]. unfold replacement.
    replace (is_null l || is_null r) with false by (by destruct l, r).
    rewrite E. cbn [addrs].
    destruct (leftmost_splice r Hr) as (sa' & ? & ? & ? & E' & _ & ->).
    rewrite E in E'. injection E' as <- _ _ _ _.
    exists (addrs l ++ [a]), (addrs (splice_min r)). by rewrite <- !app_assoc.
  - intros S. destruct (IHl S) as (a1 & a2 & E1 & E2). cbn [addrs].
    exists a1, (a2 ++ a0 :: addrs r0). by rewrite E1, E2, <- !app_assoc.
  - intros S. destruct (IHr S) as (a1 & a2 & E1 & E2). cbn [addrs].
    exists (addrs l0 ++ a0 :: a1), a2. by rewrite E1, E2, <- !app_assoc.
Qed.

(** ** Rules for calls *)

Lemma post_bind {A B} (c : M A) (k : A -> M B) m Q Bk :
  post c m (fun x m' => post (k x) m' Q Bk) Bk -> post (bind c k) m Q Bk.
Proof. unfold post, bind. by destruct (c m). Qed.

Lemma post_mono {A} (c : M A) m (Q Q' : A -> machine -> Prop) (B B' : machine -> Prop) :
  post c m Q B ->
  (forall x m', Q x m' -> Q' x m') -> (forall m', B m' -> B' m') ->
  post c m Q' B'.
Proof. unfold post. destruct (c m); auto. Qed.

Lemma post_Done {A} (c : M A) m Q B x m' :
  post c m Q B -> c m = Done x m' -> Q x m'.
Proof. unfold post. intros H E. by rewrite E in H. Qed.

Lemma post_returns {A} (c : M A) m Q :
  post c m Q (fun _ => False) -> exists x m', c m = Done x m' /\ Q x m'.
Proof. unfold post. destruct (c m) as [x m'|m']; [eauto|done]. Qed.

Lemma post_final {A} (c : M A) m Q B (P : machine -> Prop) :
  post c m Q B ->
  (forall x m', Q x m' -> P m') -> (forall m', B m' -> P m') ->
  P (final (c m)).
Proof. unfold post. destruct (c m); simpl; eauto. Qed.

Lemma final_bind {A B} (c : M A) (k : A -> M B) m :
  final (bind c k m) =
  match c m with Done x m' => final (k x m') | Blocked m' => m' end.
Proof. unfold bind. by destruct (c m). Qed.

Lemma final_ret_tt {A} (c : M A) m : final ((c ;; ret tt) m) = final (c m).
Proof. rewrite final_bind. by destruct (c m). Qed.

Lemma post_lock a m (Q : unit -> machine -> Prop) (B : machine -> Prop) :
  (a ∉ held m -> Q tt (emit (EvMutexLock a) (set_held ({[a]} ∪ held m) m))) ->
  (a ∈ held m -> B m) ->
  post (pthread_mutex_lock a) m Q B.
Proof. unfold post, pthread_mutex_lock. destruct (decide (a ∈ held m)); auto. Qed.

Lemma post_unlock a m (Q : unit -> machine -> Prop) (B : machine -> Prop) :
  (forall e, log e = log m ++ [EvMutexUnlock a] ->
             root e = root m -> rwlock e = rwlock m -> brk e = brk m ->
             oracle e = oracle m -> held e = held m ∖ {[a]} -> Q tt e) ->
  post (pthread_mutex_unlock a) m Q B.
Proof. intros H. unfold post. simpl. by apply H. Qed.

Lemma post_unlock_if p m (Q : unit -> machine -> Prop) (B : machine -> Prop) :
  (forall e, log e = log m ++ match p with Some a => [EvMutexUnlock a] | None => [] end ->
             root e = root m -> rwlock e = rwlock m -> brk e = brk m ->
             oracle e = oracle m -> held e = held m ∖ optset p -> Q tt e) ->
  post (unlock_if p) m Q B.
Proof.
  intros H. destruct p as [a|]; unfold post; simpl; apply H; simpl; try done.
  - by rewrite app_nil_r.
  - set_solver.
Qed.

Lemma post_wrlock m (Q : unit -> machine -> Prop) (B : machine -> Prop) :
  (rwlock m = Unlocked -> Q tt (emit EvWrLock (set_rwlock WriteLocked m))) ->
  (rwlock m <> Unlocked -> B m) ->
  post pthread_rwlock_wrlock m Q B.
Proof. unfold post, pthread_rwlock_wrlock. destruct (rwlock m); auto. Qed.

Lemma post_wrunlock m (Q : unit -> machine -> Prop) (B : machine -> Prop) :
  rwlock m = WriteLocked ->
  Q tt (emit EvRwUnlock (set_rwlock Unlocked m)) ->
  post pthread_rwlock_unlock m Q B.
Proof. intros E H. unfold post, pthread_rwlock_unlock. by rewrite E. Qed.

Lemma post_free a m (Q : unit -> machine -> Prop) (B : machine -> Prop) :
  (forall e, log e = log m ++ [EvFree a] ->
             root e = root m -> rwlock e = rwlock m -> brk e = brk m ->
             oracle e = oracle m -> held e = held m -> Q tt e) ->
  post (free a) m Q B.
Proof. intros H. unfold post. simpl. by apply H. Qed.

Lemma post_node_free a k v l r m (Q : unit -> machine -> Prop) (B : machine -> Prop) :
  (forall e, log e = log m ++ [EvMutexDestroy a; EvFree (caddr k); EvFree a] ->
             root e = root m -> rwlock e = rwlock m -> brk e = brk m ->
             oracle e = oracle m -> held e = held m -> Q tt e) ->
  post (node_free (Node a k v l r) None) m Q B.
Proof.
  intros H. unfold post. simpl. apply H; simpl; try done.
  by rewrite <- !app_assoc.
Qed.

Lemma frees_app l1 l2 : frees (l1 ++ l2) = frees l1 ++ frees l2.
Proof. apply omap_app. Qed.

Lemma calls_app l1 l2 : calls (l1 ++ l2) = calls l1 ++ calls l2.
Proof. apply omap_app. Qed.

Ltac frees_tac :=
  rewrite ?frees_app; unfold frees; cbn;
  rewrite ?app_nil_r, <- ?app_assoc; try done.

Ltac log_tac :=
  repeat match goal with
         | H : log ?e = _ |- context [log ?e] => rewrite H
         | H : frees (log ?e) = _ |- context [frees (log ?e)] => rewrite H
         | |- _ => rewrite frees_app
         end;
  frees_tac.

(** ** The allocator *)

Lemma node_new_spec key value m :
  post (node_new key value) m
    (fun n m' =>
       root m' = root m /\ rwlock m' = rwlock m /\ held m' = held m /\
       ((n = None /\ ~ node_new_ok m) \/
        (n = Some (new_node m key value) /\ node_new_ok m)))
    (fun _ => False).
Proof.
  unfold post, node_new, node_new_ok, new_node, calloc, strdup, pthread_mutex_init,
    bind, consult, fresh, free, ret.
  destruct m as [rt rw h b o lg]. simpl.
  destruct o as [|[] [|[] [|[] o]]]; simpl;
    repeat split; try done;
    try (right; split; [done|]; repeat constructor);
    left; (split; [done|]); intros H;
    repeat match goal with
           | H : Forall _ (_ :: _) |- _ => apply Forall_cons in H as [? H]
           end; done.
Qed.

Lemma strdup_spec s m :
  post (strdup s) m
    (fun r m' =>
       root m' = root m /\ rwlock m' = rwlock m /\ held m' = held m /\
       frees (log m') = frees (log m) /\
       ((r = None /\ ~ strdup_ok m) \/ (r = Some (Cstr (brk m) s) /\ strdup_ok m)))
    (fun _ => False).
Proof.
  unfold post, strdup, strdup_ok, bind, consult, fresh, ret.
  destruct m as [rt rw h b o lg]. simpl.
  destruct o as [|[] o]; simpl; rewrite ?frees_app; simpl; rewrite ?app_nil_r;
    repeat split; try done; try (by right); left; split; [done|]; by intros H.
Qed.

(** ** [bt_lookup] *)

Lemma lookup_loop_spec key cur m :
  post (lookup_loop key cur) m
    (fun found m' =>
       found = value_of (seek key cur) /\
       root m' = root m /\ rwlock m' = rwlock m /\ held m' = held m /\
       brk m' = brk m /\ oracle m' = oracle m /\ frees (log m') = frees (log m) /\
       calls (log m') = calls (log m))
    (fun m' => exists x, x ∈ addrs cur /\ x ∈ held m).
Proof.
  revert m. induction cur as [|a k v l IHl r IHr]; intros m.
  - unfold post. simpl. done.
  - cbn [lookup_loop seek]. apply post_bind, post_lock.
    2:{ intros H. exists a. split; [|done]. set_solver. }
    intros Ha. cmp_cases key (chars k).
    + unfold post. simpl. repeat split; try done; try set_solver.
      all: unfold frees, calls; by rewrite !omap_app, !app_nil_r.
    + apply post_bind. unfold post at 1. cbn [pthread_mutex_unlock].
      eapply post_mono; [apply IHl| |].
      * simpl. intros found m' (-> & -> & -> & -> & -> & -> & -> & ->).
        repeat split; try done; try set_solver.
        all: unfold frees, calls; by rewrite !omap_app, !app_nil_r.
      * simpl. intros m' (x & Hx & Hh). exists x. split; set_solver.
    + apply post_bind. unfold post at 1. cbn [pthread_mutex_unlock].
      eapply post_mono; [apply IHr| |].
      * simpl. intros found m' (-> & -> & -> & -> & -> & -> & -> & ->).
        repeat split; try done; try set_solver.
        all: unfold frees, calls; by rewrite !omap_app, !app_nil_r.
      * simpl. intros m' (x & Hx & Hh). exists x. split; set_solver.
Qed.

Lemma bt_lookup_spec h key value_out m :
  post (bt_lookup (Some h) (Some key) value_out) m
    (bt_lookup_post key value_out m)
    (fun m' => rwlock m = WriteLocked \/ exists x, x ∈ addrs (root m) /\ x ∈ held m).
Proof.
  unfold bt_lookup, bt_lookup_post. apply post_bind.
  destruct (rwlock m) as [|n|] eqn:W.
  3:{ unfold post, pthread_rwlock_rdlock. rewrite W. by left. }
  all: unfold post at 1, pthread_rwlock_rdlock; rewrite W.
  all: apply post_bind; unfold post at 1; cbn [get_root].
  all: apply post_bind; eapply post_mono; [apply lookup_loop_spec| |].
  all: try (simpl; intros m' H; by right).
  all: simpl; intros found m1 (-> & R1 & W1 & H1 & B1 & O1 & F1 & C1).
  all: apply post_bind; unfold post at 1, pthread_rwlock_unlock; rewrite W1.
  all: destruct (value_of (seek key (root m))); unfold post; simpl.
  all: repeat split; try done.
  all: try (rewrite frees_app, F1; log_tac).
  all: rewrite calls_app, C1, !calls_app; unfold calls; cbn; by rewrite ?app_nil_r.
Qed.

(** ** [bt_add] *)

Lemma clear_below_step a k v l r m :
  clear_below (Node a k v l r) m ->
  forall n m', (n = l \/ n = r) ->
    (forall x, x ∈ held m' -> x ∈ held m \/ x ∈ mtx n) ->
    clear_below n m'.
Proof.
  intros [ND Hb] n m' Hn Hh. simpl in ND, Hb.
  apply NoDup_app in ND as (NDl & Hlr & NDr). apply NoDup_cons in NDr as [Har NDr].
  assert (NoDup (addrs n)) as NDn by (by destruct Hn as [->| ->]).
  split; [done|].
  intros x Hx Hin. destruct (Hh x Hin) as [H|H].
  - apply (Hb x); [|done].
    destruct n as [|na nk nv nl nr]; [by apply elem_of_nil in Hx|].
    simpl in Hx. destruct Hn as [<-|<-]; simpl; set_solver.
  - destruct n as [|na nk nv nl nr]; [by apply elem_of_nil in Hx|].
    simpl in *. apply elem_of_singleton in H as ->.
    apply NoDup_app in NDn as (_ & Hn1 & Hn2). apply NoDup_cons in Hn2 as [Hn2 _].
    apply elem_of_app in Hx as [Hx|Hx]; [|done].
    apply (Hn1 _ Hx). set_solver.
Qed.

Lemma clear_below_root m a k v l r :
  root m = Node a k v l r ->
  NoDup (addrs (root m)) ->
  (forall x, x ∈ addrs (root m) -> x ∉ held m) ->
  clear_below (Node a k v l r)
    (emit (EvMutexLock a) (set_held ({[a]} ∪ held m) (emit EvWrLock (set_rwlock WriteLocked m)))).
Proof.
  intros R ND Hh. rewrite R in ND, Hh. split; [done|]. simpl.
  intros x Hx [->%elem_of_singleton|Hi]%elem_of_union.
  - simpl in ND.
    apply NoDup_app in ND as (_ & N1 & N2). apply NoDup_cons in N2 as [N2 _].
    apply elem_of_app in Hx as [Hx|Hx]; [|done]. apply (N1 _ Hx). set_solver.
  - apply (Hh x); [|done]. simpl. set_solver.
Qed.

Lemma add_loop_spec key value parent cur m :
  cur <> NULL ->
  post (add_loop key value parent cur) m
    (add_post key value parent cur m)
    (fun m' => root m' = root m /\ ~ clear_below cur m).
Proof.
  revert parent m. induction cur as [|a k v l IHl r IHr]; intros parent m; [done|].
  intros _. cbn [add_loop]. unfold add_post. cbn [seek tree_add mtx].
  cmp_cases key (chars k).
  - unfold post. simpl. repeat split; try done. right. left. done.
  - destruct l as [|la lk lv ll lr].
    + apply post_bind. eapply post_mono; [apply node_new_spec| |done].
      intros n m1 (R1 & W1 & H1 & [[-> N]|[-> N]]).
      * unfold post. simpl. rewrite R1, W1, H1. repeat split; try done.
        left. done.
      * unfold post. simpl. rewrite R1, W1, H1. repeat split; try done.
        right. right. done.
    + apply post_bind, post_lock.
      2:{ intros H. split; [done|]. intros [_ Hb]. apply (Hb la); [|done].
          simpl. set_solver. }
      intros Hla. apply post_bind, post_unlock_if.
      intros e _ Re We Be Oe He. apply post_bind.
      eapply post_mono; [apply IHl; done| |].
      * intros [[rc p'] next] m1 (R1 & W1 & H1 & C). unfold post. simpl.
        rewrite R1, W1, Re, We. simpl. repeat split; try done.
        { rewrite H1, He. simpl. set_solver. }
        assert (new_node e key value = new_node m key value) as <-.
        { unfold new_node. by rewrite Be. }
        assert (node_new_ok e <-> node_new_ok m) as <-.
        { unfold node_new_ok. by rewrite Oe. }
        destruct C as [(-> & -> & S & N)|[(-> & S & ->)|(-> & S & N & ->)]];
          [left|right; left|right; right]; done.
      * intros m' [R1 C]. rewrite R1, Re. split; [done|]. intros Hc. apply C.
        eapply clear_below_step; [exact Hc|by left|].
        intros x. rewrite He. simpl. set_solver.
  - destruct r as [|ra rk rv rl rr].
    + apply post_bind. eapply post_mono; [apply node_new_spec| |done].
      intros n m1 (R1 & W1 & H1 & [[-> N]|[-> N]]).
      * unfold post. simpl. rewrite R1, W1, H1. repeat split; try done.
        left. done.
      * unfold post. simpl. rewrite R1, W1, H1. repeat split; try done.
        right. right. done.
    + apply post_bind, post_lock.
      2:{ intros H. split; [done|]. intros [_ Hb]. apply (Hb ra); [|done].
          simpl. set_solver. }
      intros Hra. apply post_bind, post_unlock_if.
      intros e _ Re We Be Oe He. apply post_bind.
      eapply post_mono; [apply IHr; done| |].
      * intros [[rc p'] next] m1 (R1 & W1 & H1 & C). unfold post. simpl.
        rewrite R1, W1, Re, We. simpl. repeat split; try done.
        { rewrite H1, He. simpl. set_solver. }
        assert (new_node e key value = new_node m key value) as <-.
        { unfold new_node. by rewrite Be. }
        assert (node_new_ok e <-> node_new_ok m) as <-.
        { unfold node_new_ok. by rewrite Oe. }
        destruct C as [(-> & -> & S & N)|[(-> & S & ->)|(-> & S & N & ->)]];
          [left|right; left|right; right]; done.
      * intros m' [R1 C]. rewrite R1, Re. split; [done|]. intros Hc. apply C.
        eapply clear_below_step; [exact Hc|by right|].
        intros x. rewrite He. simpl. set_solver.
Qed.

Lemma bt_add_spec h key value m :
  post (bt_add (Some h) (Some key) value) m
    (bt_add_post key value m)
    (fun m' => root m' = root m /\ ~ calm m).
Proof.
  unfold bt_add, bt_add_post. apply post_bind, post_wrlock.
  2:{ intros H. split; [done|]. by intros [? _]. }
  intros W. apply post_bind. unfold post at 1. cbn [get_root emit set_rwlock root].
  destruct (root m) as [|a k v l r] eqn:R.
  - apply post_bind, post_bind.
    eapply post_mono; [apply node_new_spec| |done].
    unfold node_new_ok, new_node. simpl. rewrite R.
    intros n m1 (R1 & W1 & H1 & [[-> N]|[-> N]]).
    + unfold post at 1. simpl. apply post_bind, post_wrunlock; [done|].
      unfold post. simpl. rewrite R1, H1. repeat split; try done. left. done.
    + apply post_bind. unfold post at 1. simpl. unfold post at 1. simpl.
      apply post_bind, post_wrunlock; [done|].
      unfold post. simpl. rewrite H1. repeat split; try done. right. right. done.
  - apply post_bind, post_bind, post_lock.
    2:{ intros H. simpl. split; [done|]. intros (_ & _ & Hh). apply (Hh a); [|done].
        rewrite R. simpl. set_solver. }
    intros Ha. apply post_bind.
    eapply post_mono; [apply add_loop_spec; done| |].
    + intros [[rc p'] cur'] m1 (R1 & W1 & H1 & C). apply post_bind.
      unfold post at 1. cbn [set_root]. apply post_bind, post_unlock_if.
      intros e _ Re We Be Oe He. unfold post at 1. simpl in *.
      apply post_bind, post_wrunlock; [congruence|].
      unfold post. simpl. repeat split; try done.
      { rewrite He, H1. set_solver. }
      rewrite Re. unfold node_new_ok, new_node in *. simpl in *.
      destruct C as [(-> & -> & S & N)|[(-> & S & ->)|(-> & S & N & ->)]];
        [left|right; left|right; right]; done.
    + simpl. intros m' [-> C]. split; [done|]. intros (_ & ND & Hh). apply C.
      rewrite R in ND, Hh. split; [done|]. simpl.
      intros x Hx [->%elem_of_singleton|Hi]%elem_of_union.
      * simpl in ND.
        apply NoDup_app in ND as (_ & N1 & N2). apply NoDup_cons in N2 as [N2 _].
        apply elem_of_app in Hx as [Hx|Hx]; [|done]. apply (N1 _ Hx). set_solver.
      * apply (Hh x); [|done]. simpl. set_solver.
Qed.

(** ** [bt_delete] *)

Lemma find_min_loop_spec parent cur m :
  cur <> NULL ->
  post (find_min_loop parent cur) m
    (fun res m' =>
       let '(sp, succ) := res in
       succ = leftmost cur /\
       root m' = root m /\ rwlock m' = rwlock m /\ brk m' = brk m /\
       oracle m' = oracle m /\ frees (log m') = frees (log m) /\
       held m' ∖ {[sp]} ∖ mtx succ = held m ∖ {[parent]} ∖ mtx cur)
    (fun m' => root m' = root m /\ ~ clear_below cur m).
Proof.
  revert parent m. induction cur as [|a k v l IHl r _]; intros parent m; [done|].
  intros _. cbn [find_min_loop leftmost]. destruct l as [|la lk lv ll lr].
  - unfold post. simpl. done.
  - apply post_bind, post_lock.
    2:{ intros H. split; [done|]. intros [_ Hb]. apply (Hb la); [|done].
        simpl. set_solver. }
    intros Hla. apply post_bind. unfold post at 1. cbn [pthread_mutex_unlock].
    eapply post_mono; [apply IHl; done| |].
    + intros [sp succ] m1. simpl. intros (-> & -> & -> & -> & -> & F & H).
      repeat split; try done.
      * rewrite F, !frees_app. simpl. by rewrite !app_nil_r.
      * rewrite H. set_solver.
    + simpl. intros m' [-> C]. split; [done|]. intros Hc. apply C.
      eapply clear_below_step; [exact Hc|by left|].
      intros x. simpl. set_solver.
Qed.

Lemma find_min_locked_spec a k v l r m :
  r <> NULL ->
  post (find_min_locked (Node a k v l r)) m
    (fun res m' =>
       let '(sp, succ) := res in
       succ = leftmost r /\
       root m' = root m /\ rwlock m' = rwlock m /\ brk m' = brk m /\
       oracle m' = oracle m /\ frees (log m') = frees (log m) /\
       held m' ∖ {[sp]} ∖ mtx succ = held m ∖ {[a]})
    (fun m' => root m' = root m /\ ~ clear_below (Node a k v l r) m).
Proof.
  intros Hr. destruct r as [|ra rk rv rl rr]; [done|]. cbn [find_min_locked].
  apply post_bind, post_lock.
  2:{ intros H. split; [done|]. intros [_ Hb]. apply (Hb ra); [|done].
      simpl. set_solver. }
  intros Hra. eapply post_mono; [apply find_min_loop_spec; done| |].
  - intros [sp succ] m1. simpl. intros (-> & -> & -> & -> & -> & F & H).
    repeat split; try done.
    + rewrite F, !frees_app. simpl. by rewrite !app_nil_r.
    + rewrite H. set_solver.
  - simpl. intros m' [-> C]. split; [done|]. intros Hc. apply C.
    eapply clear_below_step; [exact Hc|by right|].
    intros x. simpl. set_solver.
Qed.

Lemma delete_found_spec old_value parent a k v l r m :
  post (delete_found old_value parent (Node a k v l r)) m
    (found_post old_value parent (Node a k v l r) m)
    (fun m' => root m' = root m /\ ~ clear_below (Node a k v l r) m).
Proof.
  unfold delete_found, found_post, handed_out, released_blocks, replacement.
  cbn [two_children mtx]. destruct (is_null l || is_null r) eqn:C; cbn [negb].
  - apply post_bind, post_unlock. intros e1 L1 R1 W1 B1 O1 H1.
    apply post_bind, post_unlock_if. intros e2 L2 R2 W2 B2 O2 H2.
    apply post_bind, post_node_free. intros e3 L3 R3 W3 B3 O3 H3.
    unfold post. cbn [ret]. split; [congruence|]. split; [congruence|].
    split; [by rewrite H3, H2, H1|].
    right. repeat split; try done. destruct parent; log_tac.
  - apply orb_false_elim in C as [Cl Cr].
    assert (r <> NULL) as Hr by (by destruct r).
    apply post_bind. eapply post_mono; [by apply find_min_locked_spec| |done].
    intros [sp succ] m1 (-> & R1 & W1 & B1 & O1 & F1 & H1).
    destruct (leftmost_splice r Hr) as (sa & sk & sv & sr & E & _).
    rewrite E in *. cbn [mtx] in H1.
    apply post_bind. eapply post_mono; [apply strdup_spec| |done].
    intros nk m2 (R2 & W2 & H2 & F2 & [[-> N]|[-> N]]).
    + apply post_bind, post_unlock. intros e3 L3 R3 W3 B3 O3 H3.
      apply post_bind, post_unlock. intros e4 L4 R4 W4 B4 O4 H4.
      apply post_bind, post_unlock. intros e5 L5 R5 W5 B5 O5 H5.
      apply post_bind, post_unlock_if. intros e6 L6 R6 W6 B6 O6 H6.
      unfold post. cbn [ret]. split; [congruence|]. split; [congruence|].
      split; [rewrite H6, H5, H4, H3, H2; set_solver|].
      left. unfold strdup_ok in *. rewrite O1 in N. done.
    + apply post_bind, post_free. intros e0 L0 R0 W0 B0 O0 H0.
      destruct old_value as [x|]; cbn [option_map supplied].
      all: apply post_bind, post_unlock; intros e3 L3 R3 W3 B3 O3 H3.
      all: apply post_bind, post_unlock; intros e4 L4 R4 W4 B4 O4 H4.
      all: apply post_bind, post_unlock; intros e5 L5 R5 W5 B5 O5 H5.
      all: apply post_bind, post_unlock_if; intros e6 L6 R6 W6 B6 O6 H6.
      all: apply post_bind, post_node_free; intros e7 L7 R7 W7 B7 O7 H7.
      all: unfold post; cbn [ret]; split; [congruence|]; split; [congruence|].
      all: split; [rewrite H7, H6, H5, H4, H3, H0, H2; set_solver|].
      all: right; unfold strdup_ok in *; rewrite O1 in N.
      all: repeat split; try done; try congruence.
      all: destruct parent; log_tac.
Qed.

Lemma delete_loop_spec key old_value parent cur m :
  cur <> NULL ->
  post (delete_loop key old_value parent cur) m
    (delete_post key old_value parent cur m)
    (fun m' => root m' = root m /\ ~ clear_below cur m).
Proof.
  revert parent m. induction cur as [|a k v l IHl r IHr]; intros parent m; [done|].
  intros _. cbn [delete_loop]. unfold delete_post. cbn [seek tree_delete].
  cmp_cases key (chars k).
  - eapply post_mono; [apply delete_found_spec| |done].
    intros [[result out] cur'] m1 (R1 & W1 & H1 & C).
    split; [done|]. split; [done|].
    destruct C as [(-> & T & N & -> & ->)|(-> & T & -> & -> & F)].
    + right. left. done.
    + right. right. done.
  - destruct l as [|la lk lv ll lr].
    + apply post_bind, post_unlock. intros e1 L1 R1 W1 B1 O1 H1.
      unfold post. cbn [ret]. repeat split; try done. left.
      repeat split; try done. log_tac.
    + apply post_bind, post_lock.
      2:{ intros H. split; [done|]. intros [_ Hb]. apply (Hb la); [|done].
          simpl. set_solver. }
      intros Hla. apply post_bind, post_unlock_if.
      intros e Le Re We Be Oe He. simpl in Le, Re, We, Be, Oe, He.
      apply post_bind. eapply post_mono; [apply IHl; done| |].
      * intros [[result out] next] m1 (R1 & W1 & C). unfold post. cbn [ret].
        split; [congruence|]. split; [congruence|].
        assert (strdup_ok e <-> strdup_ok m) as S by (unfold strdup_ok; by rewrite Oe).
        rewrite S, Be in C.
        assert (frees (log e) = frees (log m)) as F by (destruct parent; log_tac).
        rewrite F in C.
        destruct C as [(-> & S1 & -> & -> & F1)|
                       [(-> & T & N & -> & -> & H1)|(-> & S1 & T & -> & -> & F1 & H1)]].
        { left. done. }
        { right. left. repeat split; try done. rewrite H1, He. cbn [mtx]. set_solver. }
        { right. right. repeat split; try done. rewrite H1, He. cbn [mtx]. set_solver. }
      * intros m' [R1 C]. split; [congruence|]. intros Hc. apply C.
        eapply clear_below_step; [exact Hc|by left|].
        intros x. rewrite He. simpl. set_solver.
  - destruct r as [|ra rk rv rl rr].
    + apply post_bind, post_unlock. intros e1 L1 R1 W1 B1 O1 H1.
      unfold post. cbn [ret]. repeat split; try done. left.
      repeat split; try done. log_tac.
    + apply post_bind, post_lock.
      2:{ intros H. split; [done|]. intros [_ Hb]. apply (Hb ra); [|done].
          simpl. set_solver. }
      intros Hra. apply post_bind, post_unlock_if.
      intros e Le Re We Be Oe He. simpl in Le, Re, We, Be, Oe, He.
      apply post_bind. eapply post_mono; [apply IHr; done| |].
      * intros [[result out] next] m1 (R1 & W1 & C). unfold post. cbn [ret].
        split; [congruence|]. split; [congruence|].
        assert (strdup_ok e <-> strdup_ok m) as S by (unfold strdup_ok; by rewrite Oe).
        rewrite S, Be in C.
        assert (frees (log e) = frees (log m)) as F by (destruct parent; log_tac).
        rewrite F in C.
        destruct C as [(-> & S1 & -> & -> & F1)|
                       [(-> & T & N & -> & -> & H1)|(-> & S1 & T & -> & -> & F1 & H1)]].
        { left. done. }
        { right. left. repeat split; try done. rewrite H1, He. cbn [mtx]. set_solver. }
        { right. right. repeat split; try done. rewrite H1, He. cbn [mtx]. set_solver. }
      * intros m' [R1 C]. split; [congruence|]. intros Hc. apply C.
        eapply clear_below_step; [exact Hc|by right|].
        intros x. rewrite He. simpl. set_solver.
Qed.

Lemma bt_delete_spec h key old_value m :
  post (bt_delete (Some h) (Some key) old_value) m
    (bt_delete_post key old_value m)
    (fun m' => root m' = root m /\ ~ calm m).
Proof.
  unfold bt_delete, bt_delete_post. apply post_bind, post_wrlock.
  2:{ intros H. split; [done|]. by intros [? _]. }
  intros W. apply post_bind. unfold post at 1. cbn [get_root emit set_rwlock root].
  destruct (root m) as [|a k v l r] eqn:R.
  - apply post_bind. unfold post at 1. cbn [ret].
    apply post_bind, post_wrunlock; [done|].
    unfold post. simpl. repeat split; try done. left. repeat split; try done.
    log_tac.
  - apply post_bind, post_bind, post_lock.
    2:{ intros H. simpl. split; [done|]. intros (_ & _ & Hh). apply (Hh a); [|done].
        rewrite R. simpl. set_solver. }
    intros Ha. apply post_bind.
    eapply post_mono; [apply delete_loop_spec; done| |].
    + intros [[result out] cur'] m1 (R1 & W1 & C). apply post_bind.
      unfold post at 1. cbn [set_root]. unfold post at 1. cbn [ret].
      apply post_bind, post_wrunlock; [by rewrite W1|].
      unfold post. simpl in *. repeat split; try done.
      unfold strdup_ok in *. simpl in C.
      assert (frees (log m ++ [EvWrLock] ++ [EvMutexLock a]) = frees (log m)) as F
        by log_tac.
      rewrite app_assoc in F. rewrite F in C. rewrite !frees_app. clear F.
      destruct C as [(-> & S1 & -> & -> & F1)|
                     [(-> & T & N & -> & -> & H1)|(-> & S1 & T & -> & -> & F1 & H1)]].
      * left. repeat split; try done. rewrite F1. log_tac.
      * right. left. repeat split; try done. rewrite H1. set_solver.
      * right. right. repeat split; try done.
        -- rewrite F1. log_tac.
        -- rewrite H1. set_solver.
    + simpl. intros m' [-> C]. split; [done|]. intros (_ & ND & Hh). apply C.
      by apply clear_below_root.
Qed.

(** ** [bt_destroy] *)

Lemma postorder_nodes n : postorder n ≡ₚ nodes n.
Proof.
  induction n as [|a k v l IHl r IHr]; [done|]. simpl.
  rewrite IHl, IHr. apply Permutation_app_head. symmetry.
  apply Permutation_cons_append.
Qed.

Lemma calls_teardown free_value n :
  calls (teardown free_value n) =
  match free_value with
  | Some f => (fun x => (f, x.2)) <$> postorder n
  | None => []
  end.
Proof.
  induction n as [|a k v l IHl r IHr]; [by destruct free_value|].
  simpl. rewrite !calls_app, IHl, IHr.
  destruct free_value as [f|]; [|done].
  by rewrite !fmap_app.
Qed.

Lemma frees_teardown free_value n :
  frees (teardown free_value n) = postorder n ≫= (fun x => [x.1.2; x.1.1]).
Proof.
  induction n as [|a k v l IHl r IHr]; [done|].
  simpl. rewrite !frees_app, IHl, IHr, !bind_app.
  by destruct free_value.
Qed.

Lemma node_free_recursive_spec n free_value m :
  post (node_free_recursive n free_value) m
    (fun _ m' =>
       root m' = root m /\ rwlock m' = rwlock m /\ held m' = held m /\
       brk m' = brk m /\ oracle m' = oracle m /\
       log m' = log m ++ teardown free_value n)
    (fun _ => False).
Proof.
  revert m. induction n as [|a k v l IHl r IHr]; intros m.
  - unfold post. simpl. by rewrite app_nil_r.
  - cbn [node_free_recursive]. apply post_bind.
    eapply post_mono; [apply IHl| |done].
    intros _ m1 (R1 & W1 & H1 & B1 & O1 & L1). apply post_bind.
    eapply post_mono; [apply IHr| |done].
    intros _ m2 (R2 & W2 & H2 & B2 & O2 & L2).
    unfold post. destruct free_value as [f|]; simpl.
    all: repeat split; try congruence.
    all: rewrite L2, L1; by rewrite <- !app_assoc.
Qed.

(** ** Calls that are not blocked *)

(** Under [calm], an operation is not blocked. *)
Lemma post_calm {A} (c : M A) m Q :
  calm m ->
  post c m Q (fun m' => root m' = root m /\ ~ calm m) ->
  exists x m', c m = Done x m' /\ Q x m'.
Proof.
  intros Hc H. apply post_returns. eapply post_mono; [exact H|done|].
  by intros m' [_ ?].
Qed.

Lemma settled_calm m : settled m -> calm m.
Proof.
  intros (W & H & ND & _). repeat split; try done. intros x _. rewrite H. set_solver.
Qed.

(** ** The properties of the specification *)

(** *** The round trip of the demo *)

(** C1 (the code departs from it).  On the round-trip sequence the lookup
    of "c" finds "charlie", the later lookup of "b" finds nothing and the
    keys in order are "a","c","d","e"; but the delete of "b", whose node
    has the two children "a" and "c", returns status 0 with the value
    "charlie" of the successor in [*old_value], not "bravo", and "bravo"
    stays in the tree under the key "c". *)
Theorem round_trip_hands_out_successor_value :
  exists m,
    round_trip boot =
      Done ((true, Some (Lit "charlie")),
            (0, Some (Lit "charlie")),
            (false, Some NULLptr)) m /\
    keys (root m) = ["a"; "c"; "d"; "e"] /\
    value_of (seek "c" (root m)) = Some (Lit "bravo") /\
    held m = ∅ /\ rwlock m = Unlocked.
Proof. eexists. split; [vm_compute; reflexivity|]. by vm_compute. Qed.

(** What the demo prints. *)
Lemma main_output :
  prints (log (final (main boot))) =
    [("c -> charlie" ++ newline)%string;
     ("deleted b (old value: charlie)" ++ newline)%string].
Proof. by vm_compute. Qed.

(** *** Delete of a node with two children *)

(** What [bt_delete] does at a node with two children. *)
Lemma delete_two_children h key old_value m a k v l r :
  calm m -> BST (root m) -> strdup_ok m ->
  seek key (root m) = Node a k v l r -> l <> NULL -> r <> NULL ->
  exists m' sa sk sv sr,
    leftmost r = Node sa sk sv NULL sr /\
    seek (chars sk) (root m) = Node sa sk sv NULL sr /\
    bt_delete (Some h) (Some key) old_value m =
      Done (0, option_map (fun _ => sv) old_value) m' /\
    root m' = tree_delete (brk m) (supplied old_value) key (root m) /\
    seek (chars sk) (root m') =
      Node a (Cstr (brk m) (chars sk)) (if supplied old_value then v else sv)
           l (splice_min r) /\
    frees (log m') = frees (log m) ++ [caddr k; caddr sk; sa] /\
    (exists a1 a2, addrs (root m) = a1 ++ sa :: a2 /\ addrs (root m') = a1 ++ a2) /\
    calm m'.
Proof.
  intros Hc B Ok S Hl Hr.
  destruct (leftmost_splice r Hr) as (sa & sk & sv & sr & E & _).
  assert (two_children (Node a k v l r) = true) as T by (by apply two_children_iff).
  destruct (post_calm _ _ _ Hc (bt_delete_spec h key old_value m))
    as ([result out] & m' & Ed & _ & W' & C).
  rewrite S in C.
  destruct C as [(_ & ? & _)|[(_ & _ & N & _)|(-> & _ & _ & R & -> & F & H)]];
    [done..|].
  assert (handed_out (Node a k v l r) = sv) as Eh.
  { unfold handed_out. rewrite T, E. done. }
  rewrite Eh in Ed.
  assert (released_blocks (Node a k v l r) = [caddr k; caddr sk; sa]) as Er.
  { unfold released_blocks. rewrite T, E. done. }
  rewrite Er in F.
  destruct (addrs_tree_delete (brk m) (supplied old_value) key (root m)
              _ _ _ _ _ _ _ _ _ _ S Hl Hr E) as (a1 & a2 & A1 & A2).
  rewrite <- R in A2.
  pose proof (leftmost_key_in _ _ _ _ _ _ E) as Hin.
  pose proof (BST_seek key _ B) as Bn. rewrite S in Bn.
  destruct Bn as (_ & Hgt & _ & _). rewrite Forall_forall in Hgt.
  pose proof (seek_key _ _ _ _ _ _ _ S) as Ek.
  exists m', sa, sk, sv, sr. repeat split; try done.
  - by eapply seek_successor.
  - rewrite R, seek_tree_delete; try done.
    + rewrite S. unfold replacement.
      replace (is_null l || is_null r) with false by (by destruct l, r).
      rewrite E. cbn [seek chars].
      by rewrite (proj2 (strcmp_eq (chars sk) (chars sk)) eq_refl).
    + by rewrite S.
    + rewrite S. cbn [keys]. set_solver.
    + intros Heq. specialize (Hgt _ Hin). rewrite Heq, Ek in Hgt.
      exact (klt_irrefl _ Hgt).
  - eauto.
  - destruct Hc as (_ & ND & _). rewrite A2. rewrite A1 in ND.
    apply NoDup_app in ND as (N1 & N12 & N2). apply NoDup_cons in N2 as [_ N2].
    apply NoDup_app. repeat split; try done. intros y Hy Hy2.
    apply (N12 y Hy). set_solver.
  - destruct Hc as (_ & _ & Hh). intros y Hy. rewrite H. apply Hh.
    rewrite A1. rewrite A2 in Hy. set_solver.
Qed.

(** C2.  On a search tree, with no lock in the way and a [strdup] that
    succeeds, [bt_delete] of a key found at a node [a] with two children
    returns 0.  Node [a] stays in the tree at its place with its left
    subtree, takes a fresh copy of the key of its successor (the leftmost
    node [sa] of its right subtree) and has [sa] spliced out of its right
    subtree; the blocks freed are the old key of [a], the key of [sa] and
    the node [sa], and [sa] is no longer in the tree.  The successor's value
    goes to [*old_value] when the caller supplied it, and into node [a]
    when not.  The keys in order are those before the call without the
    deleted key, and the result is a search tree. *)
Theorem delete_two_children_promotes_successor (h : btree_ref) (key : string)
    (old_value : option pointer) (m : machine) (a : addr) (k : cstr)
    (v : pointer) (l r : bt_node) :
  calm m -> BST (root m) -> strdup_ok m ->
  seek key (root m) = Node a k v l r -> l <> NULL -> r <> NULL ->
  exists m' sa sk sv sr,
    leftmost r = Node sa sk sv NULL sr /\
    bt_delete (Some h) (Some key) old_value m =
      Done (0, option_map (fun _ => sv) old_value) m' /\
    seek (chars sk) (root m') =
      Node a (Cstr (brk m) (chars sk)) (if supplied old_value then v else sv)
           l (splice_min r) /\
    frees (log m') = frees (log m) ++ [caddr k; caddr sk; sa] /\
    a ∈ addrs (root m') /\ (sa ∉ addrs (root m')) /\
    keys (root m') = filter (fun y => y <> key) (keys (root m)) /\
    BST (root m').
Proof.
  intros Hc B Ok S Hl Hr.
  destruct (delete_two_children h key old_value m a k v l r Hc B Ok S Hl Hr)
    as (m' & sa & sk & sv & sr & E & _ & Ed & R & S' & F & (a1 & a2 & A1 & A2) & Hc').
  exists m', sa, sk, sv, sr. repeat split; try done.
  - apply (seek_addrs (chars sk)). rewrite S'. cbn [addrs]. set_solver.
  - destruct Hc as (_ & ND & _). rewrite A1 in ND. rewrite A2.
    apply NoDup_app in ND as (_ & N12 & N2). apply NoDup_cons in N2 as [N2 _].
    intros [Hy|Hy]%elem_of_app; [|done]. apply (N12 _ Hy). set_solver.
  - rewrite R. by apply keys_tree_delete.
  - rewrite R. by apply BST_tree_delete.
Qed.

Lemma delete_two_children_promotes_successor_witness :
  exists m' sa sk sv sr,
    leftmost (Node 6%nat (Cstr 7%nat "c") (Lit "charlie") NULL NULL) =
      Node sa sk sv NULL sr /\
    bt_delete (Some the_tree) (Some "b") None populated =
      Done (0, None) m' /\
    seek (chars sk) (root m') =
      Node 2%nat (Cstr (brk populated) (chars sk)) sv
           (Node 4%nat (Cstr 5%nat "a") (Lit "alpha") NULL NULL)
           (splice_min (Node 6%nat (Cstr 7%nat "c") (Lit "charlie") NULL NULL)) /\
    frees (log m') = frees (log populated) ++ [3%nat; caddr sk; sa] /\
    2%nat ∈ addrs (root m') /\ (sa ∉ addrs (root m')) /\
    keys (root m') = filter (fun y => y <> "b") (keys (root populated)) /\
    BST (root m').
Proof.
  apply (delete_two_children_promotes_successor the_tree "b" None populated
           2%nat (Cstr 3%nat "b") (Lit "bravo")
           (Node 4%nat (Cstr 5%nat "a") (Lit "alpha") NULL NULL)
           (Node 6%nat (Cstr 7%nat "c") (Lit "charlie") NULL NULL)).
  - apply (bool_decide_unpack _). by vm_compute.
  - apply (proj2 (BST_sorted (root populated))).
    apply (bool_decide_unpack _). by vm_compute.
  - by vm_compute.
  - by vm_compute.
  - done.
  - done.
Defined.

(** C8.  Under the same conditions and with [old_value] supplied, the
    successor's value (what a lookup of the successor's key found before
    the call) goes to the caller, node [a] keeps the value it had under
    the deleted key while its key becomes the successor's, and a lookup
    of the successor's key after the call returns that old value. *)
Theorem delete_two_children_keeps_node_value (h : btree_ref) (key : string)
    (x y : pointer) (m : machine) (a : addr) (k : cstr) (v : pointer)
    (l r : bt_node) :
  calm m -> BST (root m) -> strdup_ok m ->
  seek key (root m) = Node a k v l r -> l <> NULL -> r <> NULL ->
  exists m0 m' m'' sa sk sv sr,
    leftmost r = Node sa sk sv NULL sr /\
    bt_lookup (Some h) (Some (chars sk)) (Some y) m = Done (true, Some sv) m0 /\
    bt_delete (Some h) (Some key) (Some x) m = Done (0, Some sv) m' /\
    seek (chars sk) (root m') =
      Node a (Cstr (brk m) (chars sk)) v l (splice_min r) /\
    bt_lookup (Some h) (Some (chars sk)) (Some y) m' = Done (true, Some v) m''.
Proof.
  intros Hc B Ok S Hl Hr.
  destruct (delete_two_children h key (Some x) m a k v l r Hc B Ok S Hl Hr)
    as (m' & sa & sk & sv & sr & E & S0 & Ed & R & S' & F & _ & Hc').
  assert (forall m1, calm m1 ->
            post (bt_lookup (Some h) (Some (chars sk)) (Some y)) m1
              (bt_lookup_post (chars sk) (Some y) m1) (fun _ => False)) as L.
  { intros m1 (W1 & _ & H1). eapply post_mono; [apply bt_lookup_spec|done|].
    intros _ [Hw|(z & Hz & Hz')]; [congruence|]. by apply (H1 z). }
  destruct (post_returns _ _ _ (L m Hc)) as (res0 & m0 & E0 & L0).
  destruct (post_returns _ _ _ (L m' Hc')) as (res1 & m'' & E1 & L1).
  unfold bt_lookup_post in L0, L1. rewrite S0 in L0. rewrite S' in L1.
  destruct L0 as (_ & _ & _ & _ & _ & _ & _ & ->).
  destruct L1 as (_ & _ & _ & _ & _ & _ & _ & ->).
  by exists m0, m', m'', sa, sk, sv, sr.
Qed.

Lemma delete_two_children_keeps_node_value_witness :
  exists m0 m' m'' sa sk sv sr,
    leftmost (Node 6%nat (Cstr 7%nat "c") (Lit "charlie") NULL NULL) =
      Node sa sk sv NULL sr /\
    bt_lookup (Some the_tree) (Some (chars sk)) (Some NULLptr) populated =
      Done (true, Some sv) m0 /\
    bt_delete (Some the_tree) (Some "b") (Some NULLptr) populated =
      Done (0, Some sv) m' /\
    seek (chars sk) (root m') =
      Node 2%nat (Cstr (brk populated) (chars sk)) (Lit "bravo")
           (Node 4%nat (Cstr 5%nat "a") (Lit "alpha") NULL NULL)
           (splice_min (Node 6%nat (Cstr 7%nat "c") (Lit "charlie") NULL NULL)) /\
    bt_lookup (Some the_tree) (Some (chars sk)) (Some NULLptr) m' =
      Done (true, Some (Lit "bravo")) m''.
Proof.
  apply (delete_two_children_keeps_node_value the_tree "b" NULLptr NULLptr populated
           2%nat (Cstr 3%nat "b") (Lit "bravo")
           (Node 4%nat (Cstr 5%nat "a") (Lit "alpha") NULL NULL)
           (Node 6%nat (Cstr 7%nat "c") (Lit "charlie") NULL NULL)).
  - apply (bool_decide_unpack _). by vm_compute.
  - apply (proj2 (BST_sorted (root populated))).
    apply (bool_decide_unpack _). by vm_compute.
  - by vm_compute.
  - by vm_compute.
  - done.
  - done.
Defined.

(** *** The invariant along any sequence of writes *)

Lemma step_root h o m :
  root (final (step h o m)) = root m \/
  (exists n key value, root (final (step h o m)) = tree_add n key value (root m) /\
     exists a ka value', n = Node a (Cstr ka key) value' NULL NULL) \/
  (exists new_key handed key,
     root (final (step h o m)) = tree_delete new_key handed key (root m)).
Proof.
  destruct o as [key value|key old_value]; unfold step; rewrite final_ret_tt.
  - destruct h as [h|], key as [key|]; try by left.
    eapply post_final; [apply bt_add_spec| |].
    + intros rc m' (_ & _ & _ & [(_ & R & _)|[(_ & _ & R)|(_ & _ & _ & R)]]).
      * by left.
      * right. left. unfold new_node in R. eauto 10.
      * right. left. unfold new_node in R. eauto 10.
    + intros m' [R _]. by left.
  - destruct h as [h|], key as [key|]; try by left.
    eapply post_final; [apply bt_delete_spec| |].
    + intros [result out] m'
        (_ & _ & [(_ & _ & R & _)|[(_ & _ & _ & R & _)|(_ & _ & _ & R & _)]]).
      * by left.
      * by left.
      * right. right. eauto.
    + intros m' [R _]. by left.
Qed.

Lemma step_BST h o m : BST (root m) -> BST (root (final (step h o m))).
Proof.
  intros B.
  destruct (step_root h o m) as
    [->|[(n & key & value & -> & a & ka & value' & ->)|(nk & hd & key & ->)]].
  - done.
  - by apply BST_tree_add.
  - by apply BST_tree_delete.
Qed.

Lemma run_BST h ops m : BST (root m) -> BST (root (final (run h ops m))).
Proof.
  revert m. induction ops as [|o ops IH]; intros m B; [done|].
  cbn [run]. rewrite final_bind.
  pose proof (step_BST h o m B) as B'.
  destruct (step h o m) as [[] m'|m']; simpl in B'; auto.
Qed.

(** C3.  Whatever inserts and deletes are made on a tree that [bt_init]
    has just emptied (whatever their arguments, whatever the allocator
    answers, whether the calls return or one of them blocks), the tree
    they leave is a binary search tree: at every node the keys on the left
    compare less and those on the right compare greater; equivalently its
    keys in order are strictly increasing. *)
Theorem writes_keep_search_tree (h : btree_ref) (ops : list op) (m : machine) :
  let m' := final ((bt_init (Some h) ;; run (Some h) ops) m) in
  BST (root m') /\ StronglySorted klt (keys (root m')) /\
  (BST (root m') <-> StronglySorted klt (keys (root m'))).
Proof.
  assert (BST (root (final ((bt_init (Some h) ;; run (Some h) ops) m)))) as B.
  { rewrite final_bind. simpl. by apply run_BST. }
  cbv zeta. split; [done|]. split; [by apply BST_sorted|apply BST_sorted].
Qed.

(** *** Insert, then replace *)

(** C4.  On a settled tree that does not hold [k], with an allocator that
    does not fail, a first [bt_add] of [k] returns 0 and makes one node,
    at the block [brk], whose key is a copy of [k] at the next block; a
    second [bt_add] of [k] returns 1 and leaves that node and that key
    block in place with the new value; the tree then holds [k] once and
    [bt_lookup] finds the second value. *)
Theorem insert_twice_replaces (h : btree_ref) (k : string) (v1 v2 x : pointer)
    (m : machine) :
  settled m -> node_new_ok m -> k ∉ keys (root m) ->
  exists m1 m2 m3,
    bt_add (Some h) (Some k) v1 m = Done 0 m1 /\
    bt_add (Some h) (Some k) v2 m1 = Done 1 m2 /\
    bt_lookup (Some h) (Some k) (Some x) m2 = Done (true, Some v2) m3 /\
    seek k (root m1) = Node (brk m) (Cstr (S (brk m)) k) v1 NULL NULL /\
    seek k (root m2) = Node (brk m) (Cstr (S (brk m)) k) v2 NULL NULL /\
    filter (fun y => y = k) (keys (root m2)) = [k].
Proof.
  intros St Ok Hk. pose proof (seek_absent _ _ Hk) as S0.
  destruct St as (W & He & ND & Fr).
  assert (calm m) as Hc by (by apply settled_calm).
  destruct (post_calm _ _ _ Hc (bt_add_spec h k v1 m))
    as (rc & m1 & E1 & _ & W1 & H1 & C1).
  destruct C1 as [(_ & _ & _ & N)|[(_ & N & _)|(-> & _ & _ & R1)]]; [done..|].
  unfold new_node in R1.
  destruct (tree_add_absent (brk m) (S (brk m)) k v1 v1 _ S0)
    as (S1 & l1 & l2 & a1 & a2 & K0 & K1 & A0 & A1).
  rewrite <- R1 in S1, K1, A1.
  assert (calm m1) as Hc1.
  { split; [done|]. split.
    - rewrite A1. rewrite A0 in ND, Fr.
      apply NoDup_app in ND as (N1 & N12 & N2).
      apply Forall_app in Fr as [F1 F2]. rewrite Forall_forall in F1, F2.
      apply NoDup_app. split; [done|]. split.
      + intros y Hy [->|Hy2]%elem_of_cons; [|by apply (N12 y)].
        specialize (F1 _ Hy). lia.
      + apply NoDup_cons. split; [|done]. intros Hy. specialize (F2 _ Hy). lia.
    - intros y _. rewrite H1, He. set_solver. }
  destruct (post_calm _ _ _ Hc1 (bt_add_spec h k v2 m1))
    as (rc & m2 & E2 & _ & W2 & H2 & C2).
  rewrite S1 in C2.
  destruct C2 as [(_ & _ & N & _)|[(-> & _ & R2)|(_ & N & _)]]; [done| |done].
  destruct (tree_add_present (new_node m1 k v2) k v2 _ _ _ _ _ _ S1) as (S2 & K2 & A2).
  rewrite <- R2 in S2, K2, A2.
  assert (post (bt_lookup (Some h) (Some k) (Some x)) m2
            (bt_lookup_post k (Some x) m2) (fun _ => False)) as L.
  { eapply post_mono; [apply bt_lookup_spec|done|].
    intros _ [Hw|(y & _ & Hy)]; [congruence|]. rewrite H2, H1, He in Hy. set_solver. }
  apply post_returns in L as (res & m3 & E3 & L). unfold bt_lookup_post in L.
  rewrite S2 in L. destruct L as (_ & _ & _ & _ & _ & _ & _ & ->).
  exists m1, m2, m3. repeat split; try done.
  rewrite K2, K1, filter_app, filter_cons, decide_True by done.
  assert (forall l : list string, k ∉ l -> filter (fun y => y = k) l = []) as Hf.
  { intros l Hl. induction l as [|y l IH]; [done|].
    rewrite filter_cons, decide_False by set_solver. apply IH. set_solver. }
  rewrite K0 in Hk. rewrite !Hf by set_solver. done.
Qed.

Lemma insert_twice_replaces_witness :
  exists m1 m2 m3,
    bt_add (Some the_tree) (Some "f") (Lit "fox") populated = Done 0 m1 /\
    bt_add (Some the_tree) (Some "f") (Lit "fig") m1 = Done 1 m2 /\
    bt_lookup (Some the_tree) (Some "f") (Some NULLptr) m2 =
      Done (true, Some (Lit "fig")) m3 /\
    seek "f" (root m1) =
      Node (brk populated) (Cstr (S (brk populated)) "f") (Lit "fox") NULL NULL /\
    seek "f" (root m2) =
      Node (brk populated) (Cstr (S (brk populated)) "f") (Lit "fig") NULL NULL /\
    filter (fun y => y = "f") (keys (root m2)) = ["f"].
Proof.
  apply (insert_twice_replaces the_tree "f" (Lit "fox") (Lit "fig") NULLptr populated).
  - apply (bool_decide_unpack _). by vm_compute.
  - by vm_compute.
  - apply (bool_decide_unpack _). by vm_compute.
Defined.

(** *** Allocation failure *)

(** C5.  When [bt_add] or [bt_delete] returns [ENOMEM], the root of the
    tree (hence its shape, keys and values) is the one before the call,
    the node mutexes held are those held before the call, and the tree
    lock, free before the call, is free again. *)
Theorem out_of_memory_leaves_tree_untouched (h : option btree_ref)
    (key : option string) (value : pointer) (old_value : option pointer)
    (m m' : machine) :
  bt_add h key value m = Done ENOMEM m' \/
  (exists out, bt_delete h key old_value m = Done (ENOMEM, out) m') ->
  root m' = root m /\ held m' = held m /\
  rwlock m = Unlocked /\ rwlock m' = Unlocked.
Proof.
  intros [E|[out E]].
  - destruct h as [h|], key as [key|]; try discriminate.
    pose proof (post_Done _ _ _ _ _ _ (bt_add_spec h key value m) E) as H.
    destruct H as (W & W' & H & [(_ & R & _)|[(? & _)|(? & _)]]); done.
  - destruct h as [h|], key as [key|]; try discriminate.
    pose proof (post_Done _ _ _ _ _ _ (bt_delete_spec h key old_value m) E) as H.
    destruct H as (W & W' & [(? & _)|[(_ & _ & _ & R & _ & H)|(? & _)]]); done.
Qed.

Lemma out_of_memory_leaves_tree_untouched_witness :
  root (final (bt_delete t (Some "b") (Some NULLptr) starved)) = root starved /\
  held (final (bt_delete t (Some "b") (Some NULLptr) starved)) = held starved /\
  rwlock starved = Unlocked /\
  rwlock (final (bt_delete t (Some "b") (Some NULLptr) starved)) = Unlocked.
Proof.
  apply (out_of_memory_leaves_tree_untouched t (Some "b") NULLptr (Some NULLptr)).
  right. exists (Some (Lit "bravo")). vm_compute. reflexivity.
Defined.

(** The failure is reported: with no lock in the way, an absent key and a
    [node_new] that fails, [bt_add] returns [ENOMEM]. *)
Lemma bt_add_reports_out_of_memory h key value m :
  calm m -> seek key (root m) = NULL -> ~ node_new_ok m ->
  exists m', bt_add (Some h) (Some key) value m = Done ENOMEM m' /\
             root m' = root m /\ held m' = held m.
Proof.
  intros Hc S N.
  destruct (post_calm _ _ _ Hc (bt_add_spec h key value m))
    as (rc & m' & E & _ & _ & H & C).
  exists m'. destruct C as [(-> & R & _)|[(_ & ? & _)|(_ & _ & ? & _)]]; done.
Qed.

(** C9.  When the search of [bt_delete] stops at a node with two children
    and the [strdup] of the successor's key fails, the call returns
    [ENOMEM], the tree is the one before the call, and the caller's
    [*old_value], whatever it held, now holds the value of the node
    found. *)
Theorem delete_oom_overwrites_old_value (h : btree_ref) (key : string)
    (x : pointer) (m : machine) (a : addr) (k : cstr) (v : pointer)
    (l r : bt_node) (o : list bool) :
  calm m ->
  seek key (root m) = Node a k v l r ->
  l <> NULL -> r <> NULL ->
  oracle m = false :: o ->
  exists m',
    bt_delete (Some h) (Some key) (Some x) m = Done (ENOMEM, Some v) m' /\
    root m' = root m /\ held m' = held m /\ rwlock m' = Unlocked.
Proof.
  intros Hc S Hl Hr O.
  destruct (post_calm _ _ _ Hc (bt_delete_spec h key (Some x) m))
    as ([result out] & m' & E & _ & W & C).
  rewrite S in C. exists m'.
  destruct C as [(_ & ? & _)|[(-> & _ & _ & R & -> & H)|(_ & _ & T & _)]].
  - done.
  - done.
  - exfalso. unfold strdup_ok in T. rewrite O in T.
    by apply T; [apply two_children_iff|].
Qed.

Lemma delete_oom_overwrites_old_value_witness :
  exists m',
    bt_delete (Some the_tree) (Some "b") (Some NULLptr) starved =
      Done (ENOMEM, Some (Lit "bravo")) m' /\
    root m' = root starved /\ held m' = held starved /\ rwlock m' = Unlocked.
Proof.
  apply (delete_oom_overwrites_old_value the_tree "b" NULLptr starved
           2%nat (Cstr 3%nat "b") (Lit "bravo")
           (Node 4%nat (Cstr 5%nat "a") (Lit "alpha") NULL NULL)
           (Node 6%nat (Cstr 7%nat "c") (Lit "charlie") NULL NULL) []).
  - apply (bool_decide_unpack _). by vm_compute.
  - by vm_compute.
  - done.
  - done.
  - done.
Defined.

(** *** Null arguments *)

(** C6, as stated, fails for an empty key: the empty string is a key like
    any other; on a tree just initialised [bt_add] takes the lock, inserts
    it and returns 0, not [EINVAL]. *)
Lemma empty_key_is_inserted :
  exists m0 m,
    bt_init t boot = Done 0 m0 /\
    bt_add t (Some EmptyString) (Lit "x") m0 = Done 0 m /\
    keys (root m) = [EmptyString] /\ root m <> root m0 /\
    log m <> log m0 /\ 0 <> EINVAL.
Proof.
  eexists. eexists. split; [vm_compute; reflexivity|].
  split; [vm_compute; reflexivity|]. by vm_compute.
Qed.

(** C6 (amended).  With a null tree handle or a null key, [bt_init],
    [bt_add] and [bt_delete] return [EINVAL] and [bt_lookup] returns
    false; the machine, log included, is the one before the call: no lock
    was taken and nothing was written, [*value_out] and [*old_value]
    included. *)
Theorem null_arguments_are_rejected (h : option btree_ref) (key : option string)
    (value : pointer) (out : option pointer) (m : machine) :
  bt_init None m = Done EINVAL m /\
  bt_lookup None key out m = Done (false, out) m /\
  bt_lookup h None out m = Done (false, out) m /\
  bt_add None key value m = Done EINVAL m /\
  bt_add h None value m = Done EINVAL m /\
  bt_delete None key out m = Done (EINVAL, out) m /\
  bt_delete h None out m = Done (EINVAL, out) m.
Proof. by destruct h. Qed.

(** *** Teardown *)

(** C7.  On a tree whose lock is free, [bt_destroy] returns and leaves
    the root null.  With a callback [f] the calls of [f] it adds to the log
    are the values of the nodes in post-order, one call per node; without
    a callback it adds none.  The blocks it frees are, node by node in
    post-order, the key and then the node; and the post-order list holds
    every node of the tree exactly once. *)
Theorem destroy_releases_every_node (h : btree_ref) (free_value : option addr)
    (m : machine) :
  rwlock m = Unlocked ->
  exists m',
    bt_destroy (Some h) free_value m = Done tt m' /\
    root m' = NULL /\
    calls (log m') = calls (log m) ++
      match free_value with
      | Some f => (fun x => (f, x.2)) <$> postorder (root m)
      | None => []
      end /\
    frees (log m') = frees (log m) ++ (postorder (root m) ≫= fun x => [x.1.2; x.1.1]) /\
    postorder (root m) ≡ₚ nodes (root m).
Proof.
  intros W.
  assert (post (bt_destroy (Some h) free_value) m
            (fun _ m' => root m' = NULL /\
               log m' = log m ++ [EvWrLock] ++ teardown free_value (root m) ++
                        [EvRwUnlock; EvRwDestroy])
            (fun _ => False)) as H.
  { unfold bt_destroy. apply post_bind, post_wrlock; [|done]. intros _.
    apply post_bind. unfold post at 1. cbn [get_root]. apply post_bind.
    eapply post_mono; [apply node_free_recursive_spec| |done].
    intros _ m1 (R1 & W1 & H1 & B1 & O1 & L1).
    apply post_bind. unfold post at 1. cbn [set_root].
    apply post_bind, post_wrunlock; [by rewrite W1|].
    unfold post. simpl. split; [done|]. rewrite L1. simpl.
    by rewrite <- !app_assoc. }
  apply post_returns in H as ([] & m' & E & R & L). exists m'.
  split; [done|]. split; [done|]. rewrite L.
  rewrite !calls_app, !frees_app, calls_teardown, frees_teardown.
  split; [|split]; [| |apply postorder_nodes].
  - unfold calls at 2 4. cbn. by rewrite app_nil_r.
  - unfold frees at 2 4. cbn. by rewrite app_nil_r.
Qed.

Lemma destroy_releases_every_node_witness :
  exists m',
    bt_destroy t (Some 99%nat) populated = Done tt m' /\
    root m' = NULL /\
    calls (log m') = calls (log populated) ++
      ((fun x => (99%nat, x.2)) <$> postorder (root populated)) /\
    frees (log m') = frees (log populated) ++
      (postorder (root populated) ≫= fun x => [x.1.2; x.1.1]) /\
    postorder (root populated) ≡ₚ nodes (root populated).
Proof.
  apply (destroy_releases_every_node the_tree (Some 99%nat) populated).
  vm_compute. reflexivity.
Defined.

(** *** A mutex left behind *)

(** C10 (the code departs from it).  After a delete of an absent key that
    went two nodes deep, the mutex of the parent of the last node visited
    is still held although the call has returned -1 and released the
    tree lock; a later lookup that reaches this node never returns. *)
Theorem lookup_blocks_after_failed_delete :
  exists m1 m2,
    failed_delete boot = Done (-1, None) m1 /\
    held m1 = {[0%nat]} /\ rwlock m1 = Unlocked /\
    keys (root m1) = ["b"; "c"] /\
    bt_lookup t (Some "b") None m1 = Blocked m2.
Proof.
  eexists. eexists. split; [vm_compute; reflexivity|].
  repeat split; by vm_compute.
Qed.

(** * More of the code

    Properties of the operations beyond those above: the tree as a map,
    the heap, the locks. *)


(** ** The tree as a finite map *)

Lemma bindings_keys n : (bindings n).*1 = keys n.
Proof.
  induction n as [|a k v l IHl r IHr]; [done|].
  simpl. by rewrite fmap_app, fmap_cons, IHl, IHr.
Qed.

Lemma as_map_absent key n : key ∉ keys n -> as_map n !! key = None.
Proof.
  intros H. apply not_elem_of_list_to_map_1. by rewrite bindings_keys.
Qed.

Lemma as_map_Node a k v l r :
  as_map (Node a k v l r) = as_map l ∪ <[chars k := v]> (as_map r).
Proof. unfold as_map. simpl. by rewrite list_to_map_app, list_to_map_cons. Qed.

Ltac key_ne :=
  let E := fresh "E" in
  intros E; try subst;
  first [ eapply klt_irrefl; eassumption
        | eapply klt_asym; eassumption
        | rewrite E in *; eapply klt_irrefl; eassumption
        | rewrite <- E in *; eapply klt_irrefl; eassumption ].

Lemma klt_absent_l key k n :
  Forall (fun x => klt x k) (keys n) -> ~ klt key k -> key ∉ keys n.
Proof. rewrite Forall_forall. intros H N Hin. apply N. by apply H. Qed.

Lemma klt_absent_r key k n :
  Forall (fun x => klt k x) (keys n) -> ~ klt k key -> key ∉ keys n.
Proof. rewrite Forall_forall. intros H N Hin. apply N. by apply H. Qed.

(** A search finds the binding of the map. *)
Lemma seek_as_map key n : BST n -> value_of (seek key n) = as_map n !! key.
Proof.
  induction n as [|a k v l IHl r IHr]; [done|].
  intros (Hl & Hr & Bl & Br). rewrite as_map_Node. cbn [seek].
  cmp_cases key (chars k).
  - subst key. rewrite lookup_union_r.
    + by rewrite lookup_insert_eq.
    + apply as_map_absent. eapply klt_absent_l; [done|apply klt_irrefl].
  - rewrite IHl by done. destruct (as_map l !! key) eqn:El.
    + symmetry. by apply lookup_union_Some_l.
    + rewrite lookup_union_r by done. rewrite lookup_insert_ne.
      * symmetry. apply as_map_absent.
        eapply klt_absent_r; [done|]. by apply klt_asym.
      * key_ne.
  - rewrite IHr by done. rewrite lookup_union_r.
    + rewrite lookup_insert_ne; [done|]. key_ne.
    + apply as_map_absent. eapply klt_absent_l; [done|]. by apply klt_asym.
Qed.

Lemma seek_present key n : BST n -> (seek key n <> NULL <-> key ∈ keys n).
Proof.
  intros B. split.
  - intros H. destruct (seek key n) as [|a k v l r] eqn:E; [done|].
    pose proof (seek_key _ _ _ _ _ _ _ E) as Ek.
    apply (seek_keys key). rewrite E, <- Ek. simpl. set_solver.
  - intros Hin E. pose proof (seek_as_map key n B) as H. rewrite E in H.
    simpl in H. symmetry in H. apply not_elem_of_list_to_map_2 in H.
    by rewrite bindings_keys in H.
Qed.

(** A search in the tree after [bt_add]. *)
Lemma seek_tree_add a ka key value value' y n :
  value_of (seek y (tree_add (Node a (Cstr ka key) value' NULL NULL) key value n)) =
  if decide (y = key)
  then Some (match seek key n with NULL => value' | _ => value end)
  else value_of (seek y n).
Proof.
  induction n as [|a0 k v l IHl r IHr]; cbn [tree_add seek].
  - cbn. destruct (decide (y = key)) as [->|N].
    + by rewrite (proj2 (strcmp_eq key key) eq_refl).
    + cmp_cases y key; done.
  - cmp_cases key (chars k).
    + subst key. cbn [seek]. destruct (decide (y = chars k)) as [->|N].
      * by rewrite (proj2 (strcmp_eq (chars k) (chars k)) eq_refl).
      * cmp_cases y (chars k); done.
    + cbn [seek]. cmp_cases y (chars k).
      * subst y. rewrite decide_False; [done|]. key_ne.
      * apply IHl.
      * rewrite decide_False; [done|]. key_ne.
    + cbn [seek]. cmp_cases y (chars k).
      * subst y. rewrite decide_False; [done|]. key_ne.
      * rewrite decide_False; [done|]. key_ne.
      * apply IHr.
Qed.

Lemma as_map_tree_add a ka key value n :
  BST n ->
  as_map (tree_add (Node a (Cstr ka key) value NULL NULL) key value n) =
  <[key := value]> (as_map n).
Proof.
  intros B. apply map_eq. intros y.
  rewrite <- seek_as_map by (by apply BST_tree_add).
  rewrite seek_tree_add. destruct (decide (y = key)) as [->|N].
  - rewrite lookup_insert_eq. by destruct (seek key n).
  - rewrite lookup_insert_ne by done. by apply seek_as_map.
Qed.

Lemma bindings_leftmost_splice n sa sk sv sl sr :
  leftmost n = Node sa sk sv sl sr ->
  bindings n = (chars sk, sv) :: bindings (splice_min n).
Proof.
  induction n as [|a k v l IHl r _]; [done|]. cbn [leftmost splice_min].
  destruct l as [|la lk lv ll lr].
  - intros [= ? ? ? ? ?]. by subst.
  - intros E. cbn [bindings] in *. rewrite (IHl E). done.
Qed.

Lemma as_map_replacement new_key handed a k v l r :
  BST (Node a k v l r) ->
  as_map (replacement new_key handed (Node a k v l r)) =
  rebind (rebound handed (Node a k v l r)) (as_map l ∪ as_map r).
Proof.
  intros (Hl & Hr & Bl & Br). unfold replacement, rebound, successor_key.
  cbn [two_children]. destruct (is_null l || is_null r) eqn:C; cbn [negb].
  - rewrite andb_false_r. cbn [rebind].
    destruct l as [|la lk lv ll lr]; cbn [is_null].
    + unfold as_map at 2. cbn. by rewrite (left_id _ _).
    + destruct r; [|done]. unfold as_map at 3. cbn. by rewrite (right_id _ _).
  - apply orb_false_elim in C as [Cl Cr].
    destruct (leftmost_splice r) as (sa & sk & sv & sr & E & _); [by destruct r|].
    rewrite E. rewrite as_map_Node. cbn [chars].
    pose proof (bindings_leftmost_splice _ _ _ _ _ _ E) as Eb.
    assert (as_map r = <[chars sk := sv]> (as_map (splice_min r))) as Er.
    { unfold as_map. by rewrite Eb, list_to_map_cons. }
    destruct handed; cbn [andb rebind value_or_null value_of default].
    + rewrite Er, insert_union_r, insert_insert_eq; [done|].
      apply as_map_absent. eapply klt_absent_l; [done|]. apply klt_asym.
      rewrite Forall_forall in Hr. apply Hr. by eapply leftmost_key_in.
    + by rewrite Er.
Qed.

(** The map after [bt_delete] returns 0: the key is unbound, and on the
    two-children path with [old_value] supplied the successor's key is
    rebound to the value of the node found. *)
Lemma as_map_tree_delete new_key handed key n :
  BST n -> seek key n <> NULL ->
  as_map (tree_delete new_key handed key n) =
  rebind (rebound handed (seek key n)) (delete key (as_map n)).
Proof.
  induction n as [|a k v l IHl r IHr]; [done|].
  intros B. pose proof B as (Hl & Hr & Bl & Br).
  cbn [seek tree_delete]. cmp_cases key (chars k); intros S.
  - subst key. rewrite as_map_replacement by done. f_equal.
    rewrite as_map_Node, delete_union, delete_insert_eq, !delete_id; [done| |].
    + apply as_map_absent. eapply klt_absent_r; [done|apply klt_irrefl].
    + apply as_map_absent. eapply klt_absent_l; [done|apply klt_irrefl].
  - rewrite !as_map_Node, IHl by done.
    assert (delete key (<[chars k:=v]> (as_map r)) = <[chars k:=v]> (as_map r)) as Ed.
    { apply delete_id. rewrite lookup_insert_ne by key_ne.
      apply as_map_absent. eapply klt_absent_r; [done|]. by apply klt_asym. }
    rewrite delete_union, Ed.
    destruct (rebound handed (seek key l)) as [[s x]|]; cbn [rebind]; [|done].
    by rewrite insert_union_l.
  - rewrite !as_map_Node, IHr by done.
    assert (delete key (as_map l) = as_map l) as Ed.
    { apply delete_id, as_map_absent. eapply klt_absent_l; [done|]. by apply klt_asym. }
    rewrite delete_union, Ed, delete_insert_ne by key_ne.
    destruct (rebound handed (seek key r)) as [[s x]|] eqn:Eb; cbn [rebind]; [|done].
    assert (s ∈ keys r) as Hs.
    { unfold rebound in Eb. destruct (handed && two_children (seek key r)) eqn:C;
        [|done]. injection Eb as <- _. apply andb_prop in C as [_ C].
      apply (seek_keys key). destruct (seek key r) as [|fa fk fv fl fr]; [done|].
      unfold successor_key.
      destruct (leftmost_splice fr) as (sa & sk & sv & sr & El & _).
      { destruct fl, fr; done. }
      rewrite El. apply leftmost_key_in in El. cbn [keys]. set_solver. }
    rewrite Forall_forall in Hr.
    rewrite insert_union_r.
    + rewrite insert_insert_ne; [done|]. intros <-. exact (klt_irrefl _ (Hr _ Hs)).
    + apply as_map_absent. eapply klt_absent_l; [done|]. apply klt_asym. by apply Hr.
Qed.

(** ** The heap *)

Lemma allocs_app l1 l2 : allocs (l1 ++ l2) = allocs l1 ++ allocs l2.
Proof. apply omap_app. Qed.

Lemma heap_same_refl m : heap_same m m.
Proof. done. Qed.

Lemma heap_same_trans m1 m2 m3 : heap_same m1 m2 -> heap_same m2 m3 -> heap_same m1 m3.
Proof. unfold heap_same. intros (? & ? & ?) (? & ? & ?). repeat split; congruence. Qed.

Lemma heap_same_step m m' cur : heap_same m m' -> heap_step m m' cur cur.
Proof.
  intros (A & F & B). exists 0%nat, []. simpl.
  rewrite !app_nil_r. repeat split; try done. lia.
Qed.

Lemma heap_step_trans m1 m2 m3 c1 c2 c3 :
  heap_step m1 m2 c1 c2 -> heap_step m2 m3 c2 c3 -> heap_step m1 m3 c1 c3.
Proof.
  intros (n1 & F1 & A1 & E1 & B1 & P1) (n2 & F2 & A2 & E2 & B2 & P2).
  exists (n1 + n2)%nat, (F1 ++ F2).
  rewrite A2, A1, E2, E1, B2, B1, seq_app, <- !app_assoc.
  repeat split; try done; [lia|].
  rewrite B1 in P2.
  etrans; [apply Permutation_app_swap_app|].
  etrans; [apply Permutation_app_head, P1|].
  etrans; [apply Permutation_app_swap_app|].
  apply Permutation_app_head, P2.
Qed.

Lemma heap_same_step_l m1 m2 m3 c c' :
  heap_same m1 m2 -> heap_step m2 m3 c c' -> heap_step m1 m3 c c'.
Proof. intros H. apply heap_step_trans. by apply heap_same_step. Qed.

Lemma heap_same_step_r m1 m2 m3 c c' :
  heap_step m1 m2 c c' -> heap_same m2 m3 -> heap_step m1 m3 c c'.
Proof. intros H1 H2. eapply heap_step_trans; [done|]. by apply heap_same_step. Qed.

(** A step on a subtree is a step on the tree around it. *)
Lemma heap_step_ctx m m' c c' C C' X :
  blocks C ≡ₚ X ++ blocks c -> blocks C' ≡ₚ X ++ blocks c' ->
  heap_step m m' c c' -> heap_step m m' C C'.
Proof.
  intros P P' (n & F & A & E & B & Q). exists n, F. repeat split; try done.
  rewrite P, P'.
  etrans; [apply Permutation_app_swap_app|].
  etrans; [apply Permutation_app_head, Q|].
  apply Permutation_app_swap_app.
Qed.

Lemma heap_step_left m m' a k v l l' r :
  heap_step m m' l l' -> heap_step m m' (Node a k v l r) (Node a k v l' r).
Proof.
  apply (heap_step_ctx _ _ _ _ _ _ (a :: caddr k :: blocks r)); simpl;
    apply Permutation_app_comm.
Qed.

Lemma heap_step_right m m' a k v l r r' :
  heap_step m m' r r' -> heap_step m m' (Node a k v l r) (Node a k v l r').
Proof.
  apply (heap_step_ctx _ _ _ _ _ _ (blocks l ++ [a; caddr k])); simpl;
    by rewrite <- app_assoc.
Qed.

Lemma heap_ok_step m m' :
  heap_ok m -> heap_step m m' (root m) (root m') -> heap_ok m'.
Proof.
  intros (ND & Fa & P) (n & F & A & E & B & Q). unfold heap_ok.
  rewrite A, E, B. rewrite Forall_forall in Fa. split; [|split].
  - apply NoDup_app. split; [done|]. split; [|apply NoDup_seq].
    intros x Hx Hs. apply elem_of_seq in Hs. specialize (Fa _ Hx). lia.
  - apply Forall_app. split.
    + apply Forall_forall. intros x Hx. specialize (Fa _ Hx). lia.
    + apply Forall_forall. intros x Hs. apply elem_of_seq in Hs. lia.
  - rewrite P, <- !app_assoc. apply Permutation_app_head.
    by rewrite (Permutation_app_comm (blocks (root m))), Q.
Qed.

(** Rules for the calls that leave the heap alone. *)
Lemma post_lock_heap a m (Q : unit -> machine -> Prop) (B : machine -> Prop) :
  (forall e, heap_same m e -> root e = root m -> Q tt e) -> B m ->
  post (pthread_mutex_lock a) m Q B.
Proof.
  intros H HB. apply post_lock; [|done]. intros _. apply H; [|done].
  unfold heap_same. simpl. by rewrite allocs_app, frees_app, !app_nil_r.
Qed.

Lemma post_unlock_heap a m (Q : unit -> machine -> Prop) (B : machine -> Prop) :
  (forall e, heap_same m e -> root e = root m -> Q tt e) ->
  post (pthread_mutex_unlock a) m Q B.
Proof.
  intros H. apply post_unlock. intros e L R _ Br _ _. apply H; [|done].
  unfold heap_same. by rewrite L, allocs_app, frees_app, !app_nil_r.
Qed.

Lemma post_unlock_if_heap p m (Q : unit -> machine -> Prop) (B : machine -> Prop) :
  (forall e, heap_same m e -> root e = root m -> Q tt e) ->
  post (unlock_if p) m Q B.
Proof.
  intros H. apply post_unlock_if. intros e L R _ Br _ _. apply H; [|done].
  unfold heap_same. rewrite L, allocs_app, frees_app.
  destruct p; by rewrite !app_nil_r.
Qed.

Lemma node_new_heap key value m :
  post (node_new key value) m
    (fun n m' => root m' = root m /\
       heap_step m m' NULL (match n with Some x => x | None => NULL end))
    (fun _ => False).
Proof.
  unfold post, node_new, calloc, strdup, pthread_mutex_init,
    bind, consult, fresh, free, ret, heap_step.
  destruct m as [rt rw h b o lg]. simpl.
  destruct o as [|[] [|[] [|[] o]]]; simpl; (split; [done|]);
    rewrite ?allocs_app, ?frees_app; simpl; rewrite ?app_nil_r, <- ?app_assoc.
  all: first
    [ exists 2%nat, []; simpl; rewrite ?app_nil_r; repeat split; (done || lia)
    | exists 0%nat, []; simpl; rewrite ?app_nil_r; repeat split; (done || lia)
    | exists 1%nat, [b]; simpl; rewrite ?app_nil_r; repeat split; (done || lia)
    | exists 2%nat, [S b; b]; simpl; rewrite ?app_nil_r; repeat split;
        first [done | lia | apply Permutation_swap] ].
Qed.

Lemma add_loop_heap key value parent cur m :
  post (add_loop key value parent cur) m
    (fun res m' => root m' = root m /\ heap_step m m' cur res.2)
    (fun m' => root m' = root m /\ heap_same m m').
Proof.
  revert parent m. induction cur as [|a k v l IHl r IHr]; intros parent m.
  { unfold post. simpl. split; [done|]. by apply heap_same_step. }
  cbn [add_loop]. cmp_cases key (chars k).
  - apply post_bind, post_unlock_heap. intros e He Re. unfold post. cbn.
    split; [done|]. apply (heap_step_ctx _ _ NULL NULL _ _
      (blocks (Node a k v l r))); [by rewrite app_nil_r..|].
    by apply heap_same_step.
  - destruct l as [|la lk lv ll lr].
    + apply post_bind. eapply post_mono; [apply node_new_heap| |done].
      intros n m1 [R1 H1]. destruct n as [n|].
      * apply post_bind, post_unlock_heap. intros e He Re. unfold post. cbn.
        split; [congruence|]. apply heap_step_left.
        by eapply heap_same_step_r.
      * apply post_bind, post_unlock_heap. intros e He Re. unfold post. cbn.
        split; [congruence|]. apply (heap_step_left _ _ a k v NULL NULL r).
        by eapply heap_same_step_r.
    + apply post_bind, post_lock_heap; [|done].
      intros e1 H1 R1. apply post_bind, post_unlock_if_heap. intros e2 H2 R2.
      apply post_bind. eapply post_mono; [apply IHl| |].
      * intros [[rc p'] next] m1 [R3 H3]. unfold post. cbn in *.
        split; [congruence|]. apply heap_step_left.
        eapply heap_same_step_l; [|done]. by eapply heap_same_trans.
      * cbn. intros m' [R3 H3]. split; [congruence|].
        eapply heap_same_trans; [|done]. by eapply heap_same_trans.
  - destruct r as [|ra rk rv rl rr].
    + apply post_bind. eapply post_mono; [apply node_new_heap| |done].
      intros n m1 [R1 H1]. destruct n as [n|].
      * apply post_bind, post_unlock_heap. intros e He Re. unfold post. cbn.
        split; [congruence|]. apply heap_step_right.
        by eapply heap_same_step_r.
      * apply post_bind, post_unlock_heap. intros e He Re. unfold post. cbn.
        split; [congruence|]. apply (heap_step_right _ _ a k v l NULL NULL).
        by eapply heap_same_step_r.
    + apply post_bind, post_lock_heap; [|done].
      intros e1 H1 R1. apply post_bind, post_unlock_if_heap. intros e2 H2 R2.
      apply post_bind. eapply post_mono; [apply IHr| |].
      * intros [[rc p'] next] m1 [R3 H3]. unfold post. cbn in *.
        split; [congruence|]. apply heap_step_right.
        eapply heap_same_step_l; [|done]. by eapply heap_same_trans.
      * cbn. intros m' [R3 H3]. split; [congruence|].
        eapply heap_same_trans; [|done]. by eapply heap_same_trans.
Qed.

Lemma heap_same_emit e m :
  match e with EvAlloc _ | EvFree _ => False | _ => True end ->
  heap_same m (emit e m).
Proof.
  intros H. unfold heap_same. simpl. rewrite allocs_app, frees_app.
  destruct e; try done; by rewrite !app_nil_r.
Qed.

Lemma post_wrlock_heap m (Q : unit -> machine -> Prop) (B : machine -> Prop) :
  (forall e, heap_same m e -> root e = root m -> rwlock e = WriteLocked -> Q tt e) ->
  B m -> post pthread_rwlock_wrlock m Q B.
Proof.
  intros H HB. apply post_wrlock; [|done]. intros _. apply H; [|done..].
  unfold heap_same. simpl. by rewrite allocs_app, frees_app, !app_nil_r.
Qed.

Lemma post_rwunlock_heap m (Q : unit -> machine -> Prop) (B : machine -> Prop) :
  (forall e, heap_same m e -> root e = root m -> Q tt e) ->
  post pthread_rwlock_unlock m Q B.
Proof.
  intros H. unfold post, pthread_rwlock_unlock.
  destruct (rwlock m) as [|[|n]|]; apply H; try done;
    unfold heap_same; simpl; by rewrite allocs_app, frees_app, !app_nil_r.
Qed.

Lemma post_set_root n m (Q : unit -> machine -> Prop) (B : machine -> Prop) :
  (forall e, heap_same m e -> root e = n -> rwlock e = rwlock m ->
             held e = held m -> Q tt e) ->
  post (set_root n) m Q B.
Proof. intros H. unfold post. simpl. by apply H. Qed.

(** Whatever it returns, and also when it blocks, [bt_add] allocates what
    the tree gains and frees the rest of what it allocates. *)
Lemma bt_add_heap h key value m :
  post (bt_add h key value) m
    (fun _ m' => heap_step m m' (root m) (root m'))
    (fun m' => root m' = root m /\ heap_same m m').
Proof.
  unfold bt_add. destruct h as [h|], key as [key|];
    try (unfold post; simpl; by apply heap_same_step).
  apply post_bind, post_wrlock_heap; [|done]. intros e1 H1 R1 _.
  apply post_bind. unfold post at 1. cbn [get_root]. rewrite R1.
  destruct (root m) as [|a k v l r] eqn:R.
  - apply post_bind, post_bind. eapply post_mono; [apply node_new_heap| |done].
    intros n m1 [R2 H2]. destruct n as [n|].
    + apply post_bind, post_set_root. intros e2 H3 R3 _ _. unfold post at 1. cbn [ret].
      apply post_bind, post_rwunlock_heap. intros e3 H4 R4. unfold post. cbn.
      rewrite R4, R3. eapply heap_same_step_l; [done|].
      eapply heap_same_step_r; [done|]. by eapply heap_same_trans.
    + unfold post at 1. cbn [ret].
      apply post_bind, post_rwunlock_heap. intros e3 H4 R4. unfold post. cbn.
      replace (root e3) with NULL by congruence.
      eapply heap_same_step_l; [done|]. by eapply heap_same_step_r.
  - apply post_bind, post_bind, post_lock_heap.
    2:{ split; [congruence|done]. }
    intros e2 H2 R2. apply post_bind.
    eapply post_mono; [apply add_loop_heap| |].
    + intros [[rc p'] cur'] m1 [R3 H3]. cbn in H3.
      apply post_bind, post_set_root. intros e3 H4 R4 _ _.
      apply post_bind, post_unlock_if_heap. intros e4 H5 R5. unfold post at 1. cbn [ret].
      apply post_bind, post_rwunlock_heap. intros e5 H6 R6. unfold post. cbn.
      replace (root e5) with cur' by congruence.
      eapply heap_same_step_l; [by eapply heap_same_trans|].
      eapply heap_same_step_r; [done|].
      eapply heap_same_trans; [done|]. by eapply heap_same_trans.
    + cbn. intros m' [R3 H3]. split; [congruence|].
      eapply heap_same_trans; [|done]. by eapply heap_same_trans.
Qed.

Lemma blocks_leftmost_splice n sa sk sv sl sr :
  leftmost n = Node sa sk sv sl sr ->
  blocks n = sa :: caddr sk :: blocks (splice_min n).
Proof.
  induction n as [|a k v l IHl r _]; [done|]. cbn [leftmost splice_min].
  destruct l as [|la lk lv ll lr].
  - intros [= ? ? ? ? ?]. by subst.
  - intros E. cbn [blocks] in *. rewrite (IHl E). done.
Qed.

Lemma find_min_loop_heap parent cur m :
  post (find_min_loop parent cur) m
    (fun res m' => root m' = root m /\ heap_same m m' /\ res.2 = leftmost cur)
    (fun m' => root m' = root m /\ heap_same m m').
Proof.
  revert parent m. induction cur as [|a k v l IHl r _]; intros parent m.
  { by unfold post. }
  cbn [find_min_loop leftmost]. destruct l as [|la lk lv ll lr].
  - by unfold post.
  - apply post_bind, post_lock_heap; [|done]. intros e1 H1 R1.
    apply post_bind, post_unlock_heap. intros e2 H2 R2.
    eapply post_mono; [apply IHl| |].
    + intros res m' (R3 & H3 & E). split; [congruence|]. split; [|done].
      eapply heap_same_trans; [|done]. by eapply heap_same_trans.
    + cbn. intros m' (R3 & H3). split; [congruence|].
      eapply heap_same_trans; [|done]. by eapply heap_same_trans.
Qed.

Lemma find_min_locked_heap a k v l r m :
  r <> NULL ->
  post (find_min_locked (Node a k v l r)) m
    (fun res m' => root m' = root m /\ heap_same m m' /\ res.2 = leftmost r)
    (fun m' => root m' = root m /\ heap_same m m').
Proof.
  intros Hr. destruct r as [|ra rk rv rl rr]; [done|]. cbn [find_min_locked].
  apply post_bind, post_lock_heap; [|done]. intros e1 H1 R1.
  eapply post_mono; [apply find_min_loop_heap| |].
  - intros res m' (R3 & H3 & E). split; [congruence|]. split; [|done].
    by eapply heap_same_trans.
  - cbn. intros m' (R3 & H3). split; [congruence|]. by eapply heap_same_trans.
Qed.

Lemma strdup_heap s m :
  post (strdup s) m
    (fun r m' => root m' = root m /\
       match r with
       | None => heap_same m m'
       | Some k => k = Cstr (brk m) s /\
           allocs (log m') = allocs (log m) ++ [brk m] /\
           frees (log m') = frees (log m) /\ brk m' = S (brk m)
       end)
    (fun _ => False).
Proof.
  unfold post, strdup, bind, consult, fresh, ret, heap_same.
  destruct m as [rt rw h b o lg]. simpl.
  destruct o as [|[] o]; simpl; rewrite ?allocs_app, ?frees_app; simpl;
    rewrite ?app_nil_r; done.
Qed.

Lemma post_free_heap a m (Q : unit -> machine -> Prop) (B : machine -> Prop) :
  (forall e, allocs (log e) = allocs (log m) -> frees (log e) = frees (log m) ++ [a] ->
             brk e = brk m -> root e = root m -> Q tt e) ->
  post (free a) m Q B.
Proof.
  intros H. apply post_free. intros e L R _ Br _ _. apply H; try done.
  - by rewrite L, allocs_app, app_nil_r.
  - by rewrite L, frees_app.
Qed.

Lemma post_node_free_heap a k v l r m (Q : unit -> machine -> Prop) (B : machine -> Prop) :
  (forall e, allocs (log e) = allocs (log m) ->
             frees (log e) = frees (log m) ++ [caddr k; a] ->
             brk e = brk m -> root e = root m -> Q tt e) ->
  post (node_free (Node a k v l r) None) m Q B.
Proof.
  intros H. apply post_node_free. intros e L R _ Br _ _. apply H; try done.
  - by rewrite L, allocs_app, app_nil_r.
  - by rewrite L, frees_app.
Qed.

Lemma delete_found_heap old_value parent a k v l r m :
  post (delete_found old_value parent (Node a k v l r)) m
    (fun res m' => root m' = root m /\ heap_step m m' (Node a k v l r) res.2)
    (fun m' => root m' = root m /\ heap_same m m').
Proof.
  unfold delete_found. destruct (is_null l || is_null r) eqn:C.
  - apply post_bind, post_unlock_heap. intros e1 H1 R1.
    apply post_bind, post_unlock_if_heap. intros e2 H2 R2.
    apply post_bind, post_node_free_heap. intros e3 A3 F3 B3 R3.
    unfold post. cbn. split; [congruence|].
    destruct H1 as (A1 & F1 & B1), H2 as (A2 & F2 & B2).
    exists 0%nat, [caddr k; a]. rewrite app_nil_r.
    repeat split; try congruence; [lia|]. cbn [seq app].
    destruct l as [|la lk lv ll lr]; cbn [is_null blocks].
    + solve_Permutation.
    + destruct r; [|done]. cbn [blocks]. solve_Permutation.
  - apply orb_false_elim in C as [Cl Cr].
    assert (r <> NULL) as Hr by (by destruct r).
    apply post_bind. eapply post_mono; [by apply find_min_locked_heap| |done].
    intros [sp succ] m1 (R1 & H1 & E). cbn in E. subst succ.
    destruct (leftmost_splice r Hr) as (sa & sk & sv & sr & E & _). rewrite E.
    pose proof (blocks_leftmost_splice _ _ _ _ _ _ E) as Eb.
    apply post_bind. eapply post_mono; [apply strdup_heap| |done].
    intros nk m2 [R2 H2]. destruct nk as [nk|].
    + destruct H2 as (-> & A2 & F2 & B2).
      apply post_bind, post_free_heap. intros e0 A0 F0 B0 R0.
      assert (forall (ov : option pointer) (vv : pointer) e,
        heap_same e0 e -> root e = root e0 ->
        post (node_free (Node sa sk sv NULL sr) None ;;
              ret (0, ov, Node a (Cstr (brk m1) (chars sk)) vv l (splice_min r))) e
          (fun res m' => root m' = root m /\ heap_step m m' (Node a k v l r) res.2)
          (fun m' => root m' = root m /\ heap_same m m')) as Hend.
      { intros ov vv e (Ae & Fe & Be) Re.
        apply post_bind, post_node_free_heap. intros e7 A7 F7 B7 R7.
        unfold post. cbn. split; [congruence|].
        destruct H1 as (A1 & F1 & B1).
        exists 1%nat, [caddr k; caddr sk; sa].
        rewrite A7, Ae, A0, A2, A1, F7, Fe, F0, F2, F1, B7, Be, B0, B2, B1.
        rewrite <- !app_assoc. repeat split; try done; [lia|].
        cbn [seq app blocks caddr]. rewrite Eb. solve_Permutation. }
      destruct (option_map (fun _ => v) old_value).
      all: apply post_bind, post_unlock_heap; intros e3 H3 R3.
      all: apply post_bind, post_unlock_heap; intros e4 H4 R4.
      all: apply post_bind, post_unlock_heap; intros e5 H5 R5.
      all: apply post_bind, post_unlock_if_heap; intros e6 H6 R6.
      all: apply Hend; [|congruence].
      all: eapply heap_same_trans; [|done].
      all: eapply heap_same_trans; [|done].
      all: by eapply heap_same_trans.
    + apply post_bind, post_unlock_heap. intros e3 H3 R3.
      apply post_bind, post_unlock_heap. intros e4 H4 R4.
      apply post_bind, post_unlock_heap. intros e5 H5 R5.
      apply post_bind, post_unlock_if_heap. intros e6 H6 R6.
      unfold post. cbn. split; [congruence|]. apply heap_same_step.
      repeat (eapply heap_same_trans; [|eassumption]). done.
Qed.

Lemma delete_loop_heap key old_value parent cur m :
  post (delete_loop key old_value parent cur) m
    (fun res m' => root m' = root m /\ heap_step m m' cur res.2)
    (fun m' => root m' = root m /\ heap_same m m').
Proof.
  revert parent m. induction cur as [|a k v l IHl r IHr]; intros parent m.
  { unfold post. simpl. split; [done|]. by apply heap_same_step. }
  cbn [delete_loop]. cmp_cases key (chars k).
  - apply delete_found_heap.
  - destruct l as [|la lk lv ll lr].
    + apply post_bind, post_unlock_heap. intros e He Re. unfold post. cbn.
      split; [done|]. by apply heap_same_step.
    + apply post_bind, post_lock_heap; [|done].
      intros e1 H1 R1. apply post_bind, post_unlock_if_heap. intros e2 H2 R2.
      apply post_bind. eapply post_mono; [apply IHl| |].
      * intros [[rc out] next] m1 [R3 H3]. unfold post. cbn in *.
        split; [congruence|]. apply heap_step_left.
        eapply heap_same_step_l; [|done]. by eapply heap_same_trans.
      * cbn. intros m' [R3 H3]. split; [congruence|].
        eapply heap_same_trans; [|done]. by eapply heap_same_trans.
  - destruct r as [|ra rk rv rl rr].
    + apply post_bind, post_unlock_heap. intros e He Re. unfold post. cbn.
      split; [done|]. by apply heap_same_step.
    + apply post_bind, post_lock_heap; [|done].
      intros e1 H1 R1. apply post_bind, post_unlock_if_heap. intros e2 H2 R2.
      apply post_bind. eapply post_mono; [apply IHr| |].
      * intros [[rc out] next] m1 [R3 H3]. unfold post. cbn in *.
        split; [congruence|]. apply heap_step_right.
        eapply heap_same_step_l; [|done]. by eapply heap_same_trans.
      * cbn. intros m' [R3 H3]. split; [congruence|].
        eapply heap_same_trans; [|done]. by eapply heap_same_trans.
Qed.

Lemma bt_delete_heap h key old_value m :
  post (bt_delete h key old_value) m
    (fun _ m' => heap_step m m' (root m) (root m'))
    (fun m' => root m' = root m /\ heap_same m m').
Proof.
  unfold bt_delete. destruct h as [h|], key as [key|];
    try (unfold post; simpl; by apply heap_same_step).
  apply post_bind, post_wrlock_heap; [|done]. intros e1 H1 R1 _.
  apply post_bind. unfold post at 1. cbn [get_root]. rewrite R1.
  destruct (root m) as [|a k v l r] eqn:R.
  - apply post_bind. unfold post at 1. cbn [ret].
    apply post_bind, post_rwunlock_heap. intros e3 H4 R4. unfold post. cbn.
    replace (root e3) with NULL by congruence.
    apply heap_same_step. by eapply heap_same_trans.
  - apply post_bind, post_bind, post_lock_heap.
    2:{ split; [congruence|done]. }
    intros e2 H2 R2. apply post_bind.
    eapply post_mono; [apply delete_loop_heap| |].
    + intros [[rc out] cur'] m1 [R3 H3]. cbn in H3.
      apply post_bind, post_set_root. intros e3 H4 R4 _ _. unfold post at 1. cbn [ret].
      apply post_bind, post_rwunlock_heap. intros e5 H6 R6. unfold post. cbn.
      replace (root e5) with cur' by congruence.
      eapply heap_same_step_l; [by eapply heap_same_trans|].
      eapply heap_same_step_r; [done|]. by eapply heap_same_trans.
    + cbn. intros m' [R3 H3]. split; [congruence|].
      eapply heap_same_trans; [|done]. by eapply heap_same_trans.
Qed.

Lemma lookup_loop_heap key cur m :
  post (lookup_loop key cur) m
    (fun _ m' => root m' = root m /\ heap_same m m')
    (fun m' => root m' = root m /\ heap_same m m').
Proof.
  revert m. induction cur as [|a k v l IHl r IHr]; intros m; [by unfold post|].
  cbn [lookup_loop]. apply post_bind, post_lock_heap; [|done]. intros e1 H1 R1.
  cmp_cases key (chars k).
  - apply post_bind, post_unlock_heap. intros e2 H2 R2. unfold post. cbn.
    split; [congruence|]. by eapply heap_same_trans.
  - apply post_bind, post_unlock_heap. intros e2 H2 R2.
    eapply post_mono; [apply IHl|..]; cbn; intros; split; try congruence;
      try (destruct_and!; congruence);
      (eapply heap_same_trans; [|by destruct_and!]); by eapply heap_same_trans.
  - apply post_bind, post_unlock_heap. intros e2 H2 R2.
    eapply post_mono; [apply IHr|..]; cbn; intros; split; try congruence;
      try (destruct_and!; congruence);
      (eapply heap_same_trans; [|by destruct_and!]); by eapply heap_same_trans.
Qed.

Lemma bt_lookup_heap h key value_out m :
  post (bt_lookup h key value_out) m
    (fun _ m' => root m' = root m /\ heap_same m m')
    (fun m' => root m' = root m /\ heap_same m m').
Proof.
  unfold bt_lookup. destruct h as [h|], key as [key|]; try by unfold post.
  apply post_bind.
  assert (forall (Q : unit -> machine -> Prop) (B : machine -> Prop),
            (forall e, heap_same m e -> root e = root m -> Q tt e) -> B m ->
            post pthread_rwlock_rdlock m Q B) as Hrd.
  { intros Q B H HB. unfold post, pthread_rwlock_rdlock.
    destruct (rwlock m); try done; apply H; try done;
      unfold heap_same; simpl; by rewrite allocs_app, frees_app, !app_nil_r. }
  apply Hrd; [|done]. intros e1 H1 R1.
  apply post_bind. unfold post at 1. cbn [get_root].
  apply post_bind. eapply post_mono; [apply lookup_loop_heap| |].
  - intros found m1 [R2 H2]. apply post_bind, post_rwunlock_heap.
    intros e3 H3 R3. destruct found; unfold post; cbn; (split; [congruence|]);
      (eapply heap_same_trans; [|done]); by eapply heap_same_trans.
  - cbn. intros m' [R2 H2]. split; [congruence|]. by eapply heap_same_trans.
Qed.

Lemma serve_heap h c m :
  heap_step m (final (serve h c m)) (root m) (root (final (serve h c m))).
Proof.
  destruct c as [key value|key old_value|key value_out]; unfold serve;
    rewrite final_ret_tt.
  - eapply post_final; [apply bt_add_heap|done|].
    intros m' [R H]. rewrite R. by apply heap_same_step.
  - eapply post_final; [apply bt_delete_heap|done|].
    intros m' [R H]. rewrite R. by apply heap_same_step.
  - eapply post_final; [apply bt_lookup_heap| |].
    + intros _ m' [R H]. rewrite R. by apply heap_same_step.
    + intros m' [R H]. rewrite R. by apply heap_same_step.
Qed.

Lemma serve_all_heap h cs m : heap_ok m -> heap_ok (final (serve_all h cs m)).
Proof.
  revert m. induction cs as [|c cs IH]; intros m H; [done|].
  cbn [serve_all]. rewrite final_bind.
  pose proof (heap_ok_step _ _ H (serve_heap h c m)) as H'.
  destruct (serve h c m) as [[] m'|m']; simpl in H'; auto.
Qed.

Lemma heap_ok_frees m :
  heap_ok m ->
  NoDup (frees (log m)) /\ NoDup (blocks (root m)) /\
  forall a, a ∈ blocks (root m) -> a ∉ frees (log m).
Proof.
  intros (ND & _ & P). rewrite P in ND.
  apply NoDup_app in ND as (N1 & N12 & N2). repeat split; try done.
  intros a Ha Hf. by apply (N12 a).
Qed.

(** X1.  Whatever calls are made, with whatever arguments and
    allocator answers, returning or not: no block is freed twice, no block
    of the tree has been freed, and every block allocated and not freed
    is a node or a key of the tree. *)
Theorem calls_keep_heap_in_order (h : option btree_ref) (cs : list call)
    (m : machine) :
  heap_ok m ->
  let m' := final (serve_all h cs m) in
  allocs (log m') ≡ₚ frees (log m') ++ blocks (root m') /\
  NoDup (allocs (log m')) /\
  NoDup (frees (log m')) /\ NoDup (blocks (root m')) /\
  forall a, a ∈ blocks (root m') -> a ∉ frees (log m').
Proof.
  intros H. cbv zeta. pose proof (serve_all_heap h cs m H) as H'.
  destruct (heap_ok_frees _ H') as (N1 & N2 & N3). destruct H' as (ND & _ & P).
  done.
Qed.

Lemma calls_keep_heap_in_order_witness :
  let m' := final (serve_all t [Insert (Some "f") (Lit "fox");
                                Remove (Some "d") (Some NULLptr);
                                Remove (Some "zz") None;
                                Find (Some "a") None] populated) in
  allocs (log m') ≡ₚ frees (log m') ++ blocks (root m') /\
  NoDup (allocs (log m')) /\
  NoDup (frees (log m')) /\ NoDup (blocks (root m')) /\
  forall a, a ∈ blocks (root m') -> a ∉ frees (log m').
Proof.
  apply (calls_keep_heap_in_order t _ populated).
  apply (@bool_decide_unpack _ (heap_ok_dec _)). by vm_compute.
Defined.

Lemma frees_teardown_blocks free_value n :
  frees (teardown free_value n) ≡ₚ blocks n.
Proof.
  induction n as [|a k v l IHl r IHr]; [done|].
  cbn [teardown blocks]. rewrite !frees_app, IHl, IHr.
  destruct free_value; cbn; solve_Permutation.
Qed.

Lemma allocs_teardown free_value n : allocs (teardown free_value n) = [].
Proof.
  induction n as [|a k v l IHl r IHr]; [done|].
  cbn [teardown]. rewrite !allocs_app, IHl, IHr. by destruct free_value.
Qed.

Lemma bt_destroy_log h free_value m :
  rwlock m = Unlocked ->
  exists m',
    bt_destroy (Some h) free_value m = Done tt m' /\ root m' = NULL /\
    brk m' = brk m /\ held m' = held m /\ rwlock m' = Unlocked /\
    log m' = log m ++ [EvWrLock] ++ teardown free_value (root m) ++
             [EvRwUnlock; EvRwDestroy].
Proof.
  intros W.
  assert (post (bt_destroy (Some h) free_value) m
            (fun _ m' => root m' = NULL /\ brk m' = brk m /\ held m' = held m /\
               rwlock m' = Unlocked /\
               log m' = log m ++ [EvWrLock] ++ teardown free_value (root m) ++
                        [EvRwUnlock; EvRwDestroy])
            (fun _ => False)) as H.
  { unfold bt_destroy. apply post_bind, post_wrlock; [|done]. intros _.
    apply post_bind. unfold post at 1. cbn [get_root]. apply post_bind.
    eapply post_mono; [apply node_free_recursive_spec| |done].
    intros _ m1 (R1 & W1 & H1 & B1 & O1 & L1).
    apply post_bind. unfold post at 1. cbn [set_root].
    apply post_bind, post_wrunlock; [by rewrite W1|].
    unfold post. simpl. rewrite L1, B1, H1. simpl. repeat split; try done.
    by rewrite <- !app_assoc. }
  apply post_returns in H as ([] & m' & E & H). by exists m'.
Qed.

(** X2.  On a heap in order and a free tree lock, [bt_destroy]
    allocates nothing and leaves every block ever allocated freed, each
    exactly once. *)
Theorem destroy_frees_every_block (h : btree_ref) (free_value : option addr)
    (m : machine) :
  heap_ok m -> rwlock m = Unlocked ->
  exists m',
    bt_destroy (Some h) free_value m = Done tt m' /\
    allocs (log m') = allocs (log m) /\
    frees (log m') ≡ₚ allocs (log m') /\
    NoDup (frees (log m')) /\ heap_ok m'.
Proof.
  intros (ND & Fa & P) W.
  destruct (bt_destroy_log h free_value m W) as (m' & E & R & B & _ & _ & L).
  exists m'. split; [done|].
  assert (allocs (log m') = allocs (log m)) as A.
  { rewrite L, !allocs_app, allocs_teardown. cbn. by rewrite !app_nil_r. }
  assert (frees (log m') ≡ₚ allocs (log m')) as F.
  { rewrite A, P, L, !frees_app, frees_teardown_blocks. cbn.
    by rewrite !app_nil_r. }
  repeat split; try done.
  - by rewrite F, A.
  - by rewrite A.
  - by rewrite A, B.
  - by rewrite R, app_nil_r.
Qed.

Lemma destroy_frees_every_block_witness :
  exists m',
    bt_destroy (Some the_tree) None populated = Done tt m' /\
    allocs (log m') = allocs (log populated) /\
    frees (log m') ≡ₚ allocs (log m') /\
    NoDup (frees (log m')) /\ heap_ok m'.
Proof.
  apply (destroy_frees_every_block the_tree None populated).
  - apply (@bool_decide_unpack _ (heap_ok_dec _)). by vm_compute.
  - by vm_compute.
Defined.

(** ** States between calls *)

Lemma addrs_blocks n : addrs n `sublist_of` blocks n.
Proof.
  induction n as [|a k v l IHl r IHr]; [done|]. simpl.
  apply sublist_app; [done|]. apply sublist_skip, sublist_cons. done.
Qed.

Lemma sound_calm m : sound m -> calm m.
Proof.
  intros (H & W & He). split; [done|]. split.
  - destruct (heap_ok_frees _ H) as (_ & N & _).
    exact (sublist_NoDup _ _ N (addrs_blocks _)).
  - intros x _. rewrite He. set_solver.
Qed.

Lemma sound_step m m' :
  sound m -> heap_step m m' (root m) (root m') ->
  rwlock m' = Unlocked -> held m' = held m -> sound m'.
Proof.
  intros (H & W & He) Hs W' He'. split; [by eapply heap_ok_step|].
  split; [done|]. by rewrite He'.
Qed.

Lemma bt_add_sound h key value m :
  sound m ->
  exists rc m', bt_add h key value m = Done rc m' /\ sound m'.
Proof.
  intros S. destruct h as [h|], key as [key|]; try by (eexists _, m).
  destruct (post_calm _ _ _ (sound_calm _ S) (bt_add_spec h key value m))
    as (rc & m' & E & _ & W' & He & _).
  exists rc, m'. split; [done|].
  pose proof (post_Done _ _ _ _ _ _ (bt_add_heap (Some h) (Some key) value m) E) as Hs.
  by eapply sound_step.
Qed.

Lemma bt_lookup_returns h key value_out m :
  calm m ->
  exists m',
    bt_lookup (Some h) (Some key) value_out m =
      Done (lookup_result (value_of (seek key (root m))) value_out) m' /\
    root m' = root m /\ held m' = held m /\ rwlock m' = rwlock m /\
    heap_same m m' /\ calls (log m') = calls (log m).
Proof.
  intros (W & _ & Hh).
  assert (post (bt_lookup (Some h) (Some key) value_out) m
            (bt_lookup_post key value_out m) (fun _ => False)) as L.
  { eapply post_mono; [apply bt_lookup_spec|done|].
    intros _ [Hw|(z & Hz & Hz')]; [congruence|]. by apply (Hh z). }
  apply post_returns in L as (res & m' & E & Q).
  destruct Q as (R & W' & He & _ & _ & _ & C & ->).
  destruct (post_Done _ _ _ _ _ _
    (bt_lookup_heap (Some h) (Some key) value_out m) E) as [_ H].
  exists m'. split; [exact E|]. do 3 (split; [done|]). by split.
Qed.

Lemma bt_lookup_sound h key value_out m :
  sound m ->
  exists res m', bt_lookup h key value_out m = Done res m' /\ sound m'.
Proof.
  intros S. destruct h as [h|], key as [key|]; try by (eexists _, m).
  destruct (bt_lookup_returns h key value_out m (sound_calm _ S))
    as (m' & E & R & He & W & H & _).
  eexists _, m'. split; [done|]. destruct S as (? & W0 & ?).
  eapply sound_step; try done; [|congruence].
  rewrite R. by apply heap_same_step.
Qed.

(** X3.  On a search tree with no lock in the way, [bt_lookup]
    returns what the map binds to the key: true and the bound value in
    [*value_out] (when supplied), or false and [*value_out] untouched.  It
    changes neither the tree nor the locks, allocates and frees nothing,
    and calls no callback. *)
Theorem lookup_is_map_lookup (h : btree_ref) (key : string)
    (value_out : option pointer) (m : machine) :
  calm m -> BST (root m) ->
  exists m',
    bt_lookup (Some h) (Some key) value_out m =
      Done (lookup_result (as_map (root m) !! key) value_out) m' /\
    root m' = root m /\ held m' = held m /\ rwlock m' = rwlock m /\
    heap_same m m' /\ calls (log m') = calls (log m).
Proof.
  intros Hc B. rewrite <- seek_as_map by done. by apply bt_lookup_returns.
Qed.

Lemma lookup_is_map_lookup_witness :
  exists m',
    bt_lookup (Some the_tree) (Some "c") (Some NULLptr) populated =
      Done (lookup_result (as_map (root populated) !! "c") (Some NULLptr)) m' /\
    root m' = root populated /\ held m' = held populated /\
    rwlock m' = rwlock populated /\
    heap_same populated m' /\ calls (log m') = calls (log populated).
Proof.
  apply (lookup_is_map_lookup the_tree "c" (Some NULLptr) populated).
  - apply (@bool_decide_unpack _ (calm_dec _)). by vm_compute.
  - apply (@bool_decide_unpack _ (BST_dec _)). by vm_compute.
Defined.

(** X4.  On a sound state holding a search tree, with an allocator
    that does not fail, [bt_add] binds the key to the value in the map and
    changes no other binding; it returns 1 when the key was bound and 0
    when it was not; the result is again a search tree in a sound state. *)
Theorem add_is_map_insert (h : btree_ref) (key : string) (value : pointer)
    (m : machine) :
  sound m -> BST (root m) -> node_new_ok m ->
  exists m',
    bt_add (Some h) (Some key) value m =
      Done (if decide (is_Some (as_map (root m) !! key)) then 1 else 0) m' /\
    as_map (root m') = <[key := value]> (as_map (root m)) /\
    BST (root m') /\ sound m'.
Proof.
  intros Sd B Ok.
  destruct (post_calm _ _ _ (sound_calm _ Sd) (bt_add_spec h key value m))
    as (rc & m' & E & _ & W' & He & C).
  pose proof (post_Done _ _ _ _ _ _ (bt_add_heap (Some h) (Some key) value m) E) as Hs.
  assert (sound m') as S' by (by eapply sound_step).
  pose proof (seek_as_map key _ B) as Ek. unfold new_node in C.
  exists m'. destruct C as [(_ & _ & _ & N)|[(-> & Sk & R)|(-> & Sk & _ & R)]]; [done|..].
  - rewrite decide_True.
    2:{ rewrite <- Ek. by destruct (seek key (root m)). }
    rewrite R. split; [done|]. split; [by apply as_map_tree_add|].
    split; [by apply BST_tree_add|done].
  - rewrite decide_False.
    2:{ rewrite <- Ek, Sk. by intros [? ?]. }
    rewrite R. split; [done|]. split; [by apply as_map_tree_add|].
    split; [by apply BST_tree_add|done].
Qed.

Lemma add_is_map_insert_witness :
  exists m',
    bt_add (Some the_tree) (Some "f") (Lit "fox") populated =
      Done (if decide (is_Some (as_map (root populated) !! "f")) then 1 else 0) m' /\
    as_map (root m') = <["f" := Lit "fox"]> (as_map (root populated)) /\
    BST (root m') /\ sound m'.
Proof.
  apply (add_is_map_insert the_tree "f" (Lit "fox") populated).
  - apply (@bool_decide_unpack _ (sound_dec _)). by vm_compute.
  - apply (@bool_decide_unpack _ (BST_dec _)). by vm_compute.
  - by vm_compute.
Defined.

(** ** [bt_delete] on the map *)

Lemma bt_delete_present h key old_value m :
  sound m -> BST (root m) -> seek key (root m) <> NULL ->
  (two_children (seek key (root m)) = true -> strdup_ok m) ->
  exists m',
    bt_delete (Some h) (Some key) old_value m =
      Done (0, option_map (fun _ => handed_out (seek key (root m))) old_value) m' /\
    root m' = tree_delete (brk m) (supplied old_value) key (root m) /\
    frees (log m') = frees (log m) ++ released_blocks (seek key (root m)) /\
    sound m'.
Proof.
  intros S B Sk Ok.
  destruct (post_calm _ _ _ (sound_calm _ S) (bt_delete_spec h key old_value m))
    as ([result out] & m' & E & Q).
  destruct Q as (_ & W' & C).
  pose proof (post_Done _ _ _ _ _ _
    (bt_delete_heap (Some h) (Some key) old_value m) E) as Hs.
  exists m'.
  destruct C as [(_ & N & _)|[(_ & T & N & _)|(-> & _ & _ & R & -> & F & He)]];
    [done|by specialize (Ok T)|].
  split; [done|]. split; [done|]. split; [done|]. by eapply sound_step.
Qed.

(** X5.  On a sound state holding a search tree, deleting a bound
    key, on every path but the two-children path taken with an
    [old_value]: [bt_delete] returns 0, stores the key's value in
    [*old_value] when that is supplied, removes the key from the map and
    changes no other binding; the result is again a search tree in a sound
    state.  The two-children path needs the allocator not to fail. *)
Theorem delete_is_map_delete (h : btree_ref) (key : string)
    (old_value : option pointer) (x : pointer) (m : machine) :
  sound m -> BST (root m) ->
  as_map (root m) !! key = Some x ->
  (two_children (seek key (root m)) = true -> old_value = None /\ strdup_ok m) ->
  exists m',
    bt_delete (Some h) (Some key) old_value m =
      Done (0, option_map (fun _ => x) old_value) m' /\
    as_map (root m') = delete key (as_map (root m)) /\
    BST (root m') /\ sound m'.
Proof.
  intros S B Hx Ht. rewrite <- seek_as_map in Hx by done.
  assert (seek key (root m) <> NULL) as Sk by (by intros E; rewrite E in Hx).
  destruct (bt_delete_present h key old_value m S B Sk)
    as (m' & E & R & _ & S'); [by intros T; apply Ht|].
  exists m'. rewrite R. split; [|split; [|split; [by apply BST_tree_delete|done]]].
  - rewrite E. unfold handed_out, value_or_null.
    destruct (two_children (seek key (root m))) eqn:T.
    + by destruct (Ht eq_refl) as [-> _].
    + by rewrite Hx.
  - rewrite as_map_tree_delete by done. unfold rebound.
    destruct (two_children (seek key (root m))) eqn:T.
    + destruct (Ht eq_refl) as [-> _]. done.
    + by rewrite andb_false_r.
Qed.

Lemma delete_is_map_delete_witness :
  exists m',
    bt_delete (Some the_tree) (Some "d") None populated =
      Done (0, option_map (fun _ : pointer => Lit "delta") None) m' /\
    as_map (root m') = delete "d" (as_map (root populated)) /\
    BST (root m') /\ sound m'.
Proof.
  apply (delete_is_map_delete the_tree "d" None (Lit "delta") populated).
  - apply (@bool_decide_unpack _ (sound_dec _)). by vm_compute.
  - apply (@bool_decide_unpack _ (BST_dec _)). by vm_compute.
  - by vm_compute.
  - intros _. split; [done|]. by vm_compute.
Defined.

(** X6.  On the two-children path taken with an
    [old_value], the key is removed from the map, and the key of its
    in-order successor is left bound to the value of the deleted key. *)
Theorem delete_rebinds_successor (h : btree_ref) (key : string)
    (old x : pointer) (m : machine) :
  sound m -> BST (root m) -> strdup_ok m ->
  as_map (root m) !! key = Some x ->
  two_children (seek key (root m)) = true ->
  exists res m',
    bt_delete (Some h) (Some key) (Some old) m = Done res m' /\
    res.1 = 0 /\
    as_map (root m') =
      <[successor_key (seek key (root m)) := x]> (delete key (as_map (root m))) /\
    BST (root m') /\ sound m'.
Proof.
  intros S B Ok Hx T. rewrite <- seek_as_map in Hx by done.
  assert (seek key (root m) <> NULL) as Sk by (by intros E; rewrite E in Hx).
  destruct (bt_delete_present h key (Some old) m S B Sk)
    as (m' & E & R & _ & S'); [done|].
  eexists _, m'. split; [exact E|]. split; [done|]. rewrite R.
  split; [|split; [by apply BST_tree_delete|done]].
  rewrite as_map_tree_delete by done. unfold rebound, value_or_null.
  by rewrite T, Hx.
Qed.

Lemma delete_rebinds_successor_witness :
  exists res m',
    bt_delete (Some the_tree) (Some "b") (Some NULLptr) populated = Done res m' /\
    res.1 = 0 /\
    as_map (root m') =
      <[successor_key (seek "b" (root populated)) := Lit "bravo"]>
        (delete "b" (as_map (root populated))) /\
    BST (root m') /\ sound m'.
Proof.
  apply (delete_rebinds_successor the_tree "b" NULLptr (Lit "bravo") populated).
  - apply (@bool_decide_unpack _ (sound_dec _)). by vm_compute.
  - apply (@bool_decide_unpack _ (BST_dec _)). by vm_compute.
  - by vm_compute.
  - by vm_compute.
  - by vm_compute.
Defined.

(** ** [bt_delete] of a key that is not there *)

Lemma stuck_parent_Node key parent a k v l r :
  strcmp key (chars k) <> 0 ->
  stuck_parent key parent (Node a k v l r) =
    let next := if strcmp key (chars k) <? 0 then l else r in
    match next with
    | NULL => parent
    | Node _ _ _ _ _ => stuck_parent key (Some a) next
    end.
Proof. intros H. cbn [stuck_parent]. by destruct (Z.eqb_spec (strcmp key (chars k)) 0). Qed.

Lemma NoDup_node a k v l r :
  NoDup (addrs (Node a k v l r)) ->
  (a ∉ below (Node a k v l r)) /\ NoDup (addrs l) /\ NoDup (addrs r) /\
  (forall x, x ∈ addrs l -> x <> a) /\ (forall x, x ∈ addrs r -> x <> a).
Proof.
  simpl. intros ND. apply NoDup_app in ND as (N1 & N2 & N3).
  apply NoDup_cons in N3 as [N3 N4]. split; [|split; [done|split; [done|split]]].
  - intros Hb. apply elem_of_app in Hb as [Hb|Hb]; [|done].
    apply (N2 a Hb). set_solver.
  - intros x Hx ->. apply (N2 a Hx). set_solver.
  - by intros x Hx ->.
Qed.

Lemma delete_loop_missing key old_value parent cur m :
  cur <> NULL -> seek key cur = NULL -> NoDup (addrs cur) ->
  mtx cur ⊆ held m -> optset parent ⊆ held m -> optset parent ## mtx cur ->
  post (delete_loop key old_value parent cur) m
    (fun res m' =>
       res = (-1, old_value, cur) /\ root m' = root m /\ rwlock m' = rwlock m /\
       heap_same m m' /\
       held m' = held m ∖ mtx cur ∖ optset parent ∪
                 optset (stuck_parent key parent cur))
    (fun m' => exists x, x ∈ below cur /\ x ∈ held m).
Proof.
  revert parent m. induction cur as [|a k v l IHl r IHr]; intros parent m; [done|].
  intros _ Sk ND Hc Hp Hd. cbn [mtx] in Hc, Hd.
  assert (strcmp key (chars k) <> 0) as Ne.
  { intros E. cbn [seek] in Sk. by rewrite E in Sk. }
  rewrite stuck_parent_Node by done. cbn [delete_loop seek mtx] in *.
  cmp_cases key (chars k); [done|..]; cbn zeta.
  - rewrite B, B0 in Sk. destruct l as [|la lk lv ll lr].
    + apply post_bind, post_unlock. intros e L R W Br O H.
      unfold post. cbn [ret]. do 3 (split; [done|]). split.
      * unfold heap_same. by rewrite L, allocs_app, frees_app, !app_nil_r.
      * rewrite H. apply set_eq. intros x.
        destruct (decide (x ∈ optset parent)); set_solver.
    + apply NoDup_node in ND as (_ & NDl & _ & Hal & _).
      assert (la <> a) as Haa by (apply Hal; simpl; set_solver).
      pose proof (NoDup_node _ _ _ _ _ NDl) as (Hla & _).
      apply post_bind, post_lock.
      2:{ intros H. exists la. split; [|done]. simpl. set_solver. }
      intros Hl. apply post_bind, post_unlock_if.
      intros e Le Re We Be Oe He. simpl in Le, Re, We, Be, Oe, He.
      apply post_bind. eapply post_mono; [apply IHl; [done|done|done|..]| |].
      * rewrite He. cbn [mtx]. set_solver.
      * rewrite He. cbn [optset]. set_solver.
      * cbn [mtx optset]. set_solver.
      * intros [[result out] next] m1 (Er & R1 & W1 & H1 & Hh).
        injection Er as -> -> ->. unfold post. cbn [ret].
        split; [done|]. split; [congruence|]. split; [congruence|]. split.
        { destruct H1 as (A1 & F1 & B1). unfold heap_same.
          rewrite A1, F1, B1, Le, Be, !allocs_app, !frees_app.
          simpl. destruct parent; by rewrite !app_nil_r. }
        rewrite Hh, He. cbn [mtx optset]. apply set_eq. intros x.
        destruct (decide (x = la)) as [->|]; set_solver.
      * intros m' (x & Hx & Hh). exists x. split.
        { cbn [below addrs] in *. set_solver. }
        rewrite He in Hh.
        assert (x <> la) by (by intros ->). set_solver.
  - rewrite B, B0 in Sk. destruct r as [|ra rk rv rl rr].
    + apply post_bind, post_unlock. intros e L R W Br O H.
      unfold post. cbn [ret]. do 3 (split; [done|]). split.
      * unfold heap_same. by rewrite L, allocs_app, frees_app, !app_nil_r.
      * rewrite H. apply set_eq. intros x.
        destruct (decide (x ∈ optset parent)); set_solver.
    + apply NoDup_node in ND as (_ & _ & NDr & _ & Har).
      assert (ra <> a) as Haa by (apply Har; simpl; set_solver).
      pose proof (NoDup_node _ _ _ _ _ NDr) as (Hra & _).
      apply post_bind, post_lock.
      2:{ intros H. exists ra. split; [|done]. simpl. set_solver. }
      intros Hl. apply post_bind, post_unlock_if.
      intros e Le Re We Be Oe He. simpl in Le, Re, We, Be, Oe, He.
      apply post_bind. eapply post_mono; [apply IHr; [done|done|done|..]| |].
      * rewrite He. cbn [mtx]. set_solver.
      * rewrite He. cbn [optset]. set_solver.
      * cbn [mtx optset]. set_solver.
      * intros [[result out] next] m1 (Er & R1 & W1 & H1 & Hh).
        injection Er as -> -> ->. unfold post. cbn [ret].
        split; [done|]. split; [congruence|]. split; [congruence|]. split.
        { destruct H1 as (A1 & F1 & B1). unfold heap_same.
          rewrite A1, F1, B1, Le, Be, !allocs_app, !frees_app.
          simpl. destruct parent; by rewrite !app_nil_r. }
        rewrite Hh, He. cbn [mtx optset]. apply set_eq. intros x.
        destruct (decide (x = ra)) as [->|]; set_solver.
      * intros m' (x & Hx & Hh). exists x. split.
        { cbn [below addrs] in *. set_solver. }
        rewrite He in Hh.
        assert (x <> ra) by (by intros ->). set_solver.
Qed.

Lemma bt_delete_missing h key old_value m :
  calm m -> seek key (root m) = NULL ->
  exists m',
    bt_delete (Some h) (Some key) old_value m = Done (-1, old_value) m' /\
    root m' = root m /\ rwlock m' = Unlocked /\ heap_same m m' /\
    held m' = held m ∪ optset (stuck_parent key None (root m)).
Proof.
  intros (W & ND & Hh) Sk.
  cut (post (bt_delete (Some h) (Some key) old_value) m
         (fun res m' => res = (-1, old_value) /\
            root m' = root m /\ rwlock m' = Unlocked /\ heap_same m m' /\
            held m' = held m ∪ optset (stuck_parent key None (root m)))
         (fun _ => False)).
  { intros H. apply post_returns in H as (res & m' & E & -> & H). by exists m'. }
  unfold bt_delete. apply post_bind, post_wrlock; [|done].
  intros _. apply post_bind. unfold post at 1. cbn [get_root emit set_rwlock root].
  destruct (root m) as [|a k v l r] eqn:R.
  - apply post_bind. unfold post at 1. cbn [ret].
    apply post_bind, post_wrunlock; [done|].
    unfold post. simpl. do 3 (split; [done|]). split.
    + unfold heap_same. simpl. by rewrite !allocs_app, !frees_app, !app_nil_r.
    + set_solver.
  - apply post_bind, post_bind, post_lock.
    2:{ intros H. simpl in H. apply (Hh a); [set_solver|done]. }
    intros Ha. apply post_bind.
    eapply post_mono; [apply delete_loop_missing; [done|done|done|..]| |].
    + simpl. set_solver.
    + simpl. set_solver.
    + simpl. set_solver.
    + intros [[result out] cur'] m1 (Er & R1 & W1 & H1 & Hm).
      injection Er as -> -> ->. apply post_bind.
      unfold post at 1. cbn [set_root]. unfold post at 1. cbn [ret].
      apply post_bind, post_wrunlock; [by rewrite W1|].
      unfold post. simpl in *. do 3 (split; [done|]). split.
      * destruct H1 as (A1 & F1 & B1). simpl in A1, F1, B1.
        unfold heap_same. simpl.
        rewrite !allocs_app, !frees_app, A1, F1, B1, !allocs_app, !frees_app.
        simpl. by rewrite !app_nil_r.
      * rewrite Hm. apply set_eq. intros x.
        destruct (decide (x = a)) as [->|]; set_solver.
    + simpl. intros _ (x & Hx & Hx').
      apply NoDup_node in ND as (Hb & _).
      assert (x <> a) by (by intros ->).
      apply (Hh x); [simpl in *; set_solver|set_solver].
Qed.

(** X7.  Deleting a key that is not in the tree
    returns -1 and leaves the tree, [*old_value] and the heap as they
    were, and the tree lock free; but the mutex of the node that the
    search loop held as [parent] at its exit [if (!next)] stays locked:
    none when the search ended at the root, else the parent of the last
    node visited. *)
Theorem delete_absent_key_keeps_parent_locked (h : btree_ref) (key : string)
    (old_value : option pointer) (m : machine) :
  calm m -> key ∉ keys (root m) ->
  exists m',
    bt_delete (Some h) (Some key) old_value m = Done (-1, old_value) m' /\
    root m' = root m /\ rwlock m' = Unlocked /\ heap_same m m' /\
    held m' = held m ∪ optset (stuck_parent key None (root m)).
Proof. intros Hc Hk. apply bt_delete_missing; [done|]. by apply seek_absent. Qed.

Lemma delete_absent_key_keeps_parent_locked_witness :
  exists m',
    bt_delete (Some the_tree) (Some "bb") None populated = Done (-1, None) m' /\
    root m' = root populated /\ rwlock m' = Unlocked /\ heap_same populated m' /\
    held m' = held populated ∪ optset (stuck_parent "bb" None (root populated)).
Proof.
  apply (delete_absent_key_keeps_parent_locked the_tree "bb" None populated).
  - apply (@bool_decide_unpack _ (calm_dec _)). by vm_compute.
  - apply (bool_decide_unpack _). by vm_compute.
Defined.

(** ** When [bt_lookup] blocks *)

Lemma lookup_loop_blocks key cur m :
  post (lookup_loop key cur) m
    (fun _ m' => (forall x, x ∈ visited key cur -> x ∉ held m) /\ held m' = held m)
    (fun _ => exists x, x ∈ visited key cur /\ x ∈ held m).
Proof.
  revert m. induction cur as [|a k v l IHl r IHr]; intros m.
  { unfold post. simpl. split; [set_solver|done]. }
  cbn [lookup_loop visited]. apply post_bind, post_lock.
  2:{ intros H. exists a. split; [set_solver|done]. }
  intros Ha. cmp_cases key (chars k).
  - apply post_bind, post_unlock. intros e _ _ _ _ _ He. simpl in He.
    unfold post. cbn [ret]. split; set_solver.
  - apply post_bind, post_unlock. intros e _ _ _ _ _ He. simpl in He.
    assert (held e = held m) as Hm by set_solver.
    eapply post_mono; [apply IHl| |].
    + intros _ m' [Hv Hh]. rewrite Hm in Hv, Hh. split; [set_solver|done].
    + intros _ (x & Hx & Hh). rewrite Hm in Hh. exists x. set_solver.
  - apply post_bind, post_unlock. intros e _ _ _ _ _ He. simpl in He.
    assert (held e = held m) as Hm by set_solver.
    eapply post_mono; [apply IHr| |].
    + intros _ m' [Hv Hh]. rewrite Hm in Hv, Hh. split; [set_solver|done].
    + intros _ (x & Hx & Hh). rewrite Hm in Hh. exists x. set_solver.
Qed.

Lemma bt_lookup_blocks h key value_out m :
  result (bt_lookup (Some h) (Some key) value_out m) = None <->
  rwlock m = WriteLocked \/ exists x, x ∈ visited key (root m) /\ x ∈ held m.
Proof.
  assert (post (bt_lookup (Some h) (Some key) value_out) m
            (fun _ _ => rwlock m <> WriteLocked /\
                        forall x, x ∈ visited key (root m) -> x ∉ held m)
            (fun _ => rwlock m = WriteLocked \/
                      exists x, x ∈ visited key (root m) /\ x ∈ held m)) as H.
  { unfold bt_lookup. apply post_bind.
    destruct (rwlock m) as [|n|] eqn:W.
    3:{ unfold post, pthread_rwlock_rdlock. rewrite W. by left. }
    all: unfold post at 1, pthread_rwlock_rdlock; rewrite W.
    all: apply post_bind; unfold post at 1; cbn [get_root].
    all: apply post_bind; eapply post_mono; [apply lookup_loop_blocks| |].
    all: try (simpl; intros _ ?; by right).
    all: simpl; intros found m' [Hv _]; apply post_bind.
    all: unfold post, pthread_rwlock_unlock, bind.
    all: destruct (rwlock m') as [|[|?]|], found; simpl; done. }
  unfold post in H.
  destruct (bt_lookup (Some h) (Some key) value_out m) as [res m'|m']; simpl.
  - split; [done|]. destruct H as [Hw Hv]. intros [?|(x & Hx & Hh)]; [done|].
    by destruct (Hv x Hx).
  - done.
Qed.


Lemma visited_addrs key cur : visited key cur ⊆ addrs cur.
Proof.
  induction cur as [|a k v l IHl r IHr]; [done|]. cbn [visited addrs].
  destruct (strcmp key (chars k) =? 0); [set_solver|].
  destruct (strcmp key (chars k) <? 0); set_solver.
Qed.

Lemma stuck_parent_visited key parent cur :
  seek key cur = NULL ->
  (length (visited key cur) < 2 /\ stuck_parent key parent cur = parent)%nat \/
  (2 <= length (visited key cur) /\
   exists p, stuck_parent key parent cur = Some p /\ p ∈ visited key cur)%nat.
Proof.
  revert parent. induction cur as [|a k v l IHl r IHr]; intros parent Sk.
  { left. simpl. split; [lia|done]. }
  cbn [seek] in Sk. cbn [stuck_parent visited].
  destruct (strcmp key (chars k) =? 0); [done|].
  destruct (strcmp key (chars k) <? 0).
  - destruct l as [|la lk lv ll lr]; [left; simpl; split; [lia|done]|].
    right. destruct (IHl (Some a) Sk) as [[Hn ->]|[Hn (p & -> & Hp)]].
    + split; [simpl in *; destruct (strcmp key (chars lk) =? 0); simpl; lia|].
      exists a. split; [done|set_solver].
    + split; [simpl in *; lia|]. exists p. split; [done|set_solver].
  - destruct r as [|ra rk rv rl rr]; [left; simpl; split; [lia|done]|].
    right. destruct (IHr (Some a) Sk) as [[Hn ->]|[Hn (p & -> & Hp)]].
    + split; [simpl in *; destruct (strcmp key (chars rk) =? 0); simpl; lia|].
      exists a. split; [done|set_solver].
    + split; [simpl in *; lia|]. exists p. split; [done|set_solver].
Qed.

(** X9.  After deleting a key that is not in the
    tree, a lookup of the same key fails to return exactly when the
    search for the key visits two nodes or more. *)
Theorem lookup_after_failed_delete (h : btree_ref) (key : string)
    (old_value value_out : option pointer) (m : machine) :
  calm m -> key ∉ keys (root m) ->
  exists m',
    bt_delete (Some h) (Some key) old_value m = Done (-1, old_value) m' /\
    (result (bt_lookup (Some h) (Some key) value_out m') = None <->
     (2 <= length (visited key (root m)))%nat).
Proof.
  intros Hc Hk. pose proof (seek_absent _ _ Hk) as Sk.
  destruct (bt_delete_missing h key old_value m Hc Sk)
    as (m' & E & R & W & _ & Hh).
  exists m'. split; [done|]. rewrite bt_lookup_blocks, R, W, Hh.
  destruct Hc as (_ & _ & Hc).
  pose proof (visited_addrs key (root m)) as Hv.
  destruct (stuck_parent_visited key None _ Sk) as [[Hn ->]|[Hn (p & -> & Hp)]].
  - split; [|lia]. intros [?|(x & Hx & Hx')]; [done|].
    exfalso. apply (Hc x); set_solver.
  - split; [done|]. intros _. right. exists p. set_solver.
Qed.

Lemma lookup_after_failed_delete_witness :
  exists m',
    bt_delete (Some the_tree) (Some "bb") None populated = Done (-1, None) m' /\
    (result (bt_lookup (Some the_tree) (Some "bb") None m') = None <->
     (2 <= length (visited "bb" (root populated)))%nat).
Proof.
  apply (lookup_after_failed_delete the_tree "bb" None None populated).
  - apply (@bool_decide_unpack _ (calm_dec _)). by vm_compute.
  - apply (bool_decide_unpack _). by vm_compute.
Defined.

(** ** Runs of inserts and lookups *)

(** X10.  From a sound state, any run of [bt_add] and
    [bt_lookup] calls, with any arguments and whatever the allocator
    answers, returns from every call and ends in a sound state. *)
Theorem inserts_and_lookups_return (h : option btree_ref) (cs : list call)
    (m : machine) :
  sound m -> forallb (fun c => negb (is_remove c)) cs = true ->
  exists m', serve_all h cs m = Done tt m' /\ sound m'.
Proof.
  revert m. induction cs as [|c cs IH]; intros m S Hc; [by exists m|].
  simpl in Hc. apply andb_prop in Hc as [Hc Hcs]. cbn [serve_all].
  assert (exists m1, serve h c m = Done tt m1 /\ sound m1) as (m1 & E1 & S1).
  { destruct c as [key value|key old_value|key value_out]; [|done|]; cbn [serve].
    - destruct (bt_add_sound h key value m S) as (rc & m1 & E & S1).
      exists m1. unfold bind. by rewrite E.
    - destruct (bt_lookup_sound h key value_out m S) as (res & m1 & E & S1).
      exists m1. unfold bind. by rewrite E. }
  destruct (IH m1 S1 Hcs) as (m' & E & S').
  exists m'. unfold bind at 1. by rewrite E1.
Qed.

Lemma inserts_and_lookups_return_witness :
  exists m',
    serve_all t [Insert (Some "f") (Lit "fox"); Find (Some "a") None;
                 Insert None NULLptr; Insert (Some "a") (Lit "ant")] populated =
      Done tt m' /\ sound m'.
Proof.
  apply (inserts_and_lookups_return t _ populated).
  - apply (@bool_decide_unpack _ (sound_dec _)). by vm_compute.
  - reflexivity.
Defined.

(** ** Locks after a call that returns *)







(** ** [find_min_locked] and the mutex of [start] *)

Lemma find_min_loop_parent parent cur m :
  post (find_min_loop parent cur) m
    (fun res _ => res.1 = min_parent parent cur) (fun _ => True).
Proof.
  revert parent m. induction cur as [|a k v l IHl r _]; intros parent m; [done|].
  cbn [find_min_loop min_parent]. destruct l as [|la lk lv ll lr]; [done|].
  apply post_bind, post_lock; [|done]. intros _.
  apply post_bind, post_unlock. intros e _ _ _ _ _ _. apply IHl.
Qed.

Lemma min_parent_in parent cur :
  left_of cur <> NULL -> min_parent parent cur ∈ addrs cur.
Proof.
  revert parent. induction cur as [|a k v l IHl r _]; intros parent; [done|].
  cbn [left_of min_parent addrs]. destruct l as [|la lk lv ll lr]; [done|].
  intros _. destruct ll as [|lla llk llv lll llr].
  - simpl. set_solver.
  - apply elem_of_app. left. by apply IHl.
Qed.

Lemma leftmost_in n : mtx (leftmost n) ⊆ list_to_set (addrs n).
Proof.
  induction n as [|a k v l IHl r _]; [done|].
  cbn [leftmost addrs]. destruct l as [|la lk lv ll lr].
  - simpl. set_solver.
  - rewrite list_to_set_app_L. set_solver.
Qed.

(** X14.  Entered with [start] locked as the caller
    does, [find_min_locked] returns the leftmost node of the right
    subtree; when that is not the right child itself, it returns with
    the mutex of [start] unlocked, and with a parent other than
    [start]. *)
Theorem find_min_locked_unlocks_start (a : addr) (k : cstr) (v : pointer)
    (l r : bt_node) (m : machine) :
  a ∈ held m -> clear_below (Node a k v l r) m ->
  r <> NULL -> left_of r <> NULL ->
  exists sp succ m',
    find_min_locked (Node a k v l r) m = Done (sp, succ) m' /\
    succ = leftmost r /\ sp = min_parent a r /\ sp <> a /\ a ∉ held m'.
Proof.
  intros Ha Hc Hr Hl.
  assert (post (find_min_locked (Node a k v l r)) m
            (fun res m' => res.2 = leftmost r /\
               held m' ∖ {[res.1]} ∖ mtx res.2 = held m ∖ {[a]})
            (fun _ => False)) as H.
  { eapply post_mono; [by apply find_min_locked_spec| |].
    - intros [sp succ] m' (-> & _ & _ & _ & _ & _ & H). done.
    - intros m' [_ H]. by apply H. }
  apply post_returns in H as ([sp succ] & m' & E & Es & Hh). simpl in Es, Hh.
  assert (sp = min_parent a r) as Ep.
  { destruct r as [|ra rk rv rl rr]; [done|]. cbn [find_min_locked] in E.
    unfold bind, pthread_mutex_lock in E.
    destruct (decide (ra ∈ held m)); [done|].
    apply (post_Done _ _ _ _ _ _ (find_min_loop_parent a _ _) E). }
  destruct Hc as [ND _]. apply NoDup_node in ND as (Hb & _).
  assert (a ∉ addrs r) as Hr' by (simpl in Hb; set_solver).
  assert (sp <> a) as Hne.
  { intros ->. apply Hr'. rewrite Ep at 1. by apply min_parent_in. }
  exists sp, succ, m'. do 4 (split; [done|]).
  pose proof (leftmost_in r) as Hs. rewrite <- Es in Hs.
  intros Hm. assert (a ∈ held m' ∖ {[sp]} ∖ mtx succ) as Hx by set_solver.
  rewrite Hh in Hx. set_solver.
Qed.

Lemma find_min_locked_unlocks_start_witness :
  exists sp succ m',
    find_min_locked (root deep_successor) deep_successor = Done (sp, succ) m' /\
    succ = leftmost (Node 2%nat (Cstr 3%nat "f") (Lit "fox")
                       (Node 4%nat (Cstr 5%nat "e") (Lit "echo") NULL NULL) NULL) /\
    sp = min_parent 0%nat
           (Node 2%nat (Cstr 3%nat "f") (Lit "fox")
              (Node 4%nat (Cstr 5%nat "e") (Lit "echo") NULL NULL) NULL) /\
    sp <> 0%nat /\ 0%nat ∉ held m'.
Proof.
  apply (find_min_locked_unlocks_start 0%nat (Cstr 1%nat "d") (Lit "delta") NULL
           (Node 2%nat (Cstr 3%nat "f") (Lit "fox")
              (Node 4%nat (Cstr 5%nat "e") (Lit "echo") NULL NULL) NULL)
           deep_successor).
  - apply (bool_decide_unpack _). by vm_compute.
  - apply (@bool_decide_unpack _ (clear_below_dec _ _)). by vm_compute.
  - done.
  - done.
Defined.

(** ** [bt_init] *)

(** X15.  [bt_init] returns 0 and leaves an empty tree with a free
    lock.  It frees nothing: on a heap in order, the heap is in order
    afterwards exactly when the tree held no node. *)
Theorem init_forgets_the_tree (h : btree_ref) (m : machine) :
  heap_ok m ->
  exists m',
    bt_init (Some h) m = Done 0 m' /\
    root m' = NULL /\ rwlock m' = Unlocked /\ held m' = held m /\
    heap_same m m' /\ (heap_ok m' <-> root m = NULL).
Proof.
  intros (ND & Fa & P). eexists. split; [reflexivity|]. simpl.
  do 3 (split; [done|]).
  assert (heap_same m (emit EvRwInit (set_rwlock Unlocked
            (Machine NULL (rwlock m) (held m) (brk m) (oracle m) (log m))))) as Hs.
  { unfold heap_same. simpl. by rewrite allocs_app, frees_app, !app_nil_r. }
  split; [exact Hs|]. destruct Hs as (A & F & Bk). unfold heap_ok.
  rewrite A, F, Bk. simpl. rewrite app_nil_r. split.
  - intros (_ & _ & P'). rewrite P' in P.
    apply Permutation_length in P. rewrite length_app in P.
    destruct (root m) as [|a k v l r]; [done|]. simpl in P.
    rewrite length_app in P. simpl in P. lia.
  - intros R. rewrite R, app_nil_r in P. done.
Qed.

Lemma init_forgets_the_tree_witness :
  exists m',
    bt_init (Some the_tree) populated = Done 0 m' /\
    root m' = NULL /\ rwlock m' = Unlocked /\ held m' = held populated /\
    heap_same populated m' /\ (heap_ok m' <-> root populated = NULL).
Proof.
  apply (init_forgets_the_tree the_tree populated).
  apply (@bool_decide_unpack _ (heap_ok_dec _)). by vm_compute.
Defined.

(** ** Deleting a node with at most one child *)

(** X16.  Deleting a key whose node has at most one
    child returns 0 with the node's value in [*old_value], frees the key
    block and the node block of that node and nothing else, and removes
    that key and no other from the tree. *)
Theorem delete_one_child_frees_that_node (h : btree_ref) (key : string)
    (old_value : option pointer) (m : machine)
    (a : addr) (k : cstr) (v : pointer) (l r : bt_node) :
  sound m -> BST (root m) ->
  seek key (root m) = Node a k v l r -> l = NULL \/ r = NULL ->
  exists m',
    bt_delete (Some h) (Some key) old_value m =
      Done (0, option_map (fun _ => v) old_value) m' /\
    frees (log m') = frees (log m) ++ [caddr k; a] /\
    keys (root m') = filter (fun x => x <> key) (keys (root m)) /\
    (a ∉ addrs (root m')) /\ BST (root m') /\ sound m'.
Proof.
  intros S B Sk Hlr.
  assert (two_children (seek key (root m)) = false) as T.
  { rewrite Sk. simpl. destruct Hlr as [-> | ->]; [done|by destruct l]. }
  destruct (bt_delete_present h key old_value m S B) as (m' & E & R & F & S').
  { by rewrite Sk. }
  { by rewrite T. }
  exists m'. rewrite Sk in E, F, T. unfold handed_out in E.
  unfold released_blocks in F. rewrite T in E, F.
  split; [done|]. split; [done|]. rewrite R.
  split; [by apply keys_tree_delete|].
  split; [|split; [by apply BST_tree_delete|done]].
  rewrite <- R. destruct S' as (H' & _).
  destruct (heap_ok_frees _ H') as (_ & _ & Hf).
  intros Ha. apply (Hf a).
  - eapply elem_of_sublist; [exact Ha|apply addrs_blocks].
  - rewrite F. set_solver.
Qed.

Lemma delete_one_child_frees_that_node_witness :
  exists m',
    bt_delete (Some the_tree) (Some "a") (Some NULLptr) populated =
      Done (0, option_map (fun _ => Lit "alpha") (Some NULLptr)) m' /\
    frees (log m') = frees (log populated) ++ [5%nat; 4%nat] /\
    keys (root m') = filter (fun x => x <> "a") (keys (root populated)) /\
    (4%nat ∉ addrs (root m')) /\ BST (root m') /\ sound m'.
Proof.
  apply (delete_one_child_frees_that_node the_tree "a" (Some NULLptr) populated
           4%nat (Cstr 5%nat "a") (Lit "alpha") NULL NULL).
  - apply (@bool_decide_unpack _ (sound_dec _)). by vm_compute.
  - apply (@bool_decide_unpack _ (BST_dec _)). by vm_compute.
  - by vm_compute.
  - by left.
Defined.

(** ** Round trips *)

Lemma tree_delete_tree_add new_key handed a ka key value n :
  seek key n = NULL ->
  tree_delete new_key handed key
    (tree_add (Node a (Cstr ka key) value NULL NULL) key value n) = n.
Proof.
  induction n as [|a0 k v l IHl r IHr]; cbn [seek tree_add tree_delete].
  - intros _. simpl. by rewrite (proj2 (strcmp_eq key key) eq_refl).
  - cmp_cases key (chars k); [done|..]; intros Sk; cbn [tree_delete];
      rewrite B, B0; f_equal; auto.
Qed.

(** X17.  Inserting an absent key and then deleting it
    hands back the value inserted and leaves the tree exactly as it was,
    in a sound state: the node and key allocated by the insertion are
    the two blocks freed by the deletion. *)
Theorem insert_then_delete_restores (h : btree_ref) (key : string)
    (value : pointer) (old_value : option pointer) (m : machine) :
  sound m -> node_new_ok m -> key ∉ keys (root m) ->
  exists m1 m2,
    bt_add (Some h) (Some key) value m = Done 0 m1 /\
    bt_delete (Some h) (Some key) old_value m1 =
      Done (0, option_map (fun _ => value) old_value) m2 /\
    root m2 = root m /\
    frees (log m2) = frees (log m1) ++ [S (brk m); brk m] /\
    sound m2.
Proof.
  intros Sd Ok Hk. pose proof (seek_absent _ _ Hk) as Sk.
  destruct (post_calm _ _ _ (sound_calm _ Sd) (bt_add_spec h key value m))
    as (rc & m1 & E1 & _ & W1 & He1 & C).
  pose proof (post_Done _ _ _ _ _ _ (bt_add_heap (Some h) (Some key) value m) E1) as Hs.
  assert (sound m1) as S1 by (by eapply sound_step).
  destruct C as [(_ & _ & _ & N)|[(_ & N & _)|(-> & _ & _ & R1)]]; [done..|].
  unfold new_node in R1.
  destruct (tree_add_absent (brk m) (S (brk m)) key value value _ Sk) as [Sk1 _].
  rewrite <- R1 in Sk1.
  assert (post (bt_delete (Some h) (Some key) old_value) m1
            (bt_delete_post key old_value m1) (fun _ => False)) as D.
  { eapply post_mono; [apply bt_delete_spec|done|].
    intros m' [_ Hn]. apply Hn. by apply sound_calm. }
  apply post_returns in D as ([result out] & m2 & E2 & Q).
  destruct Q as (_ & W2 & C). rewrite Sk1 in C.
  pose proof (post_Done _ _ _ _ _ _
    (bt_delete_heap (Some h) (Some key) old_value m1) E2) as Hs2.
  destruct C as [(_ & N & _)|[(_ & T & _)|(-> & _ & _ & R2 & -> & F2 & He2)]];
    [done..|].
  exists m1, m2. split; [done|]. split; [done|].
  split; [|split; [done|by eapply sound_step]].
  rewrite R2, R1. by apply tree_delete_tree_add.
Qed.

Lemma insert_then_delete_restores_witness :
  exists m1 m2,
    bt_add (Some the_tree) (Some "f") (Lit "fox") populated = Done 0 m1 /\
    bt_delete (Some the_tree) (Some "f") (Some NULLptr) m1 =
      Done (0, option_map (fun _ => Lit "fox") (Some NULLptr)) m2 /\
    root m2 = root populated /\
    frees (log m2) = frees (log m1) ++ [S (brk populated); brk populated] /\
    sound m2.
Proof.
  apply (insert_then_delete_restores the_tree "f" (Lit "fox") (Some NULLptr) populated).
  - apply (@bool_decide_unpack _ (sound_dec _)). by vm_compute.
  - by vm_compute.
  - apply (bool_decide_unpack _). by vm_compute.
Defined.

(** X18.  After a delete of a bound key that returns 0, a
    second delete of the same key returns -1 and changes neither the tree
    nor [*old_value]. *)
Theorem delete_twice_fails (h : btree_ref) (key : string)
    (old_value old_value' : option pointer) (x : pointer) (m : machine) :
  sound m -> BST (root m) ->
  as_map (root m) !! key = Some x ->
  (two_children (seek key (root m)) = true -> strdup_ok m) ->
  exists res m1 m2,
    bt_delete (Some h) (Some key) old_value m = Done (0, res) m1 /\
    bt_delete (Some h) (Some key) old_value' m1 = Done (-1, old_value') m2 /\
    root m2 = root m1.
Proof.
  intros S B Hx Ok. rewrite <- seek_as_map in Hx by done.
  assert (seek key (root m) <> NULL) as Sk by (by intros E; rewrite E in Hx).
  destruct (bt_delete_present h key old_value m S B Sk Ok)
    as (m1 & E1 & R1 & _ & S1).
  assert (key ∉ keys (root m1)) as Hk.
  { rewrite R1, keys_tree_delete by done. rewrite list_elem_of_filter.
    by intros [? _]. }
  destruct (bt_delete_missing h key old_value' m1 (sound_calm _ S1)
              (seek_absent _ _ Hk)) as (m2 & E2 & R2 & _).
  by eexists _, m1, m2.
Qed.

Lemma delete_twice_fails_witness :
  exists res m1 m2,
    bt_delete (Some the_tree) (Some "b") (Some NULLptr) populated = Done (0, res) m1 /\
    bt_delete (Some the_tree) (Some "b") None m1 = Done (-1, None) m2 /\
    root m2 = root m1.
Proof.
  apply (delete_twice_fails the_tree "b" (Some NULLptr) None (Lit "bravo") populated).
  - apply (@bool_decide_unpack _ (sound_dec _)). by vm_compute.
  - apply (@bool_decide_unpack _ (BST_dec _)). by vm_compute.
  - by vm_compute.
  - intros _. by vm_compute.
Defined.

(** ** The demo, whatever the allocator answers *)

Lemma bind_Done {A B} (c : M A) (k : A -> M B) m x m1 :
  c m = Done x m1 -> bind c k m = k x m1.
Proof. intros E. unfold bind. by rewrite E. Qed.

Lemma printf_sound s m : sound m -> sound (emit (EvPrint s) m).
Proof.
  intros S. eapply sound_step; [exact S| |by destruct S as (_ & ? & _)|done].
  apply heap_same_step. by apply (heap_same_emit (EvPrint s)).
Qed.

Lemma bt_delete_returns h key old_value m :
  sound m ->
  exists res m', bt_delete h key old_value m = Done res m' /\
    heap_ok m' /\ rwlock m' = Unlocked.
Proof.
  intros Sd. destruct h as [h|], key as [key|];
    try (eexists _, m; split; [reflexivity|]; by destruct Sd as (? & ? & _)).
  destruct (post_calm _ _ _ (sound_calm _ Sd) (bt_delete_spec h key old_value m))
    as ([result out] & m' & E & Q).
  destruct Q as (_ & W' & _).
  pose proof (post_Done _ _ _ _ _ _
    (bt_delete_heap (Some h) (Some key) old_value m) E) as Hs.
  eexists _, m'. split; [done|]. split; [|done].
  destruct Sd as (H & _). by eapply heap_ok_step.
Qed.

(** X19.  Whatever the allocator answers, [main] returns 0, and
    when it returns every block it allocated has been freed, exactly
    once. *)
Theorem main_frees_everything (o : list bool) :
  exists m',
    main (boot_with o) = Done 0 m' /\
    root m' = NULL /\
    frees (log m') ≡ₚ allocs (log m') /\ NoDup (frees (log m')).
Proof.
  unfold main, t.
  assert (exists m1, bt_init (Some the_tree) (boot_with o) = Done 0 m1 /\ sound m1)
    as (m1 & E1 & S1).
  { eexists. split; [reflexivity|]. unfold sound, heap_ok. simpl.
    repeat split; try done; constructor. }
  rewrite (bind_Done _ _ _ _ _ E1).
  destruct (bt_add_sound (Some the_tree) (Some "d") (Lit "delta") _ S1)
    as (r2 & m2 & E2 & S2).
  rewrite (bind_Done _ _ _ _ _ E2).
  destruct (bt_add_sound (Some the_tree) (Some "b") (Lit "bravo") _ S2)
    as (r3 & m3 & E3 & S3).
  rewrite (bind_Done _ _ _ _ _ E3).
  destruct (bt_add_sound (Some the_tree) (Some "a") (Lit "alpha") _ S3)
    as (r4 & m4 & E4 & S4).
  rewrite (bind_Done _ _ _ _ _ E4).
  destruct (bt_add_sound (Some the_tree) (Some "c") (Lit "charlie") _ S4)
    as (r5 & m5 & E5 & S5).
  rewrite (bind_Done _ _ _ _ _ E5).
  destruct (bt_add_sound (Some the_tree) (Some "e") (Lit "echo") _ S5)
    as (r6 & m6 & E6 & S6).
  rewrite (bind_Done _ _ _ _ _ E6).
  destruct (bt_lookup_sound (Some the_tree) (Some "c") (Some NULLptr) _ S6)
    as ([found val] & m7 & E7 & S7).
  rewrite (bind_Done _ _ _ _ _ E7).
  assert (exists m8,
    (if found then printf ("c -> " ++ as_string (default NULLptr val) ++ newline)%string
     else ret tt) m7 = Done tt m8 /\ sound m8) as (m8 & E8 & S8).
  { destruct found; eexists; (split; [reflexivity|]); [by apply printf_sound|done]. }
  rewrite (bind_Done _ _ _ _ _ E8).
  destruct (bt_delete_returns (Some the_tree) (Some "b") (Some NULLptr) _ S8)
    as ([rc old] & m9 & E9 & H9 & W9).
  rewrite (bind_Done _ _ _ _ _ E9).
  assert (exists m10,
    (if rc =? 0
     then printf ("deleted b (old value: " ++ as_string (default NULLptr old) ++ ")"
                  ++ newline)%string
     else ret tt) m9 = Done tt m10 /\ heap_ok m10 /\ rwlock m10 = Unlocked)
    as (m10 & E10 & H10 & W10).
  { destruct (rc =? 0); eexists; (split; [reflexivity|]); [|done].
    split; [|done]. eapply heap_ok_step; [exact H9|].
    apply heap_same_step. by apply (heap_same_emit (EvPrint _)). }
  rewrite (bind_Done _ _ _ _ _ E10).
  destruct (bt_destroy_log the_tree None m10 W10) as (m' & E & R & B & _ & _ & L).
  rewrite (bind_Done _ _ _ _ _ E). exists m'. split; [done|]. split; [done|].
  destruct H10 as (ND & _ & P).
  assert (allocs (log m') = allocs (log m10)) as A.
  { rewrite L, !allocs_app, allocs_teardown. cbn. by rewrite !app_nil_r. }
  assert (frees (log m') ≡ₚ allocs (log m')) as F.
  { rewrite A, P, L, !frees_app, frees_teardown_blocks. cbn.
    by rewrite !app_nil_r. }
  split; [done|]. by rewrite F, A.
Qed.

(** ** Calls that do not return *)

Lemma post_Blocked {A} (c : M A) m Q B m' :
  post c m Q B -> c m = Blocked m' -> B m'.
Proof. unfold post. intros H E. by rewrite E in H. Qed.

(** X20.  A call that fails to return was made in a state
    that was not calm, the tree lock or the mutex of a node of the tree
    being locked; and it leaves the tree and the heap as they were. *)
Theorem blocked_call_leaves_tree (h : option btree_ref) (c : call) (m : machine) :
  result (serve h c m) = None ->
  root (final (serve h c m)) = root m /\
  heap_same m (final (serve h c m)) /\ ~ calm m.
Proof.
  intros Hr.
  destruct c as [key value|key old_value|key value_out]; cbn [serve] in *;
    unfold bind in *.
  - destruct (bt_add h key value m) as [rc m'|m'] eqn:E; [done|]. simpl.
    destruct h as [h|], key as [key|]; try discriminate E.
    destruct (post_Blocked _ _ _ _ _ (bt_add_spec h key value m) E) as [R N].
    destruct (post_Blocked _ _ _ _ _
      (bt_add_heap (Some h) (Some key) value m) E) as [_ H].
    done.
  - destruct (bt_delete h key old_value m) as [rc m'|m'] eqn:E; [done|]. simpl.
    destruct h as [h|], key as [key|]; try discriminate E.
    destruct (post_Blocked _ _ _ _ _ (bt_delete_spec h key old_value m) E) as [R N].
    destruct (post_Blocked _ _ _ _ _
      (bt_delete_heap (Some h) (Some key) old_value m) E) as [_ H].
    done.
  - destruct (bt_lookup h key value_out m) as [rc m'|m'] eqn:E; [done|]. simpl.
    destruct h as [h|], key as [key|]; try discriminate E.
    pose proof (post_Blocked _ _ _ _ _ (bt_lookup_spec h key value_out m) E) as N.
    destruct (post_Blocked _ _ _ _ _
      (bt_lookup_heap (Some h) (Some key) value_out m) E) as [R H].
    split; [done|]. split; [done|]. intros (W & _ & Hh).
    destruct N as [N|(x & Hx & Hx')]; [congruence|]. by apply (Hh x).
Qed.

Lemma blocked_call_leaves_tree_witness :
  root (final (serve t (Find (Some "b") None) (final (failed_delete boot)))) =
    root (final (failed_delete boot)) /\
  heap_same (final (failed_delete boot))
    (final (serve t (Find (Some "b") None) (final (failed_delete boot)))) /\
  ~ calm (final (failed_delete boot)).
Proof.
  apply (blocked_call_leaves_tree t (Find (Some "b") None) (final (failed_delete boot))).
  by vm_compute.
Defined.
